(** * pandoras-box: the heuristic collation pipeline

    A shallow embedding of the transcript reader
    (component_1_preprocessing.py), the stem classifier
    (component_2_stem_identification.py), the basic grouping
    (component_3_option_identification_grouping.py), the option extractor
    and the association engine (component_4_refined_grouping.py), the
    chunker and the combine step of processing.py, and the date analysis
    and the date filter of app.py, followed by the properties of the
    specification that concern them and by further properties of the
    code.

    Conventions.
    - A Python [str] is a list of Unicode code points ([N]).  White space
      is [str.isspace] in full and line boundaries are those of
      [str.splitlines].  Python's Unicode tables for decimal digits, word
      characters and letter case are given on the code points below 128;
      above, a code point counts as a caseless character that is neither a
      digit nor a word character.
    - [re] is a backtracking matcher returning, in priority order, every
      way a pattern can match at a position; [re.match] is the first one.
    - A naive [datetime] is the number of seconds since an arbitrary
      epoch; [datetime.strptime] and [fuzz.token_set_ratio] belong to
      libraries outside the repository and are parameters.
    - A message dictionary is a record; the key [is_potential_stem],
      absent before classification, reads as [false] (as [dict.get]
      returning [None] does in a condition). *)

From Stdlib Require Import NArith ZArith Lia Sorting.Sorted.
From Stdlib Require Import Strings.String Strings.Ascii.
From stdpp Require Import gmap list.
Import ListNotations.

Local Open Scope Z_scope.

(** ** Python strings *)

Module Py.

Definition char := N.
Bind Scope N_scope with char.
Definition str := list char.

(** An ASCII literal as a [str]. *)
Definition u (s : String.string) : str :=
  List.map Ascii.N_of_ascii (String.list_ascii_of_string s).

Definition in_range (lo hi c : N) : bool := ((lo <=? c) && (c <=? hi))%N.

(** [str.isspace] for one code point. *)
Definition isspace (c : char) : bool :=
  in_range 9 13 c || in_range 28 32 c || (c =? 133)%N || (c =? 160)%N
  || (c =? 5760)%N || in_range 8192 8202 c || (c =? 8232)%N || (c =? 8233)%N
  || (c =? 8239)%N || (c =? 8287)%N || (c =? 12288)%N.

(** The line boundaries of [str.splitlines]. *)
Definition is_linebreak (c : char) : bool :=
  in_range 10 13 c || in_range 28 30 c || (c =? 133)%N
  || (c =? 8232)%N || (c =? 8233)%N.

Definition is_digit (c : char) : bool := in_range 48 57 c.
Definition is_upper (c : char) : bool := in_range 65 90 c.
Definition is_alpha (c : char) : bool := in_range 65 90 c || in_range 97 122 c.
(** A word character of [\w]. *)
Definition is_word (c : char) : bool := is_alpha c || is_digit c || (c =? 95)%N.

Definition lower_char (c : char) : char := if is_upper c then (c + 32)%N else c.
Definition lower (s : str) : str := List.map lower_char s.

Fixpoint lstrip (s : str) : str :=
  match s with
  | c :: s' => if isspace c then lstrip s' else s
  | [] => []
  end.
Definition rstrip (s : str) : str := rev (lstrip (rev s)).
Definition strip (s : str) : str := rstrip (lstrip s).

Definition str_eqb (a b : str) : bool := bool_decide (a = b).

(** Truth value of a string: non-empty. *)
Definition truthy {A} (s : list A) : bool :=
  match s with [] => false | _ => true end.

Fixpoint startswith (p s : str) : bool :=
  match p, s with
  | [], _ => true
  | c :: p', d :: s' => (c =? d)%N && startswith p' s'
  | _ :: _, [] => false
  end.

Definition endswith (s p : str) : bool := startswith (rev p) (rev s).

(** [p in s] on strings. *)
Fixpoint contains (p s : str) : bool :=
  startswith p s || match s with [] => false | _ :: s' => contains p s' end.

(** [str.splitlines()]: "\r\n" is one boundary, and a final boundary
    opens no further line. *)
Fixpoint splitlines (s : str) : list str :=
  match s with
  | [] => []
  | c :: s' =>
      if is_linebreak c then
        [] :: match s' with
              | d :: s'' => if ((c =? 13) && (d =? 10))%N then splitlines s''
                            else splitlines s'
              | [] => []
              end
      else match splitlines s' with
           | [] => [[c]]
           | l :: ls => (c :: l) :: ls
           end
  end.

(** [str.split(sep)] for a one-character separator: never empty. *)
Fixpoint split_on (sep : char) (s : str) : list str :=
  match s with
  | [] => [[]]
  | c :: s' =>
      if (c =? sep)%N then [] :: split_on sep s'
      else match split_on sep s' with
           | [] => [[c]]
           | l :: ls => (c :: l) :: ls
           end
  end.

(** [str.split()]: the maximal runs of characters that are not white space. *)
Fixpoint split_ws (s : str) : list str :=
  match s with
  | [] => []
  | c :: s' =>
      if isspace c then split_ws s'
      else match s' with
           | [] => [[c]]
           | d :: _ =>
               if isspace d then [c] :: split_ws s'
               else match split_ws s' with
                    | [] => [[c]]
                    | w :: ws => (c :: w) :: ws
                    end
           end
  end.

(** [sep.join(parts)]. *)
Fixpoint join (sep : str) (parts : list str) : str :=
  match parts with
  | [] => []
  | [p] => p
  | p :: ps => p ++ sep ++ join sep ps
  end.

(** [s.replace(c, '')] for a one-character [c]. *)
Definition remove_char (c : char) (s : str) : str :=
  List.filter (fun d => negb (d =? c)%N) s.

Definition len {A} (l : list A) : Z := Z.of_nat (List.length l).

(** [l[-1]] of a non-empty list, [d] standing for the error case. *)
Definition last_or {A} (l : list A) (d : A) : A := List.last l d.

(** [l[:n]]. *)
Definition take_first {A} (n : nat) (l : list A) : list A := firstn n l.

End Py.

Import Py.

(** ** Regular expressions ([re]) *)

Module Re.

(** A position in the subject: the character just before it, what is
    left to read, and the groups captured so far (latest first). *)
Record pos := mkPos { prev : option char; rest : str; caps : list (nat * str) }.

Inductive regex : Type :=
| Eps : regex                          (* the empty pattern *)
| Chr : (char -> bool) -> regex        (* one character of a class *)
| Cat : regex -> regex -> regex        (* ab *)
| Alt : regex -> regex -> regex        (* a|b *)
| Star : bool -> regex -> regex        (* a* when [true], a*? when [false] *)
| Opt : regex -> regex                 (* a? *)
| Grp : nat -> regex -> regex          (* capturing group number i *)
| Bol : regex                          (* ^ *)
| Eol : regex                          (* $ without MULTILINE *)
| Wbd : regex.                         (* \b *)

Definition set_cap (i : nat) (p q : pos) : pos :=
  mkPos (prev q) (rest q)
        ((i, firstn (length (rest p) - length (rest q)) (rest p)) :: caps q).

Definition advances (p q : pos) : bool :=
  (length (rest q) <? length (rest p))%nat.

(** The iterations of a star; one that reads nothing is not repeated. *)
Fixpoint star_iter (greedy : bool) (step : pos -> list pos) (n : nat)
    (p : pos) : list pos :=
  match n with
  | O => [p]
  | S n' =>
      let more :=
        flat_map (star_iter greedy step n') (List.filter (advances p) (step p)) in
      if greedy then more ++ [p] else p :: more
  end.

Definition word_before (p : pos) : bool :=
  match prev p with Some c => is_word c | None => false end.
Definition word_after (p : pos) : bool :=
  match rest p with c :: _ => is_word c | [] => false end.

(** Every way [r] matches at [p], in the order a backtracking matcher
    tries them.  [Bol] is ^ under MULTILINE or not: both hold at the
    start, and MULTILINE adds the positions after a line feed. *)
Fixpoint rmatch (multiline : bool) (r : regex) (p : pos) : list pos :=
  match r with
  | Eps => [p]
  | Chr f =>
      match rest p with
      | c :: s => if f c then [mkPos (Some c) s (caps p)] else []
      | [] => []
      end
  | Cat a b => flat_map (rmatch multiline b) (rmatch multiline a p)
  | Alt a b => rmatch multiline a p ++ rmatch multiline b p
  | Star greedy a => star_iter greedy (rmatch multiline a) (length (rest p)) p
  | Opt a => rmatch multiline a p ++ [p]
  | Grp i a => List.map (set_cap i p) (rmatch multiline a p)
  | Bol =>
      match prev p with
      | None => [p]
      | Some c => if multiline && (c =? 10)%N then [p] else []
      end
  | Eol =>
      match rest p with
      | [] => [p]
      | [c] => if (c =? 10)%N then [p] else []
      | _ => []
      end
  | Wbd => if xorb (word_before p) (word_after p) then [p] else []
  end.

Definition start (s : str) : pos := mkPos None s [].

(** [pattern.match(s)]: the first match at the beginning of [s]. *)
Definition re_match (multiline : bool) (r : regex) (s : str) : option pos :=
  head (rmatch multiline r (start s)).

(** [pattern.search(s)]: the first match at the leftmost position. *)
Fixpoint search_from (r : regex) (pv : option char) (s : str) : option pos :=
  match rmatch false r (mkPos pv s []) with
  | q :: _ => Some q
  | [] => match s with
          | [] => None
          | c :: s' => search_from r (Some c) s'
          end
  end.
Definition re_search (r : regex) (s : str) : option pos := search_from r None s.

(** [m.group(i)], [None] when the group took no part in the match. *)
Fixpoint group (i : nat) (cs : list (nat * str)) : option str :=
  match cs with
  | [] => None
  | (j, s) :: cs' => if (i =? j)%nat then Some s else group i cs'
  end.

(** [pattern.sub('', s)] for a pattern that opens with ^ (no MULTILINE)
    and matches no empty string: only a match at the beginning is
    removed. *)
Definition sub_prefix (r : regex) (s : str) : str :=
  match re_match false r s with
  | Some q => rest q
  | None => s
  end.

Definition is_match (o : option pos) : bool :=
  match o with Some _ => true | None => false end.

(** Pattern syntax. *)
Definition ch (c : N) : regex := Chr (N.eqb c).
Definition ch_i (c : N) : regex := Chr (fun d => (lower_char d =? lower_char c)%N).
Definition seq_of (l : list regex) : regex := fold_right Cat Eps l.
Definition lit (s : String.string) : regex := seq_of (List.map ch (u s)).
Definition lit_i (s : String.string) : regex := seq_of (List.map ch_i (u s)).
(** A class under IGNORECASE. *)
Definition cls_i (f : char -> bool) : regex :=
  Chr (fun d => f d || f (lower_char d)).
Definition one_of (s : String.string) (c : char) : bool :=
  existsb (N.eqb c) (u s).
Definition dot : regex := Chr (fun c => negb (c =? 10)%N).
Definition space : regex := Chr isspace.
Definition digit : regex := Chr is_digit.
Definition plus (a : regex) : regex := Cat a (Star true a).

Fixpoint rep_opt (k : nat) (a : regex) : regex :=
  match k with
  | O => Eps
  | S k' => Opt (Cat a (rep_opt k' a))
  end.
(** a{m,m+k} *)
Fixpoint rep (m k : nat) (a : regex) : regex :=
  match m with
  | O => rep_opt k a
  | S m' => Cat a (rep m' k a)
  end.

End Re.

Import Re.
Declare Scope re_scope.
Delimit Scope re_scope with re.
Notation "a >> b" := (Cat a b) (at level 60, right associativity) : re_scope.
Notation "a </> b" := (Alt a b) (at level 65, right associativity) : re_scope.

(** ** Data model *)

Definition datetime := Z.

(** A message dictionary. *)
Record message := mkMessage {
  id : Z;
  timestamp_str : option str;
  timestamp : option datetime;      (* the ISO form of the parsed time, or None *)
  user : str;
  original_text : str;
  cleaned_text : str;
  is_potential_stem : bool
}.

Definition LF : str := [10%N].

(** ** component_1_preprocessing.py *)

Definition timestamp_pattern : regex :=
  (rep 1 1 digit >> lit "/" >> rep 1 1 digit >> lit "/" >> rep 2 2 digit
   >> Opt (lit ",") >> lit " " >> rep 1 1 digit >> lit ":" >> rep 2 0 digit
   >> Opt (lit ":" >> rep 2 0 digit)
   >> Opt (lit " " >> Chr (one_of "AP") >> lit "M"))%re.

Definition line_regex : regex :=
  (Bol
   >> Opt (Opt (lit "[") >> Grp 1 timestamp_pattern >> Opt (lit "]") >> lit " - ")
   >> Opt (Grp 2 (Star false (ch 8206 </> ch 8207) >> Star false dot >> lit ": "))
   >> Grp 3 (plus dot))%re.

Definition LRM : regex := ch 8206.

Definition system_msg_patterns : list regex :=
  [ (lit_i "left" >> Eol)%re; (lit_i "added" >> Eol)%re;
    lit_i "created group"; lit_i "changed the subject";
    lit_i "changed this group's icon";
    (LRM >> lit_i "image omitted")%re; (LRM >> lit_i "video omitted")%re;
    (LRM >> lit_i "sticker omitted")%re; (LRM >> lit_i "document omitted")%re;
    (LRM >> lit_i "audio omitted")%re ].

Definition is_system_message (line : str) : bool :=
  existsb (fun p => is_match (re_search p line)) system_msg_patterns.

Definition formats_to_try : list str :=
  [ u "%d/%m/%y, %H:%M"; u "%d/%m/%Y, %H:%M"; u "%m/%d/%y, %I:%M %p";
    u "%d/%m/%Y, %H:%M:%S"; u "%m/%d/%Y, %H:%M:%S" ].

Definition Unknown : str := u "Unknown".

(** The reader's loop variables. *)
Record reader_state := mkReader {
  messages : list message;
  current_message : option message;
  message_id_counter : Z
}.

Definition append_text (m : message) (text : str) : message :=
  mkMessage (id m) (timestamp_str m) (timestamp m) (user m)
            (original_text m ++ LF ++ text)
            (cleaned_text m ++ LF ++ lower text)
            (is_potential_stem m).

Section Reader.

(** [datetime.strptime(text, format)], [None] for ValueError. *)
Variable strptime : str -> str -> option datetime.

Fixpoint parse_timestamp (ts : str) (formats : list str) : option datetime :=
  match formats with
  | [] => None
  | fmt :: formats' =>
      let ts_str_cleaned := remove_char 93 (remove_char 91 ts) in
      match strptime (strip ts_str_cleaned) fmt with
      | Some parsed => Some parsed
      | None => parse_timestamp ts formats'
      end
  end.

Definition clean_user (user_part : option str) : str :=
  let user :=
    match user_part with
    | Some (c :: up) => strip (remove_char 58 (c :: up))
    | _ => Unknown
    end in
  List.filter (fun c => negb ((c =? 8206) || (c =? 8207))%N) user.

(** One turn of the loop over [transcript_text.splitlines()]. *)
Definition reader_step (st : reader_state) (line0 : str) : reader_state :=
  let line := strip line0 in
  if negb (truthy line) then st
  else
    match re_match true line_regex line with
    | Some m =>
        let text := default [] (group 3 (caps m)) in
        match group 1 (caps m) with
        | Some (c :: ts) =>
            let timestamp_str := c :: ts in
            let messages' :=
              match current_message st with
              | Some cur => messages st ++ [cur]
              | None => messages st
              end in
            let counter := message_id_counter st + 1 in
            let new :=
              mkMessage counter (Some timestamp_str)
                        (parse_timestamp timestamp_str formats_to_try)
                        (clean_user (group 2 (caps m)))
                        (strip text) (lower (strip text)) false in
            mkReader messages' (Some new) counter
        | _ =>
            if truthy text then
              match current_message st with
              | Some cur =>
                  mkReader (messages st) (Some (append_text cur text))
                           (message_id_counter st)
              | None =>
                  let counter := message_id_counter st + 1 in
                  let new :=
                    mkMessage counter None None Unknown
                              (strip text) (lower (strip text)) false in
                  mkReader (messages st) (Some new) counter
              end
            else st
        end
    | None =>
        match current_message st with
        | Some cur =>
            if negb (is_system_message line) then
              mkReader (messages st) (Some (append_text cur line))
                       (message_id_counter st)
            else st
        | None => st
        end
    end.

Definition preprocess_transcript (transcript_text : str) : list message :=
  if negb (truthy transcript_text) then []
  else
    let st := fold_left reader_step (splitlines transcript_text)
                        (mkReader [] None 0) in
    match current_message st with
    | Some cur => messages st ++ [cur]
    | None => messages st
    end.

End Reader.

(** ** component_2_stem_identification.py *)

Definition stem_keywords : list str :=
  List.map u
    [ "who"; "what"; "when"; "where"; "why"; "how";
      "which of the following"; "choose the"; "select the";
      "next best step"; "next best line"; "approach"; "management";
      "treatment"; "indication"; "contraindication"; "c/i";
      "risk factor"; "cause"; "causes"; "except"; "not a"; "incorrect";
      "correct statement";
      "definition"; "diagnosis"; "diagnose"; "differentiate";
      "complication"; "complicating"; "predictor"; "based on";
      "investigation of choice"; "most likely"; "picture"; "sign";
      "technique"; "trial"; "referencing"; "parameter"; "value";
      "count"; "grading"; "placement"; "entry"; "criteria" ]%string.

(** ^\s*q\)\s* under IGNORECASE *)
Definition q_marker_regex : regex :=
  (Bol >> Star true space >> lit_i "q" >> lit ")" >> Star true space)%re.

Definition COLON : str := u ":".

(** The value [is_potential_stem] receives for a message whose
    [cleaned_text] is [text]. *)
Definition classify_text (text : str) : bool :=
  if negb (truthy text) then false
  else if is_match (re_match false q_marker_regex text) then true
  else if endswith text (u "?") then true
  else
    let found_keyword := existsb (fun keyword => contains keyword text) stem_keywords in
    let word_count := len (split_ws text) in
    if found_keyword && (3 <? word_count) then true
    else if found_keyword && (word_count <=? 3)
            && (endswith text COLON || contains COLON text) then true
    else if contains COLON text
            && (len (strip (last_or (split_on 58 text) [])) <? 15) then true
    else false.

Definition set_stem (m : message) (b : bool) : message :=
  mkMessage (id m) (timestamp_str m) (timestamp m) (user m)
            (original_text m) (cleaned_text m) b.

Definition identify_potential_stems (msgs : list message) : list message :=
  List.map (fun m => set_stem m (classify_text (cleaned_text m))) msgs.

(** ** component_4_refined_grouping.py *)

Definition MESSAGE_SEARCH_WINDOW : Z := 15.
Definition TIME_SEARCH_WINDOW_MINUTES : Z := 20.
Definition SIMILARITY_THRESHOLD : Z := 65.
Definition MAX_LINES_FOR_HEURISTIC_OPTION_BLOCK : Z := 6.
Definition MAX_LENGTH_FOR_HEURISTIC_OPTION_BLOCK : Z := 200.

Definition letter_a_d (c : char) : bool := in_range 97 100 c.
Definition digit_1_4 (c : char) : bool := in_range 49 52 c.
(** [-•*] *)
Definition bullet (c : char) : bool := one_of "-*" c || (c =? 8226)%N.
(** [\.\):] *)
Definition closer (c : char) : bool := one_of ".):" c.

Definition option_marker_regex : regex :=
  (Bol >> Star true space
   >> Grp 1 (cls_i letter_a_d >> Chr closer </> Chr digit_1_4 >> Chr closer
             </> Chr bullet)
   >> plus space)%re.

Definition only_marker_regex : regex :=
  (Bol >> Star true space
   >> Grp 1 (cls_i letter_a_d >> Opt (Chr closer)
             </> Chr digit_1_4 >> Opt (Chr closer)
             </> Chr bullet)
   >> Star true space >> Eol)%re.

Definition explicit_option_keywords : regex :=
  (Bol >> Star true space
   >> Grp 1 (lit_i "options were" </> lit_i "option" >> Opt (lit_i "s")
             </> lit_i "optn" >> Opt (lit_i "s"))
   >> Wbd >> Star true dot >> Opt (Chr (one_of ":-")) >> Star true space)%re.

Definition is_option_marker (line : str) : bool :=
  is_match (re_match false option_marker_regex line).
Definition is_only_marker (line : str) : bool :=
  is_match (re_match false only_marker_regex line).
Definition is_option_keyword (line : str) : bool :=
  is_match (re_match false explicit_option_keywords line).

(** The loop variables of [extract_options_from_text]. *)
Record extract_state := mkExtract {
  options : list str;
  in_option_section : bool
}.

Definition extract_step (st : extract_state) (line : str) : extract_state :=
  let line_stripped := strip line in
  if negb (truthy line_stripped) || is_only_marker line_stripped then st
  else if is_option_keyword line_stripped then
    let option_text_on_keyword_line :=
      strip (sub_prefix explicit_option_keywords line_stripped) in
    mkExtract (if truthy option_text_on_keyword_line
               then options st ++ [option_text_on_keyword_line]
               else options st) true
  else if in_option_section st || is_option_marker line_stripped then
    mkExtract (options st ++ [line_stripped]) (in_option_section st)
  else if truthy (options st)
          && (is_option_marker (last_or (options st) [])
              || (len (last_or (options st) []) <? 80))
          && (len line_stripped <? 80) then
    mkExtract (options st ++ [line_stripped]) (in_option_section st)
  else if in_option_section st && (100 <? len line_stripped)
          && negb (is_option_marker line_stripped) then
    mkExtract (options st) false
  else st.

(** [short_line_count >= len(non_empty_lines) * 0.6] is compared in
    integers: with at most six lines the two agree. *)
Definition extract_options_from_text (text : str) : list str :=
  let lines := splitlines text in
  let found := options (fold_left extract_step lines (mkExtract [] false)) in
  if negb (truthy found)
     && (len lines <=? MAX_LINES_FOR_HEURISTIC_OPTION_BLOCK)
     && (len text <? MAX_LENGTH_FOR_HEURISTIC_OPTION_BLOCK) then
    let non_empty_lines :=
      List.map strip (List.filter (fun ln => truthy (strip ln)) lines) in
    let short_line_count :=
      len (List.filter (fun ln => len ln <? 80) non_empty_lines) in
    if (0 <? len non_empty_lines)
       && (3 * len non_empty_lines <=? 5 * short_line_count)
    then found ++ non_empty_lines else found
  else found.

(** How an option block reached its stem. *)
Inductive method := internal | adjacent | similarity (score : Z).

Record option_block := mkBlock {
  source_message_id : Z;
  option_texts : list str;
  block_method : method
}.

(** A value of [potential_questions]. *)
Module Question.
Record t := mk {
  stem_message : message;
  stem_text_only : str;
  options : list option_block
}.
End Question.

(** An element of the result. *)
Module Collated.
Record t := mk {
  stem_id : Z;
  stem_text : str;
  options : list str
}.
End Collated.

(** [potential_questions]: a dictionary in insertion order. *)
Definition questions := list (Z * Question.t).

Fixpoint dict_get {V} (k : Z) (d : list (Z * V)) : option V :=
  match d with
  | [] => None
  | (k', v) :: d' => if k =? k' then Some v else dict_get k d'
  end.

(** [d[k] = v]: an existing key keeps its place. *)
Fixpoint dict_set {V} (k : Z) (v : V) (d : list (Z * V)) : list (Z * V) :=
  match d with
  | [] => [(k, v)]
  | (k', v') :: d' => if k =? k' then (k, v) :: d' else (k', v') :: dict_set k v d'
  end.

Definition dict_has {V} (k : Z) (d : list (Z * V)) : bool :=
  match dict_get k d with Some _ => true | None => false end.

Definition keys {V} (d : list (Z * V)) : list Z := List.map fst d.

Definition add_block (b : option_block) (q : Question.t) : Question.t :=
  Question.mk (Question.stem_message q) (Question.stem_text_only q)
              (Question.options q ++ [b]).

(** [d[k]["options"].append(b)] *)
Fixpoint append_block (k : Z) (b : option_block) (d : questions) : questions :=
  match d with
  | [] => []
  | (k', q) :: d' =>
      if k =? k' then (k', add_block b q) :: d'
      else (k', q) :: append_block k b d'
  end.

(** *** Pass 1 *)

Inductive section := in_stem | in_option.

Record split_state := mkSplit {
  current_section : section;
  stem_lines : list str;
  internal_options : list str
}.

Definition is_in_stem (s : section) : bool :=
  match s with in_stem => true | in_option => false end.

Definition split_step (st : split_state) (line : str) : split_state :=
  let line_stripped := strip line in
  if negb (truthy line_stripped) || is_only_marker line_stripped then st
  else
    let marker := is_option_marker line_stripped in
    if marker then
      mkSplit in_option (stem_lines st) (internal_options st ++ [line_stripped])
    else if is_in_stem (current_section st) && (0 <? len (stem_lines st))
            && (len line_stripped <? 80) && negb marker then
      if 50 <? len (last_or (stem_lines st) []) then
        mkSplit in_option (stem_lines st) (internal_options st ++ [line_stripped])
      else
        mkSplit (current_section st) (stem_lines st ++ [line_stripped])
                (internal_options st)
    else if negb (is_in_stem (current_section st)) then
      mkSplit (current_section st) (stem_lines st)
              (internal_options st ++ [line_stripped])
    else
      mkSplit (current_section st) (stem_lines st ++ [line_stripped])
              (internal_options st).

Definition split_stem (text : str) : split_state :=
  fold_left split_step (splitlines text) (mkSplit in_stem [] []).

Definition stem_text_of (text : str) : str :=
  let stem_text_only := strip (join LF (stem_lines (split_stem text))) in
  if truthy stem_text_only then stem_text_only else strip text.

(** The two dictionaries the passes share. *)
Record grouping := mkGrouping {
  potential_questions : questions;
  associated_option_message_ids : gset Z
}.

Definition pass1_step (g : grouping) (msg : message) : grouping :=
  if is_potential_stem msg then
    let stem_id := id msg in
    let text := original_text msg in
    let internal_opts := internal_options (split_stem text) in
    let pq := dict_set stem_id (Question.mk msg (stem_text_of text) [])
                       (potential_questions g) in
    if truthy internal_opts then
      mkGrouping (append_block stem_id (mkBlock stem_id internal_opts internal) pq)
                 ({[stem_id]} ∪ associated_option_message_ids g)
    else mkGrouping pq (associated_option_message_ids g)
  else g.

Definition pass1 (msgs : list message) : grouping :=
  fold_left pass1_step msgs (mkGrouping [] ∅).

(** *** Pass 2 *)

Definition min_message_id (msg_id : Z) : Z :=
  Z.max 0 (msg_id - MESSAGE_SEARCH_WINDOW - 1).

(** [current_dt - timedelta(minutes=TIME_SEARCH_WINDOW_MINUTES)] when the
    message has a timestamp. *)
Definition min_timestamp (msg : message) : option datetime :=
  match timestamp msg with
  | Some current_dt => Some (current_dt - TIME_SEARCH_WINDOW_MINUTES * 60)
  | None => None
  end.

(** The stems within the window before the current message. *)
Definition window_candidates (pq : questions) (msg_id : Z) : list Z :=
  List.filter (fun stem_id => (stem_id <? msg_id) && (min_message_id msg_id <=? stem_id))
              (keys pq).

Definition stem_in_time (pq : questions) (min_ts : datetime) (stem_id : Z) : bool :=
  match dict_get stem_id pq with
  | Some q =>
      match timestamp (Question.stem_message q) with
      | Some dt => min_ts <=? dt
      | None => false
      end
  | None => false
  end.

Definition candidate_stem_ids (pq : questions) (msg : message) : list Z :=
  let in_window := window_candidates pq (id msg) in
  match min_timestamp msg with
  | Some min_ts => List.filter (stem_in_time pq min_ts) in_window
  | None => in_window
  end.

Definition SPACE : str := u " ".

Definition options_preview (options_in_msg : list str) : str :=
  take_first 200 (join SPACE (take_first 3 options_in_msg)).

Section Grouping.

(** [fuzz.token_set_ratio] *)
Variable token_set_ratio : str -> str -> Z.

Definition stem_score (pq : questions) (preview : str) (stem_id : Z) : Z :=
  match dict_get stem_id pq with
  | Some q => token_set_ratio preview (Question.stem_text_only q)
  | None => 0
  end.

(** [(best_match_stem_id, highest_score)] after one candidate. *)
Definition best_step (pq : questions) (preview : str)
    (acc : option Z * Z) (stem_id : Z) : option Z * Z :=
  let final_score := stem_score pq preview stem_id in
  if snd acc <? final_score then (Some stem_id, final_score) else acc.

Definition best_match (pq : questions) (preview : str) (cands : list Z)
    : option Z * Z :=
  fold_left (best_step pq preview) cands (None, 0).

(** [best_match_stem_id and highest_score >= SIMILARITY_THRESHOLD]: the
    stem the block goes to, if any.  A stem id of 0 is false in Python. *)
Definition accepted (best : option Z * Z) : option Z :=
  match fst best with
  | Some stem_id =>
      if negb (stem_id =? 0) && (SIMILARITY_THRESHOLD <=? snd best)
      then Some stem_id else None
  | None => None
  end.

(** The similarity search for the options of [msg]. *)
Definition similarity_target (pq : questions) (msg : message)
    (options_in_msg : list str) : option (Z * Z) :=
  let cands := candidate_stem_ids pq msg in
  if truthy cands then
    let best := best_match pq (options_preview options_in_msg) cands in
    match accepted best with
    | Some stem_id => Some (stem_id, snd best)
    | None => None
    end
  else None.

Definition attach (g : grouping) (stem_id : Z) (b : option_block) : grouping :=
  mkGrouping (append_block stem_id b (potential_questions g))
             ({[source_message_id b]} ∪ associated_option_message_ids g).

(** Step 2 of the association: the block of [msg] goes to the stem the
    similarity search accepts, or is dropped. *)
Definition associate_by_similarity (g : grouping) (msg : message)
    (options_in_msg : list str) : grouping :=
  match similarity_target (potential_questions g) msg options_in_msg with
  | Some (best_match_stem_id, highest_score) =>
      attach g best_match_stem_id
             (mkBlock (id msg) options_in_msg (similarity highest_score))
  | None => g
  end.

(** [messages[i-1]['id']] when it is a key of [potential_questions]. *)
Definition adjacent_stem (msgs : list message) (g : grouping) (i : nat)
    : option Z :=
  match i with
  | O => None
  | S i' =>
      match nth_error msgs i' with
      | Some prev_msg =>
          if dict_has (id prev_msg) (potential_questions g)
          then Some (id prev_msg) else None
      | None => None
      end
  end.

(** One turn of the second loop, [i] being the index of [msg] in [msgs]. *)
Definition pass2_step (msgs : list message) (g : grouping)
    (im : nat * message) : grouping :=
  let (i, msg) := im in
  let msg_id := id msg in
  if is_potential_stem msg
     || bool_decide (msg_id ∈ associated_option_message_ids g) then g
  else
    let options_in_msg := extract_options_from_text (original_text msg) in
    if truthy options_in_msg then
      match adjacent_stem msgs g i with
      | Some prev_msg_id =>
          attach g prev_msg_id (mkBlock msg_id options_in_msg adjacent)
      | None => associate_by_similarity g msg options_in_msg
      end
    else g.

Definition enumerate {A} (l : list A) : list (nat * A) :=
  combine (List.seq 0 (length l)) l.

Definition pass2 (msgs : list message) (g : grouping) : grouping :=
  fold_left (pass2_step msgs) (enumerate msgs) g.

(** *** Pass 3 *)

Fixpoint insert_sorted (x : Z) (l : list Z) : list Z :=
  match l with
  | [] => [x]
  | y :: l' => if x <=? y then x :: l else y :: insert_sorted x l'
  end.

(** [sorted] on integers. *)
Definition sorted (l : list Z) : list Z := fold_right insert_sorted [] l.

Definition all_option_texts (q : Question.t) : list str :=
  flat_map option_texts (Question.options q).

(** Markers removed, white space stripped, empty results left out. *)
Definition cleaned_options (texts : list str) : list str :=
  List.filter truthy
              (List.map (fun opt => strip (sub_prefix option_marker_regex opt)) texts).

Definition dedup_step (acc : list str * gset str) (opt : str) : list str * gset str :=
  let opt_lower := lower opt in
  if bool_decide (opt_lower ∈ snd acc) then acc
  else (fst acc ++ [opt], {[opt_lower]} ∪ snd acc).

Definition unique_options (cleaned : list str) : list str :=
  fst (fold_left dedup_step cleaned ([], ∅)).

Definition final_options (q : Question.t) : list str :=
  unique_options (cleaned_options (all_option_texts q)).

Record output := mkOutput {
  final_collated_questions : list Collated.t;
  processed_stem_ids : gset Z
}.

Definition pass3_step (pq : questions) (out : output) (stem_id : Z) : output :=
  if bool_decide (stem_id ∈ processed_stem_ids out) then out
  else
    match dict_get stem_id pq with
    | Some q_data =>
        let stem_text := Question.stem_text_only q_data in
        let uniq := final_options q_data in
        if truthy stem_text && truthy uniq then
          mkOutput (final_collated_questions out
                      ++ [Collated.mk stem_id stem_text uniq])
                   ({[stem_id]} ∪ processed_stem_ids out)
        else out
    | None => out
    end.

Definition pass3 (pq : questions) : list Collated.t :=
  final_collated_questions
    (fold_left (pass3_step pq) (sorted (keys pq)) (mkOutput [] ∅)).

(** The three passes up to the dictionary they build. *)
Definition associate (msgs : list message) : grouping :=
  pass2 msgs (pass1 msgs).

Definition refine_grouping_with_similarity (msgs : list message)
    : list Collated.t :=
  if negb (truthy msgs) then []
  else pass3 (potential_questions (associate msgs)).

End Grouping.

(** ** processing.py: the combine step of collate_questions_from_transcript *)

(** An element of [all_collated_questions]. *)
Module Chunked.
Record t := mk {
  stem_text : str;
  options : list str;
  source_chunk : Z
}.
End Chunked.

(** An element of [final_questions]. *)
Module Final.
Record t := mk {
  stem_text : str;
  options : list str
}.
End Final.

Definition norm_stem (stem_text : str) : str := strip (lower stem_text).

Definition combine_step (acc : list Final.t * gset str) (q : Chunked.t)
    : list Final.t * gset str :=
  let ns := norm_stem (Chunked.stem_text q) in
  if bool_decide (ns ∈ snd acc) then acc
  else (fst acc ++ [Final.mk (Chunked.stem_text q) (Chunked.options q)],
        {[ns]} ∪ snd acc).

Definition combine_questions (all_collated_questions : list Chunked.t)
    : list Final.t :=
  fst (fold_left combine_step all_collated_questions ([], ∅)).

(** ** The pipeline: reader, classifier, refined grouping *)

Definition pipeline (strptime : str -> str -> option datetime)
    (token_set_ratio : str -> str -> Z) (transcript_text : str)
    : list Collated.t :=
  refine_grouping_with_similarity token_set_ratio
    (identify_potential_stems (preprocess_transcript strptime transcript_text)).


(** ** Runs used below *)

(** Scenario A of the specification. *)
Definition scenario_a : str :=
  u "01/01/24, 10:00 - Alice: What is the capital of France?" ++ LF
  ++ u "01/01/24, 10:01 - Bob: A. Paris" ++ LF
  ++ u "B. Lyon".

Definition capital_of_france : str := u "What is the capital of France?".

(** A message as the reader and the classifier leave it. *)
Definition a_message (i : Z) (ts : option datetime) (text : str) (stem : bool)
    : message :=
  mkMessage i None ts Unknown text (lower text) stem.

(** Stand-ins for [fuzz.token_set_ratio]: a constant score, and a score
    given to one preview only. *)
Definition ratio_const (k : Z) : str -> str -> Z := fun _ _ => k.
Definition ratio_for (preview : str) (k : Z) : str -> str -> Z :=
  fun a _ => if str_eqb a preview then k else 0.
(** A [strptime] that accepts no text. *)
Definition strptime_none : str -> str -> option datetime := fun _ _ => None.

(** A stem, fifteen short replies, and an option message sixteen
    positions after the stem; one minute apart. *)
Definition far_option_msg : message :=
  a_message 17 (Some 960) (u "A. Paris") false.
Definition far_stem_run : list message :=
  a_message 1 (Some 0) capital_of_france true
  :: List.map (fun k => a_message (Z.of_nat k) (Some (60 * (Z.of_nat k - 1))) (u "ok") false)
              (List.seq 2 15)
  ++ [far_option_msg].

(** The transcript of a stem followed by a line a member-left notice. *)
Definition notice_after_stem (notice : str) : str :=
  u "01/01/24, 10:00 - Alice: What is X?" ++ LF ++ notice.

(** An option section opened by a keyword, then a line of 101
    characters without a marker, then a short line. *)
Definition long_line : str := repeat 120%N 101.
Definition keyword_then_long_line : str :=
  u "options:" ++ LF ++ long_line ++ LF ++ u "Paris".

(** The blocks attached to each stem, by stem id. *)
Definition blocks_by_stem (g : grouping) : list (Z * list option_block) :=
  List.map (fun kq => (fst kq, Question.options (snd kq))) (potential_questions g).

(** Scenario B with a timestamp on the option message: a stem without
    timestamp at id 5, a long message that holds no options at id 11, and
    an option message at id 12. *)
Definition untimed_stem : message := a_message 5 None capital_of_france true.
Definition long_reply : message := a_message 11 (Some 0) (repeat 120%N 200) false.
Definition timed_option_msg : message := a_message 12 (Some 60) (u "A. Paris") false.
Definition untimed_option_msg : message := a_message 12 None (u "A. Paris") false.
Definition scenario_b_timed : list message :=
  [untimed_stem; long_reply; timed_option_msg].
Definition scenario_b_untimed : list message :=
  [untimed_stem; long_reply; untimed_option_msg].

(** Two timed stems before an option message that has no stem before it. *)
Definition two_stems_run : list message :=
  [ a_message 1 (Some 0) (u "What is X?") true;
    a_message 2 (Some 60) (u "Which is Y?") true;
    a_message 3 (Some 120) (repeat 120%N 200) false;
    a_message 4 (Some 180) (u "A. Paris") false ].

(** The same stem asked twice, each time answered by the next message. *)
Definition repeated_stem_transcript : str :=
  u "01/01/24, 10:00 - Alice: What is X?" ++ LF
  ++ u "01/01/24, 10:01 - Bob: A. One" ++ LF
  ++ u "01/01/24, 10:02 - Carol: What is X?" ++ LF
  ++ u "01/01/24, 10:03 - Dan: A. Two".

(** A stem message made of option lines only. *)
Definition options_only_stem : message :=
  a_message 1 None (u "A. Paris" ++ LF ++ u "B. Lyon") true.

(** ** Definitions used in the statements and proofs *)

Section KeepFirstDefs.

Context {A : Type} (key : A -> str).

(** The step of a loop that keeps [emit x] for the first [x] of each key. *)
Definition keep_step {B} (emit : A -> B) (acc : list B * gset str) (x : A)
    : list B * gset str :=
  if bool_decide (key x ∈ snd acc) then acc
  else (fst acc ++ [emit x], {[key x]} ∪ snd acc).

(** The elements whose key is new when they are met. *)
Fixpoint firsts (seen : gset str) (l : list A) : list A :=
  match l with
  | [] => []
  | x :: l' =>
      if bool_decide (key x ∈ seen) then firsts seen l'
      else x :: firsts ({[key x]} ∪ seen) l'
  end.

End KeepFirstDefs.

(** What Pass 3 appends for one stem id. *)
Definition emitted (pq : questions) (stem_id : Z) : option Collated.t :=
  match dict_get stem_id pq with
  | Some q_data =>
      if truthy (Question.stem_text_only q_data) && truthy (final_options q_data)
      then Some (Collated.mk stem_id (Question.stem_text_only q_data)
                             (final_options q_data))
      else None
  | None => None
  end.

Definition output_ids (out : output) : list Z :=
  List.map Collated.stem_id (final_collated_questions out).

Definition chunked_key (q : Chunked.t) : str := norm_stem (Chunked.stem_text q).
Definition final_key (f : Final.t) : str := norm_stem (Final.stem_text f).
Definition to_final (q : Chunked.t) : Final.t :=
  Final.mk (Chunked.stem_text q) (Chunked.options q).

(** Every option block of the dictionary, stem after stem. *)
Definition all_blocks (pq : questions) : list option_block :=
  flat_map (fun kq => Question.options (snd kq)) pq.

Definition sources (pq : questions) : list Z :=
  List.map source_message_id (all_blocks pq).

(** After Pass 1 a stem holds no block or its own internal block. *)
Definition entry_ok (kq : Z * Question.t) : Prop :=
  Question.options (snd kq) = []
  \/ exists texts, Question.options (snd kq) = [mkBlock (fst kq) texts internal].

(** What Pass 1 maintains. *)
Definition pass1_inv (g : grouping) : Prop :=
  NoDup (keys (potential_questions g))
  /\ Forall entry_ok (potential_questions g)
  /\ forall s, s ∈ sources (potential_questions g) ->
               s ∈ associated_option_message_ids g.

(** What both passes maintain: the sources of the blocks are pairwise
    distinct and all belong to the associated set. *)
Definition sources_inv (g : grouping) : Prop :=
  NoDup (sources (potential_questions g))
  /\ forall s, s ∈ sources (potential_questions g) ->
               s ∈ associated_option_message_ids g.

(** [o] occurs in [t] as a run of consecutive characters. *)
Definition occurs_in (o t : str) : Prop := exists a b, t = a ++ o ++ b.

Definition all_space (s : str) : Prop := forall c, c ∈ s -> isspace c = true.

(** What the reader's loop maintains: ids start at 1. *)
Definition reader_inv (st : reader_state) : Prop :=
  0 <= message_id_counter st
  /\ (forall m, m ∈ messages st -> 0 < id m)
  /\ (forall cur, current_message st = Some cur -> 0 < id cur).

(** A text without line feed. *)
Definition no_line_feed (s : str) : Prop := forall c, c ∈ s -> c <> 10%N.

(** The messages read so far, the one being accumulated last. *)
Definition read_so_far (st : reader_state) : list message :=
  messages st ++ match current_message st with
                 | Some cur => [cur]
                 | None => []
                 end.

(** A text with a character that is not white space. *)
Definition not_blank (s : str) : Prop := exists c, c ∈ s /\ isspace c = false.

(** The three things a line that is not blank does to the reader. *)
Inductive reader_move (strptime : str -> str -> option datetime)
    (line : str) (st : reader_state) : reader_state -> Prop :=
| move_timed (ts user_name text : str) :
    ts <> [] -> not_blank text -> text `suffix_of` line ->
    reader_move strptime line st
      (mkReader (read_so_far st)
                (Some (mkMessage (message_id_counter st + 1) (Some ts)
                                 (parse_timestamp strptime ts formats_to_try)
                                 user_name (strip text) (lower (strip text)) false))
                (message_id_counter st + 1))
| move_continue (cur : message) (text : str) :
    current_message st = Some cur ->
    not_blank text -> text `suffix_of` line ->
    reader_move strptime line st
      (mkReader (messages st) (Some (append_text cur text)) (message_id_counter st))
| move_untimed (text : str) :
    current_message st = None ->
    not_blank text -> text `suffix_of` line ->
    reader_move strptime line st
      (mkReader (messages st)
                (Some (mkMessage (message_id_counter st + 1) None None Unknown
                                 (strip text) (lower (strip text)) false))
                (message_id_counter st + 1)).

(** What the reader's counter maintains. *)
Definition numbered (st : reader_state) : Prop :=
  List.map id (read_so_far st)
  = List.map Z.of_nat (seq 1 (Z.to_nat (message_id_counter st)))
  /\ 0 <= message_id_counter st
  /\ (current_message st = None -> message_id_counter st = 0).

(** What a message without timestamp text looks like. *)
Definition untimed_is_first (m : message) : Prop :=
  match timestamp_str m with
  | None => id m = 1 /\ timestamp m = None /\ user m = Unknown
  | Some ts => ts <> []
  end.

(** A line that opens with an option keyword. *)
Definition keyword_line : str := u "Options: Paris, Lyon".

(** A stripped line that the loops over the lines of a message keep. *)
Definition kept_line (l : str) : bool := truthy l && negb (is_only_marker l).

(** The kept lines of a text, in order. *)
Definition kept_lines (text : str) : list str :=
  List.filter kept_line (List.map strip (splitlines text)).

(** What the loop over the lines of a stem message maintains in Pass 1. *)
Definition split_inv (st : split_state) (kept : list str) : Prop :=
  stem_lines st ++ internal_options st = kept
  /\ (current_section st = in_stem -> internal_options st = []).

(** A message flagged as a stem, with a given id. *)
Definition flagged_with (msgs : list message) (k : Z) (m : message) : Prop :=
  m ∈ msgs /\ is_potential_stem m = true /\ id m = k.

(** An entry of the dictionary records a flagged message under its id. *)
Definition entry_from (msgs : list message) (kq : Z * Question.t) : Prop :=
  flagged_with msgs (fst kq) (Question.stem_message (snd kq))
  /\ Question.stem_text_only (snd kq)
     = stem_text_of (original_text (Question.stem_message (snd kq))).

(** What the method of a block tells about the stem [k] it is attached
    to, in a run over [msgs]. *)
Definition block_ok (msgs : list message) (k : Z) (b : option_block) : Prop :=
  option_texts b <> []
  /\ match block_method b with
     | internal => source_message_id b = k
     | adjacent =>
         exists i prev msg,
           nth_error msgs i = Some prev /\ nth_error msgs (S i) = Some msg
           /\ id prev = k /\ id msg = source_message_id b
           /\ is_potential_stem msg = false
     | similarity score =>
         SIMILARITY_THRESHOLD <= score /\ k <> 0
         /\ Z.max 0 (source_message_id b - 16) <= k < source_message_id b
         /\ exists msg, msg ∈ msgs /\ id msg = source_message_id b
                        /\ is_potential_stem msg = false
     end.

(** Every block of an entry of the dictionary is as its method tells. *)
Definition blocks_ok (msgs : list message) (kq : Z * Question.t) : Prop :=
  Forall (block_ok msgs (fst kq)) (Question.options (snd kq)).

(** ** processing.py: create_transcript_chunks *)

Definition TARGET_CHUNK_CHAR_SIZE : Z := 25000.
Definition CHUNK_OVERLAP_LINES : Z := 10.

(** [l[a:b]] for indexes that are not negative. *)
Definition slice {A} (a b : nat) (l : list A) : list A := skipn a (firstn b l).

(** [sum(len(l) + 1 for l in ls)] *)
Definition chars_of (ls : list str) : Z :=
  fold_right (fun l acc => len l + 1 + acc) 0 ls.

(** The loop variables of the chunker. *)
Record chunker := mkChunker {
  chunks : list str;
  current_chunk_lines : list str;
  current_char_count : Z;
  start_index : nat
}.

(** One turn of the loop, [i] being the index of [line] in [lines]. *)
Definition chunk_step (lines : list str) (target_size overlap_lines : Z)
    (st : chunker) (il : nat * str) : chunker :=
  let (i, line) := il in
  let line_len := len line + 1 in
  let is_last := Z.of_nat i =? len lines - 1 in
  if ((target_size <? current_char_count st + line_len)
      && truthy (current_chunk_lines st)) || is_last then
    let closed :=
      if is_last then current_chunk_lines st ++ [line]
      else current_chunk_lines st in
    let chunks' := chunks st ++ [join LF closed] in
    if Z.of_nat i <? len lines - 1 then
      let overlap_start_index :=
        Z.to_nat (Z.max (Z.of_nat (start_index st))
                        (Z.of_nat i - overlap_lines + 1)) in
      let next := slice overlap_start_index (i + 1) lines in
      mkChunker chunks' next (chars_of next) overlap_start_index
    else mkChunker chunks' [] (current_char_count st) (start_index st)
  else
    let grown := current_chunk_lines st ++ [line] in
    mkChunker (chunks st) grown (current_char_count st + line_len)
              (if len grown =? 1 then i else start_index st).

Definition chunk_loop (lines : list str) (target_size overlap_lines : Z) : chunker :=
  fold_left (chunk_step lines target_size overlap_lines) (enumerate lines)
            (mkChunker [] [] 0 0).

Definition create_transcript_chunks (transcript_text : str)
    (target_size overlap_lines : Z) : list str :=
  let lines := splitlines transcript_text in
  if negb (truthy lines) then []
  else
    let st := chunk_loop lines target_size overlap_lines in
    let all_chunks :=
      if truthy (current_chunk_lines st)
      then chunks st ++ [join LF (current_chunk_lines st)]
      else chunks st in
    List.filter (fun chunk => truthy (strip chunk)) all_chunks.

(** A chunk is the join of a run of consecutive lines. *)
Definition is_run (lines : list str) (chunk : str) : Prop :=
  exists a b, (a < b <= length lines)%nat /\ chunk = join LF (slice a b lines).

(** The line of index [j] is in a run that one of the chunks joins. *)
Definition covered (lines : list str) (j : nat) (cs : list str) : Prop :=
  exists a b, (a <= j < b)%nat /\ (b <= length lines)%nat
              /\ join LF (slice a b lines) ∈ cs.

(** What the chunker's loop maintains before the line of index [i]. *)
Definition chunk_inv (lines : list str) (i : nat) (st : chunker) : Prop :=
  (start_index st <= i)%nat
  /\ current_chunk_lines st = slice (start_index st) i lines
  /\ ((0 < i)%nat -> (start_index st < i)%nat)
  /\ Forall (is_run lines) (chunks st)
  /\ forall j, (j < start_index st)%nat -> covered lines j (chunks st).

(** Five lines, the fourth one empty. *)
Definition five_lines : str :=
  u "a" ++ LF ++ u "bb" ++ LF ++ u "ccc" ++ LF ++ LF ++ u "dd".

(** The texts of a block are stripped lines of the message it names. *)
Definition block_from (msgs : list message) (b : option_block) : Prop :=
  exists msg, msg ∈ msgs /\ id msg = source_message_id b
    /\ Forall (fun o => exists line, line ∈ splitlines (original_text msg)
                                     /\ o = strip line)
              (option_texts b).

(** The same of every block of an entry of the dictionary. *)
Definition blocks_from (msgs : list message) (kq : Z * Question.t) : Prop :=
  Forall (block_from msgs) (Question.options (snd kq)).

(** ** app.py: analyze_transcript and the date filter of upload_transcript

    The lines are those the file yields when it is iterated, each with
    its line terminator; the answers carry the dates that the route
    prints with [strftime]. *)

(** TIMESTAMP_LINE_REGEX, under IGNORECASE: the pattern
    ^\s*(?: \[?(T)]? \s*-\s* ) without its blanks, T being
    \d{1,2}/\d{1,2}/\d{2,4},?\s+\d{1,2}:\d{2}(?::\d{2})?(?:\s*[AP]M)? *)
Definition TIMESTAMP_LINE_REGEX : regex :=
  (Bol >> Star true space >> Opt (lit "[")
   >> Grp 1 (rep 1 1 digit >> lit "/" >> rep 1 1 digit >> lit "/" >> rep 2 2 digit
             >> Opt (lit ",") >> plus space
             >> rep 1 1 digit >> lit ":" >> rep 2 0 digit
             >> Opt (lit ":" >> rep 2 0 digit)
             >> Opt (Star true space
                     >> Chr (fun c => one_of "ap" (lower_char c)) >> lit_i "M"))
   >> Opt (lit "]") >> Star true space >> lit "-" >> Star true space)%re.

Definition DATE_FORMATS_TO_TRY : list str :=
  [ u "%d/%m/%y, %H:%M"; u "%d/%m/%Y, %H:%M";
    u "%m/%d/%y, %I:%M %p"; u "%m/%d/%Y, %I:%M %p";
    u "%d/%m/%y, %H:%M:%S"; u "%d/%m/%Y, %H:%M:%S";
    u "%m/%d/%y, %I:%M:%S %p"; u "%m/%d/Y, %I:%M:%S %p" ].

(** [ts_str] is [None] or a text. *)
Definition parse_timestamp_from_string (strptime : str -> str -> option datetime)
    (ts_str : option str) : option datetime :=
  match ts_str with
  | Some (c :: s) => parse_timestamp strptime (c :: s) DATE_FORMATS_TO_TRY
  | _ => None
  end.

(** The variables of the loop of analyze_transcript. *)
Record analysis := mkAnalysis {
  min_date : option datetime;
  max_date : option datetime;
  line_count : Z;
  timestamp_count : Z;
  first_timestamp_line : Z;
  last_timestamp_line : Z
}.

(** The three answers of analyze_transcript on a file that could be
    read; the dates are the ones the answer prints with [strftime]. *)
Inductive analysis_response : Type :=
| date_range (start_date end_date : datetime) (count : Z)
| single_date (date : option datetime) (count : Z)
| no_valid_timestamps.

Section App.

(** [datetime.strptime(text, format)], [None] for ValueError. *)
Variable strptime : str -> str -> option datetime.

(** One turn of the loop over the lines of the file, each with its line
    terminator. *)
Definition analyze_step (st : analysis) (line : str) : analysis :=
  let line_count' := line_count st + 1 in
  let skipped :=
    mkAnalysis (min_date st) (max_date st) line_count' (timestamp_count st)
               (first_timestamp_line st) (last_timestamp_line st) in
  if negb (truthy (strip line)) then skipped
  else
    match re_match false TIMESTAMP_LINE_REGEX line with
    | Some m =>
        match parse_timestamp_from_string strptime (group 1 (caps m)) with
        | Some parsed_dt =>
            mkAnalysis
              (match min_date st with
               | None => Some parsed_dt
               | Some d => if parsed_dt <? d then Some parsed_dt else Some d
               end)
              (match max_date st with
               | None => Some parsed_dt
               | Some d => if d <? parsed_dt then Some parsed_dt else Some d
               end)
              line_count' (timestamp_count st + 1)
              (if first_timestamp_line st =? -1 then line_count'
               else first_timestamp_line st)
              line_count'
        | None => skipped
        end
    | None => skipped
    end.

Definition analyze_loop (lines : list str) : analysis :=
  fold_left analyze_step lines (mkAnalysis None None 0 0 (-1) (-1)).

Definition analyze_transcript (lines : list str) : analysis_response :=
  let st := analyze_loop lines in
  match min_date st, max_date st with
  | Some lo, Some hi => date_range lo hi (timestamp_count st)
  | lo, hi =>
      if 0 <? timestamp_count st
      then single_date (match lo with Some d => Some d | None => hi end)
                       (timestamp_count st)
      else no_valid_timestamps
  end.

(** upload_transcript: [range] holds [start_dt] and [end_dt] when both
    dates were given and could be parsed. *)
Definition filtering_active (range : option (datetime * datetime)) : bool :=
  match range with
  | Some (start_dt, end_dt) => start_dt <=? end_dt
  | None => false
  end.

Definition include_line (range : option (datetime * datetime)) (line : str) : bool :=
  match range with
  | Some (start_dt, end_dt) =>
      if negb (filtering_active range) then true
      else
        match re_match false TIMESTAMP_LINE_REGEX line with
        | Some m =>
            match parse_timestamp_from_string strptime (group 1 (caps m)) with
            | Some parsed_dt => (start_dt <=? parsed_dt) && (parsed_dt <=? end_dt)
            | None => false
            end
        | None => true
        end
  | None => true
  end.

Definition filter_step (range : option (datetime * datetime))
    (filtered_lines : list str) (line : str) : list str :=
  if include_line range line then filtered_lines ++ [line] else filtered_lines.

Definition filtered_lines (range : option (datetime * datetime)) (lines : list str)
    : list str :=
  fold_left (filter_step range) lines [].

(** The time a line carries, for both routes. *)
Definition line_timestamp (line : str) : option datetime :=
  match re_match false TIMESTAMP_LINE_REGEX line with
  | Some m => parse_timestamp_from_string strptime (group 1 (caps m))
  | None => None
  end.

(** A line that opens with a timestamp that cannot be parsed. *)
Definition unparsed_timestamp_line (line : str) : bool :=
  is_match (re_match false TIMESTAMP_LINE_REGEX line)
  && negb (bool_decide (is_Some (line_timestamp line))).

(** The times that the lines of a file carry, in order. *)
Definition timestamps_of (lines : list str) : list datetime :=
  omap line_timestamp lines.

(** What the loop of analyze_transcript maintains, [ds] being the times
    carried by the lines read so far. *)
Definition analysis_inv (st : analysis) (ds : list datetime) : Prop :=
  timestamp_count st = len ds
  /\ ((ds = [] /\ min_date st = None /\ max_date st = None)
      \/ exists lo hi,
           min_date st = Some lo /\ max_date st = Some hi
           /\ lo ∈ ds /\ hi ∈ ds /\ Forall (fun d => lo <= d <= hi) ds).

End App.

(** A parser for the runs below: the time of a text is its length. *)
Definition strptime_length (text fmt : str) : option datetime := Some (len text).

Definition three_lines : list str :=
  [ u "01/01/24, 10:00 - Alice: What is the capital of France?" ++ LF;
    u "A. Paris" ++ LF;
    u "02/01/24, 11:00:00 - Bob: B. Lyon" ++ LF ].

(** ** component_3_option_identification_grouping.py

    The function writes the key [stem_text_only] into the stem message it
    was given; here the text goes with the current stem and with the
    group. *)

Module Basic.

Inductive source_kind : Type := internal_to_stem_message | separate_message.

(** An element of [option_messages]; its key [is_option_block] is
    always [True]. *)
Module OptionMessage.
Record t := mk {
  id : Z;
  user : str;
  timestamp : option datetime;
  options_text : list str;
  source : source_kind
}.
End OptionMessage.

(** A question group; [stem_text_only] is the key the function writes
    into the stem message. *)
Module Group.
Record t := mk {
  stem_message : message;
  stem_text_only : str;
  option_messages : list OptionMessage.t
}.
End Group.

(** The loop over the lines of a stem message:
    [(stem_lines, potential_option_lines_in_stem)]. *)
Definition stem_line_step (acc : list str * list str) (line : str)
    : list str * list str :=
  let (stem_lines, option_lines) := acc in
  let line_stripped := strip line in
  if negb (truthy line_stripped) || is_only_marker line_stripped then acc
  else if is_option_marker line_stripped || (len line_stripped <? 60) then
    if negb (is_option_marker line_stripped) && (0 <? len stem_lines) then
      if truthy option_lines && (len (last_or option_lines []) <? 80)
      then (stem_lines, option_lines ++ [line_stripped])
      else if (len stem_lines =? 1) && (len line_stripped <? 80)
      then (stem_lines, option_lines ++ [line_stripped])
      else (stem_lines ++ [line_stripped], option_lines)
    else if is_option_marker line_stripped
    then (stem_lines, option_lines ++ [line_stripped])
    else (stem_lines ++ [line_stripped], option_lines)
  else (stem_lines ++ [line_stripped], option_lines).

Definition split_stem_message (lines : list str) : list str * list str :=
  fold_left stem_line_step lines ([], []).

(** ^\s*(options were|options\s*-) *)
Definition options_were_regex : regex :=
  (Bol >> Star true space
   >> Grp 1 (lit "options were" </> lit "options" >> Star true space >> lit "-"))%re.

Definition is_options_were (s : str) : bool :=
  is_match (re_match false options_were_regex s).

(** The loop after an explicit marker:
    [(start_adding, potential_option_lines_in_message)]. *)
Definition explicit_step (acc : bool * list str) (line : str) : bool * list str :=
  let (start_adding, found) := acc in
  let line_stripped := strip line in
  if is_options_were (lower line_stripped) then (true, found)
  else if start_adding && truthy line_stripped then (start_adding, found ++ [line_stripped])
  else acc.

Definition non_empty_lines (lines : list str) : list str :=
  List.filter truthy (List.map strip lines).

Definition option_like_line_count (lines : list str) : Z :=
  len (List.filter (fun line => is_option_marker line || (len line <? 80)) lines).

(** [potential_option_lines_in_message] when [is_likely_options] holds
    at the end of the heuristics, for a message with non-empty lines. *)
Definition likely_options (msg : message) (lines : list str)
    : option (list str) :=
  if is_options_were (cleaned_text msg)
  then Some (snd (fold_left explicit_step lines (false, [])))
  else
    let non_empty := non_empty_lines lines in
    if (0 <? len non_empty)
       && ((len non_empty <=? 2 * option_like_line_count non_empty)
           || ((len non_empty <=? 5) && (len (cleaned_text msg) <? 150)))
    then Some non_empty
    else None.

(** The loop variables; the current stem goes with the text written
    under its key [stem_text_only]. *)
Record state := mkState {
  potential_questions : list Group.t;
  current_stem_message : option (message * str);
  current_options_list : list OptionMessage.t
}.

(** [potential_questions] after the group of the current stem is
    stored, if it has options. *)
Definition stored (st : state) : list Group.t :=
  match current_stem_message st with
  | Some (stem, text) =>
      if truthy (current_options_list st)
      then potential_questions st ++ [Group.mk stem text (current_options_list st)]
      else potential_questions st
  | None => potential_questions st
  end.

Definition group_step (st : state) (msg : message) : state :=
  let lines := splitlines (original_text msg) in
  if is_potential_stem msg then
    let options0 :=
      match current_stem_message st with
      | Some _ => if truthy (current_options_list st) then [] else current_options_list st
      | None => current_options_list st
      end in
    let (stem_lines, option_lines) := split_stem_message lines in
    mkState (stored st)
            (Some (msg, strip (join LF stem_lines)))
            (if truthy option_lines
             then options0 ++ [OptionMessage.mk (id msg) (user msg)
                                                (timestamp msg) option_lines
                                                internal_to_stem_message]
             else options0)
  else
    match current_stem_message st with
    | Some (stem, text) =>
        if negb (truthy (non_empty_lines lines)) then st
        else
          let closed := mkState (stored st) None [] in
          match likely_options msg lines with
          | Some found =>
              if id msg =? id stem + 1 then
                mkState (potential_questions st) (Some (stem, text))
                        (current_options_list st
                         ++ [OptionMessage.mk (id msg) (user msg)
                                              (timestamp msg) found
                                              separate_message])
              else closed
          | None => closed
          end
    | None => mkState (potential_questions st) None []
    end.

Definition identify_options_and_group (messages : list message) : list Group.t :=
  if negb (truthy messages) then []
  else stored (fold_left group_step messages (mkState [] None [])).

End Basic.

(** What an option block tells about the stem of its group. *)
Definition basic_block_ok (stem : message) (o : Basic.OptionMessage.t) : Prop :=
  match Basic.OptionMessage.source o with
  | Basic.internal_to_stem_message =>
      Basic.OptionMessage.id o = id stem
      /\ Basic.OptionMessage.user o = user stem
      /\ Basic.OptionMessage.timestamp o = timestamp stem
      /\ Basic.OptionMessage.options_text o <> []
  | Basic.separate_message => Basic.OptionMessage.id o = id stem + 1
  end.

(** The stem of a group, its stem text and its blocks. *)
Definition basic_stem_ok (messages : list message) (stem : message) (text : str)
    (blocks : list Basic.OptionMessage.t) : Prop :=
  stem ∈ messages
  /\ is_potential_stem stem = true
  /\ text = strip (join LF (fst (Basic.split_stem_message
                                   (splitlines (original_text stem)))))
  /\ Forall (basic_block_ok stem) blocks.

Definition basic_group_ok (messages : list message) (g : Basic.Group.t) : Prop :=
  basic_stem_ok messages (Basic.Group.stem_message g) (Basic.Group.stem_text_only g)
                (Basic.Group.option_messages g)
  /\ Basic.Group.option_messages g <> [].

(** What the loop of identify_options_and_group maintains. *)
Definition basic_inv (messages : list message) (st : Basic.state) : Prop :=
  Forall (basic_group_ok messages) (Basic.potential_questions st)
  /\ match Basic.current_stem_message st with
     | Some (stem, text) =>
         basic_stem_ok messages stem text (Basic.current_options_list st)
     | None => Basic.current_options_list st = []
     end.

(** The stems met so far that are still in the state. *)
Definition basic_stems (st : Basic.state) : list message :=
  List.map Basic.Group.stem_message (Basic.potential_questions st)
  ++ match Basic.current_stem_message st with
     | Some (stem, _) => [stem]
     | None => []
     end.

(** A piece of a line of [lines] that holds no line boundary. *)
Definition from_lines (lines : list str) (p : str) : Prop :=
  (forall c, c ∈ p -> is_linebreak c = false)
  /\ exists l, l ∈ lines /\ occurs_in p l.

(** The text of a message is made of such pieces, joined by line feeds. *)
Definition made_of (lines : list str) (m : message) : Prop :=
  exists pieces, pieces <> [] /\ original_text m = join LF pieces
                 /\ Forall (from_lines lines) pieces.


(** * Properties *)

(** ** Strings *)

Lemma elem_of_rev' {A} (l : list A) (x : A) : x ∈ rev l <-> x ∈ l.
Proof. rewrite !list_elem_of_In. symmetry. apply in_rev. Qed.

Lemma lstrip_split (s : str) : exists a, s = a ++ lstrip s /\ all_space a.
Proof.
  induction s as [|c s IH]; cbn [lstrip].
  - exists []. split; [reflexivity|]. intros c Hc. inversion Hc.
  - destruct (isspace c) eqn:E.
    + destruct IH as (a & Hs & Ha). exists (c :: a). split.
      * cbn [app]. now rewrite <- Hs.
      * intros d Hd. apply elem_of_cons in Hd. destruct Hd as [->|Hd]; auto.
    + exists []. split; [reflexivity|]. intros d Hd. inversion Hd.
Qed.

Lemma lstrip_head (s : str) (c : char) (r : str) :
  lstrip s = c :: r -> isspace c = false.
Proof.
  induction s as [|d s IH]; cbn [lstrip]; [discriminate|].
  destruct (isspace d) eqn:E; [exact IH|]. now intros [= <- _].
Qed.

Lemma lstrip_snoc (s : str) (c : char) :
  isspace c = false -> lstrip (s ++ [c]) = lstrip s ++ [c].
Proof.
  intros Hc. induction s as [|d s IH]; cbn [app lstrip].
  - now rewrite Hc.
  - now destruct (isspace d).
Qed.

Lemma rstrip_cons (c : char) (s : str) :
  isspace c = false -> rstrip (c :: s) = c :: rstrip s.
Proof.
  intros Hc. unfold rstrip. cbn [rev].
  rewrite lstrip_snoc by exact Hc. now rewrite rev_app_distr.
Qed.

Lemma rstrip_split (s : str) : exists b, s = rstrip s ++ b /\ all_space b.
Proof.
  unfold rstrip. destruct (lstrip_split (rev s)) as (a & Hs & Ha).
  exists (rev a). split.
  - rewrite <- rev_app_distr, <- Hs. now rewrite rev_involutive.
  - intros c Hc. apply Ha. exact (proj1 (elem_of_rev' a c) Hc).
Qed.

Lemma rstrip_last (s r : str) (c : char) :
  rstrip s = r ++ [c] -> isspace c = false.
Proof.
  unfold rstrip. intros H.
  apply (f_equal (@rev char)) in H. rewrite rev_involutive, rev_app_distr in H.
  cbn in H. eapply lstrip_head, H.
Qed.

Lemma strip_split (s : str) :
  exists a b, s = a ++ strip s ++ b /\ all_space a /\ all_space b.
Proof.
  unfold strip. destruct (lstrip_split s) as (a & Hs & Ha).
  destruct (rstrip_split (lstrip s)) as (b & Hl & Hb).
  exists a, b. split; [|auto]. now rewrite <- Hl.
Qed.

Lemma strip_head (s : str) (c : char) (r : str) :
  strip s = c :: r -> isspace c = false.
Proof.
  unfold strip. destruct (lstrip s) as [|d l] eqn:E.
  - discriminate.
  - pose proof (lstrip_head _ _ _ E) as Hd.
    rewrite rstrip_cons by exact Hd. now intros [= <- _].
Qed.

Lemma strip_last (s r : str) (c : char) :
  strip s = r ++ [c] -> isspace c = false.
Proof. unfold strip. apply rstrip_last. Qed.







Lemma occurs_in_trans (o m t : str) : occurs_in o m -> occurs_in m t -> occurs_in o t.
Proof.
  intros (a & b & ->) (a' & b' & ->). exists (a' ++ a), (b ++ b').
  now rewrite <- !app_assoc.
Qed.

Lemma strip_occurs (s : str) : occurs_in (strip s) s.
Proof. destruct (strip_split s) as (a & b & H & _). now exists a, b. Qed.

Lemma strip_idem (s : str) : strip (strip s) = strip s.
Proof.
  destruct (strip s) as [|c r] eqn:E; [reflexivity|].
  pose proof (strip_head _ _ _ E) as Hc.
  destruct (exists_last (l := c :: r)) as (r' & c' & El); [discriminate|].
  assert (Hc' : isspace c' = false) by (eapply strip_last; rewrite E; exact El).
  unfold strip. cbn [lstrip]. rewrite Hc, El. unfold rstrip.
  rewrite rev_app_distr. cbn [rev app lstrip]. rewrite Hc'.
  cbn [rev]. now rewrite rev_involutive.
Qed.


(** ** The search window (C1) *)

Lemma window_candidates_iff (pq : questions) (msg_id stem_id : Z) :
  stem_id ∈ window_candidates pq msg_id
  <-> stem_id ∈ keys pq /\ Z.max 0 (msg_id - 16) <= stem_id < msg_id.
Proof.
  unfold window_candidates, min_message_id, MESSAGE_SEARCH_WINDOW.
  rewrite list_elem_of_In, List.filter_In, <- list_elem_of_In.
  rewrite andb_true_iff, Z.ltb_lt, Z.leb_le. intuition lia.
Qed.

(** C1 (the code departs from the claim): the window of the similarity
    search opens at [current_id - 16], not [current_id - 15].  For an
    option message with id 17 whose predecessor is no stem, the stem with
    id 1 = 17 - (MESSAGE_SEARCH_WINDOW + 1) is the candidate, and the
    options are attached to it by similarity. *)
Theorem window_reaches_sixteen_back :
  id far_option_msg - (MESSAGE_SEARCH_WINDOW + 1) = 1
  /\ candidate_stem_ids (potential_questions (pass1 far_stem_run)) far_option_msg
     = [1]
  /\ blocks_by_stem (associate (ratio_for (u "A. Paris") 70) far_stem_run)
     = [(1, [mkBlock 2 [u "ok"] adjacent;
             mkBlock 17 [u "A. Paris"] (similarity 70)])]
  /\ refine_grouping_with_similarity (ratio_for (u "A. Paris") 70) far_stem_run
     = [Collated.mk 1 capital_of_france [u "ok"; u "Paris"]].
Proof. repeat split; vm_compute; reflexivity. Qed.

(** ** System notices in the reader (C3) *)

Lemma flat_map_last_nonempty {A B} (f : A -> list B) (l : list A) (x : A) :
  f x <> [] -> flat_map f (l ++ [x]) <> [].
Proof.
  intros Hx. rewrite flat_map_app. simpl. rewrite app_nil_r.
  destruct (f x) eqn:E; [congruence|].
  intros H. apply app_eq_nil in H. destruct H; discriminate.
Qed.

Lemma star_iter_nonempty greedy step n p : star_iter greedy step n p <> [].
Proof.
  destruct n; simpl; [discriminate|].
  destruct greedy; [|discriminate].
  intros H. apply app_eq_nil in H. destruct H; discriminate.
Qed.

Lemma opt_then_nonempty m (a b : regex) (p : pos) :
  rmatch m b p <> [] -> rmatch m (Cat (Opt a) b) p <> [].
Proof. intros H. cbn [rmatch]. now apply flat_map_last_nonempty. Qed.

Lemma bol_then_nonempty m (b : regex) (p : pos) :
  prev p = None -> rmatch m b p <> [] -> rmatch m (Cat Bol b) p <> [].
Proof.
  intros Hp H. cbn [rmatch]. rewrite Hp. cbn [flat_map].
  now rewrite app_nil_r.
Qed.

Lemma grp_nonempty m i (a : regex) (p : pos) :
  rmatch m a p <> [] -> rmatch m (Grp i a) p <> [].
Proof.
  intros H. cbn [rmatch]. intros E. apply map_eq_nil in E. contradiction.
Qed.

Lemma plus_dot_nonempty m (p : pos) (c : char) (s : str) :
  rest p = c :: s -> c <> 10%N -> rmatch m (plus dot) p <> [].
Proof.
  intros Hr Hc. unfold plus, dot. cbn [rmatch]. rewrite Hr.
  destruct (c =? 10)%N eqn:E; [apply N.eqb_eq in E; congruence|].
  cbn [negb flat_map]. rewrite app_nil_r. apply star_iter_nonempty.
Qed.

(** [line_regex] matches every line that opens with a character other
    than a line feed: the branch of the reader for a line without a match
    is never taken. *)
Lemma line_regex_always_matches (c : char) (line : str) :
  c <> 10%N -> re_match true line_regex (c :: line) <> None.
Proof.
  intros Hc. unfold re_match.
  assert (Hne : rmatch true line_regex (start (c :: line)) <> []).
  { unfold line_regex.
    apply bol_then_nonempty; [reflexivity|].
    do 2 apply opt_then_nonempty.
    apply grp_nonempty.
    now apply (plus_dot_nonempty _ _ c line). }
  destruct (rmatch true line_regex (start (c :: line))); [congruence|].
  discriminate.
Qed.

(** A stripped line that is not empty always matches: the reader never
    reaches its test for system notices. *)
Lemma stripped_line_always_matches (line : str) :
  strip line <> [] -> re_match true line_regex (strip line) <> None.
Proof.
  intros Hne. destruct (strip line) as [|c r] eqn:E; [congruence|].
  apply line_regex_always_matches.
  pose proof (strip_head _ _ _ E) as Hc. intros ->. discriminate.
Qed.

(** C3 (the code departs from the claim): a line without a timestamp
    that matches a system-notice pattern ("Bob left") is appended to the
    text of the current message, and so is "left the group", which
    matches none of the patterns. *)
Theorem system_notice_is_appended (strptime : str -> str -> option datetime) :
  is_system_message (u "Bob left") = true
  /\ List.map original_text
       (preprocess_transcript strptime (notice_after_stem (u "Bob left")))
     = [u "What is X?" ++ LF ++ u "Bob left"]
  /\ is_system_message (u "left the group") = false
  /\ List.map original_text
       (preprocess_transcript strptime (notice_after_stem (u "left the group")))
     = [u "What is X?" ++ LF ++ u "left the group"].
Proof. repeat split; vm_compute; reflexivity. Qed.

(** ** The option section (C4) *)

(** Once opened, the option section is never left. *)
Lemma option_section_never_ends (st : extract_state) (line : str) :
  in_option_section st = true ->
  in_option_section (extract_step st line) = true.
Proof.
  intros H. unfold extract_step. rewrite H.
  repeat match goal with
         | |- context [if ?b then _ else _] => destruct b; cbn [in_option_section orb]
         end; auto.
Qed.

(** In the option section every line that is kept is emitted, whatever
    its length. *)
Lemma line_in_section_is_emitted (st : extract_state) (line : str) :
  in_option_section st = true ->
  truthy (strip line) = true ->
  is_only_marker (strip line) = false ->
  is_option_keyword (strip line) = false ->
  extract_step st line = mkExtract (options st ++ [strip line]) true.
Proof.
  intros H1 H2 H3 H4. unfold extract_step.
  rewrite H1, H2, H3, H4. reflexivity.
Qed.

(** C4 (the code departs from the claim): after the keyword line
    "options:", a line of 101 characters that matches no option marker is
    emitted as an option and the section goes on: the next line is
    emitted too. *)
Theorem long_line_does_not_end_section :
  len long_line = 101
  /\ is_option_marker long_line = false
  /\ extract_options_from_text keyword_then_long_line = [long_line; u "Paris"]
  /\ in_option_section
       (fold_left extract_step (splitlines keyword_then_long_line)
                  (mkExtract [] false)) = true.
Proof. repeat split; vm_compute; reflexivity. Qed.

(** ** Scenario A (C7) *)

(** C7: on the transcript of Scenario A the pipeline returns one
    question, the stem "What is the capital of France?" with the options
    "Paris" and "Lyon" in this order, its only option block being the one
    of message 2, attached by adjacency. *)
Theorem scenario_a_collated (strptime : str -> str -> option datetime)
    (token_set_ratio : str -> str -> Z) :
  pipeline strptime token_set_ratio scenario_a
  = [Collated.mk 1 capital_of_france [u "Paris"; u "Lyon"]]
  /\ blocks_by_stem
       (associate token_set_ratio
          (identify_potential_stems (preprocess_transcript strptime scenario_a)))
     = [(1, [mkBlock 2 [u "A. Paris"; u "B. Lyon"] adjacent])].
Proof. split; vm_compute; reflexivity. Qed.

(** ** The timestamp filter (C2) *)

Lemma candidates_without_timestamp (pq : questions) (msg : message) :
  timestamp msg = None ->
  candidate_stem_ids pq msg = window_candidates pq (id msg).
Proof. intros H. unfold candidate_stem_ids, min_timestamp. now rewrite H. Qed.

(** C2 (as the code has it): a stem of the window is a candidate exactly
    when, should the option message have a timestamp [t], the stem has a
    timestamp of its own that is not earlier than twenty minutes before
    [t].  So a stem without timestamp is excluded as soon as the option
    message has one, and no stem is excluded when it has none. *)
Theorem timestamp_filter_needs_stem_timestamp (pq : questions) (msg : message)
    (stem_id : Z) :
  stem_id ∈ candidate_stem_ids pq msg
  <-> stem_id ∈ window_candidates pq (id msg)
      /\ forall t, timestamp msg = Some t ->
            exists q dt, dict_get stem_id pq = Some q
                         /\ timestamp (Question.stem_message q) = Some dt
                         /\ t - 20 * 60 <= dt.
Proof.
  unfold candidate_stem_ids, min_timestamp.
  destruct (timestamp msg) as [t|].
  - rewrite list_elem_of_In, List.filter_In, <- list_elem_of_In.
    unfold stem_in_time, TIME_SEARCH_WINDOW_MINUTES.
    split.
    + intros [Hw Hs]. split; [exact Hw|]. intros t' [= <-].
      destruct (dict_get stem_id pq) as [q|]; [|discriminate].
      destruct (timestamp (Question.stem_message q)) as [dt|] eqn:Edt; [|discriminate].
      exists q, dt. apply Z.leb_le in Hs. repeat split; auto.
    + intros [Hw H]. destruct (H t eq_refl) as (q & dt & Hq & Hdt & Hle).
      split; [exact Hw|]. rewrite Hq, Hdt. now apply Z.leb_le.
  - split; [|tauto]. intros Hw. split; [exact Hw|]. discriminate.
Qed.

Lemma timestamp_filter_needs_stem_timestamp_witness :
  5 ∈ candidate_stem_ids (potential_questions (pass1 scenario_b_timed))
                         timed_option_msg
  <-> 5 ∈ window_candidates (potential_questions (pass1 scenario_b_timed))
            (id timed_option_msg)
      /\ forall t, timestamp timed_option_msg = Some t ->
            exists q dt,
              dict_get 5 (potential_questions (pass1 scenario_b_timed)) = Some q
              /\ timestamp (Question.stem_message q) = Some dt
              /\ t - 20 * 60 <= dt.
Proof.
  apply (timestamp_filter_needs_stem_timestamp
           (potential_questions (pass1 scenario_b_timed)) timed_option_msg 5).
Defined.

(** The claim of C2 fails: the option message 12 has a timestamp, the
    stem 5 lies in its window and has none; the stem is no candidate and,
    with a score of 70, nothing is collated.  Without a timestamp on the
    option message the block is attached with that score. *)
Lemma untimed_stem_is_excluded :
  timestamp timed_option_msg = Some 60
  /\ timestamp untimed_stem = None
  /\ window_candidates (potential_questions (pass1 scenario_b_timed))
                       (id timed_option_msg) = [5]
  /\ candidate_stem_ids (potential_questions (pass1 scenario_b_timed))
                        timed_option_msg = []
  /\ refine_grouping_with_similarity (ratio_const 70) scenario_b_timed = []
  /\ blocks_by_stem (associate (ratio_const 70) scenario_b_untimed)
     = [(5, [mkBlock 12 [u "A. Paris"] (similarity 70)])].
Proof. repeat split; vm_compute; reflexivity. Qed.

(** ** The best candidate and the threshold (C6) *)

Section BestMatch.

Variable token_set_ratio : str -> str -> Z.
Variable pq : questions.
Variable preview : str.

Let score := stem_score token_set_ratio pq preview.

(** The outcome of the loop over the candidates: nothing when no score is
    positive, else the first candidate with the highest score. *)
Lemma best_match_spec (cands : list Z) :
  let r := best_match token_set_ratio pq preview cands in
  (fst r = None /\ snd r = 0 /\ forall c, c ∈ cands -> score c <= 0)
  \/ (exists b pre post,
         fst r = Some b /\ cands = pre ++ b :: post /\ snd r = score b
         /\ 0 < score b
         /\ (forall c, c ∈ pre -> score c < score b)
         /\ (forall c, c ∈ post -> score c <= score b)).
Proof.
  induction cands as [|x l IH] using rev_ind; cbn zeta.
  - left. repeat split. intros c Hc. inversion Hc.
  - unfold best_match in *. rewrite fold_left_app. cbn [fold_left].
    cbn zeta in IH.
    set (r := fold_left (best_step token_set_ratio pq preview) l (None, 0)) in *.
    assert (E : best_step token_set_ratio pq preview r x
                = if snd r <? score x then (Some x, score x) else r)
      by reflexivity.
    rewrite E. clear E.
    destruct (Z.ltb_spec (snd r) (score x)) as [Hlt|Hge].
    + right. exists x, l, []. cbn [fst snd]. repeat split; try lia.
      * destruct IH as [(_ & H0 & _)|(b & pre & post & _ & _ & Hs & Hpos & _)]; lia.
      * intros c Hc.
        destruct IH as [(_ & H0 & Hall)|(b & pre & post & _ & Hl & Hs & Hpos & Hpre & Hpost)].
        -- specialize (Hall c Hc). lia.
        -- rewrite Hl in Hc. apply elem_of_app in Hc as [Hc|Hc].
           ++ specialize (Hpre c Hc). lia.
           ++ apply elem_of_cons in Hc as [->|Hc]; [lia|].
              specialize (Hpost c Hc). lia.
      * intros c Hc. inversion Hc.
    + destruct IH as [(Hn & H0 & Hall)|(b & pre & post & Hb & Hl & Hs & Hpos & Hpre & Hpost)].
      * left. repeat split; auto. intros c Hc.
        apply elem_of_app in Hc as [Hc|Hc]; [auto|].
        apply list_elem_of_singleton in Hc as ->. lia.
      * right. exists b, pre, (post ++ [x]). repeat split; auto.
        -- rewrite Hl. now rewrite <- app_assoc.
        -- intros c Hc. apply elem_of_app in Hc as [Hc|Hc]; [auto|].
           apply list_elem_of_singleton in Hc as ->. lia.
Qed.

End BestMatch.

Lemma candidates_are_keys (pq : questions) (msg : message) (c : Z) :
  c ∈ candidate_stem_ids pq msg -> c ∈ keys pq.
Proof.
  unfold candidate_stem_ids. intros H.
  assert (Hw : c ∈ window_candidates pq (id msg)).
  { destruct (min_timestamp msg); [|exact H].
    apply list_elem_of_In, List.filter_In in H as [H _].
    now apply list_elem_of_In. }
  now apply window_candidates_iff in Hw as [Hw _].
Qed.

(** The outcome of the similarity search in terms of [stem_score] and
    [attach]: the block goes to the first candidate with the highest
    score when that score reaches the threshold, and is dropped
    otherwise. *)
Lemma similarity_outcome (token_set_ratio : str -> str -> Z)
    (g : grouping) (msg : message) (options_in_msg : list str) :
  (forall k, k ∈ keys (potential_questions g) -> 0 < k) ->
  let cands := candidate_stem_ids (potential_questions g) msg in
  let score := stem_score token_set_ratio (potential_questions g)
                          (options_preview options_in_msg) in
  (exists b pre post,
      cands = pre ++ b :: post
      /\ SIMILARITY_THRESHOLD <= score b
      /\ (forall c, c ∈ pre -> score c < score b)
      /\ (forall c, c ∈ post -> score c <= score b)
      /\ associate_by_similarity token_set_ratio g msg options_in_msg
         = attach g b (mkBlock (id msg) options_in_msg (similarity (score b))))
  \/ ((forall c, c ∈ cands -> score c < SIMILARITY_THRESHOLD)
      /\ associate_by_similarity token_set_ratio g msg options_in_msg = g).
Proof.
  intros Hpos cands score.
  unfold associate_by_similarity, similarity_target. fold cands.
  destruct cands as [|c0 cs] eqn:Ecands.
  { right. split; [|reflexivity]. intros c Hc. inversion Hc. }
  cbn [truthy]. rewrite <- Ecands.
  pose proof (best_match_spec token_set_ratio (potential_questions g)
                (options_preview options_in_msg) cands) as Hspec.
  cbn zeta in Hspec. fold score in Hspec.
  set (r := best_match token_set_ratio (potential_questions g)
              (options_preview options_in_msg) cands) in *.
  unfold accepted, SIMILARITY_THRESHOLD in *.
  destruct Hspec as [(Hn & H0 & Hall)|(b & pre & post & Hb & Hl & Hs & Hp & Hpre & Hpost)].
  - right. rewrite Hn. split; [|reflexivity].
    intros c Hc. specialize (Hall c Hc). lia.
  - rewrite Hb.
    assert (Hb0 : b <> 0).
    { assert (Hin : b ∈ cands) by (rewrite Hl; set_solver).
      unfold cands in Hin. apply candidates_are_keys in Hin.
      specialize (Hpos b Hin). lia. }
    apply Z.eqb_neq in Hb0. rewrite Hb0. cbn [negb andb].
    destruct (Z.leb_spec 65 (snd r)) as [Hle|Hlt].
    + left. exists b, pre, post. rewrite <- Hs. repeat split; auto; try lia.
      * intros c Hc. specialize (Hpre c Hc). lia.
      * intros c Hc. specialize (Hpost c Hc). lia.
    + right. split; [|reflexivity].
      intros c Hc. rewrite Hl in Hc.
      apply elem_of_app in Hc as [Hc|Hc]; [specialize (Hpre c Hc); lia|].
      apply elem_of_cons in Hc as [->|Hc]; [lia|].
      specialize (Hpost c Hc). lia.
Qed.

Lemma dict_get_of_key {V} (d : list (Z * V)) (k : Z) :
  k ∈ keys d -> exists v, dict_get k d = Some v.
Proof.
  induction d as [|[k' v'] d IH]; cbn [keys List.map fst dict_get];
    [intros H; inversion H|].
  destruct (Z.eqb_spec k k') as [->|Hne]; [now exists v'|].
  intros H. apply elem_of_cons in H as [H|H]; [congruence|]. now apply IH.
Qed.

Lemma dict_get_append_block_same (d : questions) (k : Z) (b : option_block)
    (q : Question.t) :
  dict_get k d = Some q -> dict_get k (append_block k b d) = Some (add_block b q).
Proof.
  induction d as [|[k' q'] d IH]; cbn [dict_get append_block]; [discriminate|].
  destruct (Z.eqb_spec k k') as [->|Hne]; cbn [dict_get].
  - rewrite Z.eqb_refl. now intros [= ->].
  - apply Z.eqb_neq in Hne. rewrite Hne. exact IH.
Qed.

Lemma dict_get_append_block_other (d : questions) (k k0 : Z) (b : option_block) :
  k0 <> k -> dict_get k0 (append_block k b d) = dict_get k0 d.
Proof.
  intros Hne. induction d as [|[k' q'] d IH]; cbn [dict_get append_block];
    [reflexivity|].
  destruct (Z.eqb_spec k k') as [->|Hk]; cbn [dict_get].
  - apply Z.eqb_neq in Hne. now rewrite Hne.
  - now rewrite IH.
Qed.

(** The score of a candidate is the token-set score of the preview
    against the stem text recorded for it. *)
Lemma candidate_score (token_set_ratio : str -> str -> Z) (pq : questions)
    (msg : message) (preview : str) (c : Z) :
  c ∈ candidate_stem_ids pq msg ->
  exists qc, dict_get c pq = Some qc
             /\ stem_score token_set_ratio pq preview c
                = token_set_ratio preview (Question.stem_text_only qc).
Proof.
  intros Hc. apply candidates_are_keys, dict_get_of_key in Hc as (qc & Hq).
  exists qc. split; [exact Hq|]. unfold stem_score. now rewrite Hq.
Qed.

(** C6: with stem ids positive, as the reader assigns them, the block of
    an option message that reaches the similarity search is attached if
    and only if some candidate scores at least 65, the score of a
    candidate being [token_set_ratio] of the preview of the options
    against the stem text recorded for it.  The block then goes, with
    that score, to the first candidate whose score is the highest (all
    earlier candidates score strictly less, no later one scores more):
    the options of that stem gain the block at their end, every other
    stem keeps its entry, and the id of the message joins the associated
    ids.  When every candidate scores below 65 the block is dropped and
    the dictionaries are left as they were. *)
Theorem similarity_selects_first_best (token_set_ratio : str -> str -> Z)
    (g : grouping) (msg : message) (options_in_msg : list str) :
  (forall k, k ∈ keys (potential_questions g) -> 0 < k) ->
  let pq := potential_questions g in
  let cands := candidate_stem_ids pq msg in
  let preview := options_preview options_in_msg in
  let g' := associate_by_similarity token_set_ratio g msg options_in_msg in
  (exists b pre post q s,
      cands = pre ++ b :: post
      /\ dict_get b pq = Some q
      /\ s = token_set_ratio preview (Question.stem_text_only q)
      /\ SIMILARITY_THRESHOLD <= s
      /\ (forall c, c ∈ pre ->
            exists qc, dict_get c pq = Some qc
                       /\ token_set_ratio preview (Question.stem_text_only qc) < s)
      /\ (forall c, c ∈ post ->
            exists qc, dict_get c pq = Some qc
                       /\ token_set_ratio preview (Question.stem_text_only qc) <= s)
      /\ dict_get b (potential_questions g')
         = Some (Question.mk (Question.stem_message q) (Question.stem_text_only q)
                             (Question.options q
                              ++ [mkBlock (id msg) options_in_msg (similarity s)]))
      /\ (forall k, k <> b -> dict_get k (potential_questions g') = dict_get k pq)
      /\ associated_option_message_ids g'
         = {[id msg]} ∪ associated_option_message_ids g)
  \/ ((forall c, c ∈ cands ->
         exists qc, dict_get c pq = Some qc
                    /\ token_set_ratio preview (Question.stem_text_only qc)
                       < SIMILARITY_THRESHOLD)
      /\ g' = g).
Proof.
  intros Hpos pq cands preview g'.
  assert (Hscore : forall c, c ∈ cands ->
            exists qc, dict_get c pq = Some qc
                       /\ stem_score token_set_ratio pq preview c
                          = token_set_ratio preview (Question.stem_text_only qc))
    by (intros c Hc; now apply (candidate_score token_set_ratio pq msg)).
  pose proof (similarity_outcome token_set_ratio g msg options_in_msg Hpos) as Hout.
  cbn zeta in Hout. fold pq in Hout. fold cands in Hout. fold preview in Hout.
  fold g' in Hout.
  destruct Hout as [(b & pre & post & Hl & Hth & Hpre & Hpost & Heq)|(Hall & Heq)].
  - left.
    destruct (Hscore b) as (q & Hq & Hs); [rewrite Hl; set_solver|].
    exists b, pre, post, q, (token_set_ratio preview (Question.stem_text_only q)).
    rewrite Hs in *.
    split; [exact Hl|]. split; [exact Hq|]. split; [reflexivity|].
    split; [exact Hth|]. split; [|split].
    + intros c Hc. destruct (Hscore c) as (qc & Hqc & Hsc); [rewrite Hl; set_solver|].
      exists qc. split; [exact Hqc|]. rewrite <- Hsc. now apply Hpre.
    + intros c Hc. destruct (Hscore c) as (qc & Hqc & Hsc); [rewrite Hl; set_solver|].
      exists qc. split; [exact Hqc|]. rewrite <- Hsc. now apply Hpost.
    + rewrite Heq. unfold attach.
      cbn [potential_questions associated_option_message_ids source_message_id].
      fold pq. split; [|split].
      * now rewrite (dict_get_append_block_same pq b _ q Hq).
      * intros k Hk. now apply dict_get_append_block_other.
      * reflexivity.
  - right. split; [|exact Heq].
    intros c Hc. destruct (Hscore c Hc) as (qc & Hqc & Hsc).
    exists qc. split; [exact Hqc|]. rewrite <- Hsc. now apply Hall.
Qed.

Lemma similarity_selects_first_best_witness :
  let g := pass1 two_stems_run in
  let msg := a_message 4 (Some 180) (u "A. Paris") false in
  let pq := potential_questions g in
  let cands := candidate_stem_ids pq msg in
  let preview := options_preview [u "A. Paris"] in
  let g' := associate_by_similarity (ratio_const 65) g msg [u "A. Paris"] in
  (exists b pre post q s,
      cands = pre ++ b :: post
      /\ dict_get b pq = Some q
      /\ s = ratio_const 65 preview (Question.stem_text_only q)
      /\ SIMILARITY_THRESHOLD <= s
      /\ (forall c, c ∈ pre ->
            exists qc, dict_get c pq = Some qc
                       /\ ratio_const 65 preview (Question.stem_text_only qc) < s)
      /\ (forall c, c ∈ post ->
            exists qc, dict_get c pq = Some qc
                       /\ ratio_const 65 preview (Question.stem_text_only qc) <= s)
      /\ dict_get b (potential_questions g')
         = Some (Question.mk (Question.stem_message q) (Question.stem_text_only q)
                             (Question.options q
                              ++ [mkBlock (id msg) [u "A. Paris"] (similarity s)]))
      /\ (forall k, k <> b -> dict_get k (potential_questions g') = dict_get k pq)
      /\ associated_option_message_ids g'
         = {[id msg]} ∪ associated_option_message_ids g)
  \/ ((forall c, c ∈ cands ->
         exists qc, dict_get c pq = Some qc
                    /\ ratio_const 65 preview (Question.stem_text_only qc)
                       < SIMILARITY_THRESHOLD)
      /\ g' = g).
Proof.
  apply (similarity_selects_first_best (ratio_const 65) (pass1 two_stems_run)
           (a_message 4 (Some 180) (u "A. Paris") false) [u "A. Paris"]).
  intros k Hk. change (k ∈ [1; 2]) in Hk.
  apply elem_of_cons in Hk as [->|Hk]; [lia|].
  apply elem_of_cons in Hk as [->|Hk]; [lia|].
  inversion Hk.
Defined.

(** The boundary: two stems that both score 65 against the block of
    message 4 — it goes to the first; at 64 it is dropped. *)
Example best_score_65_is_accepted :
  blocks_by_stem (associate (ratio_const 65) two_stems_run)
  = [(1, [mkBlock 4 [u "A. Paris"] (similarity 65)]); (2, [])].
Proof. vm_compute. reflexivity. Qed.

Example best_score_64_is_rejected :
  blocks_by_stem (associate (ratio_const 64) two_stems_run) = [(1, []); (2, [])]
  /\ refine_grouping_with_similarity (ratio_const 64) two_stems_run = [].
Proof. split; vm_compute; reflexivity. Qed.

(** ** Keeping the first of each key
    The loops that remove duplicates (of options in Pass 3, of stems in
    processing.py) have one shape. *)

Lemma elem_of_map {A B} (f : A -> B) (l : list A) (y : B) :
  y ∈ List.map f l <-> exists x, y = f x /\ x ∈ l.
Proof.
  rewrite list_elem_of_In, in_map_iff.
  split; intros (x & H1 & H2); exists x; rewrite ?list_elem_of_In in *; auto.
Qed.

Section KeepFirst.

Context {A : Type} (key : A -> str).

Lemma fold_keep_step {B} (emit : A -> B) (l : list A) (out : list B)
    (seen : gset str) :
  fst (fold_left (keep_step key emit) l (out, seen))
  = out ++ List.map emit (firsts key seen l).
Proof.
  revert out seen. induction l as [|x l IH]; intros out seen; cbn [fold_left firsts].
  - cbn. now rewrite app_nil_r.
  - unfold keep_step at 2. cbn [fst snd].
    destruct (bool_decide (key x ∈ seen)); [apply IH|].
    rewrite IH. cbn [List.map]. now rewrite <- app_assoc.
Qed.

Lemma firsts_fresh (l : list A) (seen : gset str) (x : A) :
  x ∈ firsts key seen l -> key x ∉ seen.
Proof.
  revert seen. induction l as [|a l IH]; intros seen Hx; cbn [firsts] in Hx.
  - inversion Hx.
  - destruct (bool_decide (key a ∈ seen)) eqn:E.
    + now apply IH.
    + apply bool_decide_eq_false in E.
      apply elem_of_cons in Hx as [->|Hx]; [exact E|].
      apply IH in Hx. set_solver.
Qed.

Lemma firsts_sublist (l : list A) (seen : gset str) : sublist (firsts key seen l) l.
Proof.
  revert seen. induction l as [|a l IH]; intros seen; cbn [firsts].
  - constructor.
  - destruct (bool_decide (key a ∈ seen)).
    + apply sublist_cons, IH.
    + apply sublist_skip, IH.
Qed.

Lemma firsts_NoDup (l : list A) (seen : gset str) :
  NoDup (List.map key (firsts key seen l)).
Proof.
  revert seen. induction l as [|a l IH]; intros seen; cbn [firsts].
  - constructor.
  - destruct (bool_decide (key a ∈ seen)); [apply IH|].
    cbn [List.map]. constructor; [|apply IH].
    intros Hin. apply elem_of_map in Hin as (x & Hk & Hx).
    apply firsts_fresh in Hx. set_solver.
Qed.

Lemma firsts_first_occurrence (l : list A) (seen : gset str) (x : A) :
  x ∈ firsts key seen l ->
  exists pre post, l = pre ++ x :: post /\ forall y, y ∈ pre -> key y <> key x.
Proof.
  revert seen. induction l as [|a l IH]; intros seen Hx; cbn [firsts] in Hx.
  - inversion Hx.
  - destruct (bool_decide (key a ∈ seen)) eqn:E.
    + apply bool_decide_eq_true in E.
      pose proof (firsts_fresh _ _ _ Hx) as Hfresh.
      destruct (IH _ Hx) as (pre & post & -> & Hpre).
      exists (a :: pre), post. split; [reflexivity|].
      intros y Hy. apply elem_of_cons in Hy as [->|Hy]; [|auto].
      intros Heq. rewrite Heq in E. contradiction.
    + apply elem_of_cons in Hx as [->|Hx].
      * exists [], l. split; [reflexivity|]. intros y Hy. inversion Hy.
      * pose proof (firsts_fresh _ _ _ Hx) as Hfresh.
        destruct (IH _ Hx) as (pre & post & -> & Hpre).
        exists (a :: pre), post. split; [reflexivity|].
        intros y Hy. apply elem_of_cons in Hy as [->|Hy]; [|auto].
        intros Heq. set_solver.
Qed.

Lemma firsts_covers (l : list A) (seen : gset str) (y : A) :
  y ∈ l -> key y ∉ seen -> key y ∈ List.map key (firsts key seen l).
Proof.
  revert seen. induction l as [|a l IH]; intros seen Hy Hfresh; cbn [firsts].
  - inversion Hy.
  - destruct (bool_decide (key a ∈ seen)) eqn:E.
    + apply bool_decide_eq_true in E.
      apply elem_of_cons in Hy as [->|Hy]; [contradiction|]. now apply IH.
    + cbn [List.map].
      destruct (decide (key y = key a)) as [->|Hne]; [left|].
      apply elem_of_cons in Hy. destruct Hy as [Heq|Hy]; [subst; contradiction|].
      right. apply IH; [exact Hy|set_solver].
Qed.

End KeepFirst.

Lemma truthy_iff {A} (l : list A) : truthy l = true <-> l <> [].
Proof. destruct l; cbn; split; congruence. Qed.

(** ** Pass 3 *)

Lemma dedup_step_is_keep_step :
  dedup_step = keep_step lower (fun opt => opt).
Proof. reflexivity. Qed.

Lemma unique_options_firsts (cleaned : list str) :
  unique_options cleaned = firsts lower ∅ cleaned.
Proof.
  unfold unique_options. rewrite dedup_step_is_keep_step, fold_keep_step.
  cbn [app]. apply map_id.
Qed.

Lemma cleaned_options_iff (texts : list str) (c : str) :
  c ∈ cleaned_options texts
  <-> c <> [] /\ exists t, t ∈ texts /\ c = strip (sub_prefix option_marker_regex t).
Proof.
  unfold cleaned_options.
  rewrite list_elem_of_In, List.filter_In, <- list_elem_of_In, elem_of_map, truthy_iff.
  split.
  - intros [(t & -> & Ht) Hne]. split; [exact Hne|]. now exists t.
  - intros [Hne (t & Ht & ->)]. split; [|exact Hne]. now exists t.
Qed.

Lemma pass3_step_emitted (pq : questions) (out : output) (k : Z) :
  pass3_step pq out k
  = if bool_decide (k ∈ processed_stem_ids out) then out
    else match emitted pq k with
         | Some q => mkOutput (final_collated_questions out ++ [q])
                              ({[k]} ∪ processed_stem_ids out)
         | None => out
         end.
Proof.
  unfold pass3_step, emitted.
  destruct (bool_decide (k ∈ processed_stem_ids out)); [reflexivity|].
  destruct (dict_get k pq) as [q|]; [|reflexivity].
  now destruct (truthy (Question.stem_text_only q) && truthy (final_options q)).
Qed.

Lemma pass3_fold_elem (pq : questions) (l : list Z) (out : output) (q : Collated.t) :
  q ∈ final_collated_questions (fold_left (pass3_step pq) l out)
  <-> q ∈ final_collated_questions out
      \/ exists k, k ∈ l /\ (k ∉ processed_stem_ids out) /\ emitted pq k = Some q.
Proof.
  revert out. induction l as [|k l IH]; intros out; cbn [fold_left].
  - split; [auto|]. intros [H|(k & Hk & _)]; [exact H|inversion Hk].
  - rewrite IH, pass3_step_emitted.
    destruct (bool_decide (k ∈ processed_stem_ids out)) eqn:E.
    + apply bool_decide_eq_true in E. split.
      * intros [H|(k' & Hk' & Hn & He)]; [auto|].
        right. exists k'. split; [now right|auto].
      * intros [H|(k' & Hk' & Hn & He)]; [auto|].
        right. exists k'. apply elem_of_cons in Hk' as [->|Hk']; [contradiction|auto].
    + apply bool_decide_eq_false in E.
      destruct (emitted pq k) as [qk|] eqn:Ek.
      * cbn [final_collated_questions processed_stem_ids]. split.
        -- intros [H|(k' & Hk' & Hn & He)].
           ++ apply elem_of_app in H as [H|H]; [auto|].
              apply list_elem_of_singleton in H as ->.
              right. exists k. split; [now left|auto].
           ++ right. exists k'. split; [now right|]. split; [set_solver|auto].
        -- intros [H|(k' & Hk' & Hn & He)].
           ++ left. apply elem_of_app. auto.
           ++ destruct (decide (k' = k)) as [->|Hne].
              ** left. apply elem_of_app. right.
                 rewrite Ek in He. injection He as ->. now left.
              ** apply elem_of_cons in Hk' as [->|Hk']; [contradiction|].
                 right. exists k'. split; [auto|]. split; [set_solver|auto].
      * split.
        -- intros [H|(k' & Hk' & Hn & He)]; [auto|].
           right. exists k'. split; [now right|auto].
        -- intros [H|(k' & Hk' & Hn & He)]; [auto|].
           right. exists k'.
           apply elem_of_cons in Hk' as [->|Hk']; [congruence|auto].
Qed.

Lemma insert_sorted_elem (x y : Z) (l : list Z) :
  y ∈ insert_sorted x l <-> y = x \/ y ∈ l.
Proof.
  induction l as [|a l IH]; cbn [insert_sorted].
  - set_solver.
  - destruct (x <=? a); [set_solver|].
    rewrite !elem_of_cons, IH. tauto.
Qed.

Lemma sorted_elem (y : Z) (l : list Z) : y ∈ sorted l <-> y ∈ l.
Proof.
  induction l as [|a l IH]; cbn [sorted fold_right]; [tauto|].
  fold (sorted l). rewrite insert_sorted_elem, IH. set_solver.
Qed.

Lemma dict_get_Some_key {V} (d : list (Z * V)) (k : Z) (v : V) :
  dict_get k d = Some v -> k ∈ keys d.
Proof.
  induction d as [|[k' v'] d IH]; cbn [dict_get keys List.map fst]; [discriminate|].
  destruct (Z.eqb_spec k k') as [->|Hne]; [left|]. intros H. right. now apply IH.
Qed.

(** Pass 3 returns, for each key of the dictionary, the stem text and the
    final options recorded under it, when neither is empty. *)
Lemma pass3_elem (pq : questions) (q : Collated.t) :
  q ∈ pass3 pq
  <-> exists qd,
        dict_get (Collated.stem_id q) pq = Some qd
        /\ q = Collated.mk (Collated.stem_id q) (Question.stem_text_only qd)
                           (final_options qd)
        /\ Question.stem_text_only qd <> []
        /\ final_options qd <> [].
Proof.
  unfold pass3. rewrite pass3_fold_elem.
  cbn [final_collated_questions processed_stem_ids].
  split.
  - intros [H|(k & Hk & _ & He)]; [inversion H|].
    unfold emitted in He. destruct (dict_get k pq) as [qd|] eqn:Eq; [|discriminate].
    destruct (truthy (Question.stem_text_only qd) && truthy (final_options qd)) eqn:Et;
      [|discriminate].
    injection He as <-. cbn [Collated.stem_id].
    apply andb_true_iff in Et as [Ht1 Ht2].
    exists qd. repeat split; auto; now apply truthy_iff.
  - intros (qd & Hq & Heq & Ht1 & Ht2). right.
    exists (Collated.stem_id q). split; [|split; [set_solver|]].
    + apply sorted_elem. eapply dict_get_Some_key, Hq.
    + unfold emitted. rewrite Hq.
      apply truthy_iff in Ht1, Ht2. rewrite Ht1, Ht2. cbn [andb]. now rewrite <- Heq.
Qed.

(** C8: a CollatedQuestion is in the result exactly when it is, for a
    stem of the dictionary, its stem text with its final options, both
    non-empty (a stem whose final options are empty yields none); and the
    final options of a stem are the options of its blocks with the marker
    removed and stripped, none of them empty, no two equal up to case,
    in the order of the blocks, each being the first of the options equal
    to it up to case, and one standing for every such option. *)
Theorem emitted_questions_are_well_formed (token_set_ratio : str -> str -> Z)
    (msgs : list message) :
  (forall q,
      q ∈ refine_grouping_with_similarity token_set_ratio msgs
      <-> exists qd,
            dict_get (Collated.stem_id q)
                     (potential_questions (associate token_set_ratio msgs)) = Some qd
            /\ q = Collated.mk (Collated.stem_id q) (Question.stem_text_only qd)
                               (final_options qd)
            /\ Collated.stem_text q <> []
            /\ Collated.options q <> [])
  /\ (forall qd : Question.t,
        let cleaned := cleaned_options (all_option_texts qd) in
        let opts := final_options qd in
        (forall o, o ∈ opts ->
           o <> [] /\ exists t, t ∈ all_option_texts qd
                                /\ o = strip (sub_prefix option_marker_regex t))
        /\ NoDup (List.map lower opts)
        /\ sublist opts cleaned
        /\ (forall o, o ∈ opts ->
              exists pre post, cleaned = pre ++ o :: post
                               /\ forall x, x ∈ pre -> lower x <> lower o)
        /\ (forall c, c ∈ cleaned -> lower c ∈ List.map lower opts)).
Proof.
  split.
  - intros q. unfold refine_grouping_with_similarity.
    destruct msgs as [|m msgs'] eqn:Em.
    + cbn. split; [intros H; inversion H|]. intros (qd & H & _). discriminate.
    + cbn [truthy negb]. rewrite pass3_elem. split.
      * intros (qd & Hq & Heq & H1 & H2). exists qd.
        repeat split; auto; rewrite Heq; exact H1 || exact H2.
      * intros (qd & Hq & Heq & H1 & H2). exists qd.
        rewrite Heq in H1, H2. cbn in H1, H2. auto.
  - intros qd cleaned opts. unfold opts, final_options. fold cleaned.
    rewrite unique_options_firsts.
    pose proof (firsts_sublist lower cleaned ∅) as Hsub.
    repeat split.
    + eapply elem_of_sublist in H; [|exact Hsub].
      apply cleaned_options_iff in H. tauto.
    + eapply elem_of_sublist in H; [|exact Hsub].
      apply cleaned_options_iff in H. tauto.
    + apply firsts_NoDup.
    + exact Hsub.
    + intros o Ho. now apply (firsts_first_occurrence lower cleaned ∅).
    + intros c Hc. apply firsts_covers; [exact Hc|set_solver].
Qed.

(** ** Duplicate stems (C5) *)

Lemma StronglySorted_snoc (l : list Z) (x : Z) :
  StronglySorted Z.lt l -> (forall i, i ∈ l -> i < x) ->
  StronglySorted Z.lt (l ++ [x]).
Proof.
  induction l as [|a l IH]; intros Hs Hlt; cbn [app].
  - repeat constructor.
  - inversion Hs as [|? ? Hs' Hall]; subst. constructor.
    + apply IH; [exact Hs'|]. intros i Hi. apply Hlt. now right.
    + apply Forall_app. split; [exact Hall|].
      constructor; [|constructor]. apply Hlt. now left.
Qed.

Lemma insert_sorted_sorted (x : Z) (l : list Z) :
  StronglySorted Z.le l -> StronglySorted Z.le (insert_sorted x l).
Proof.
  induction l as [|a l IH]; intros Hs; cbn [insert_sorted].
  - repeat constructor.
  - inversion Hs as [|? ? Hs' Hall]; subst.
    destruct (Z.leb_spec x a) as [Hle|Hgt].
    + constructor; [exact Hs|]. constructor; [exact Hle|].
      eapply Forall_impl; [exact Hall|]. intros y Hy. cbn in Hy. lia.
    + constructor; [now apply IH|].
      apply Forall_forall. intros y Hy.
      apply insert_sorted_elem in Hy as [->|Hy]; [lia|].
      rewrite Forall_forall in Hall. now apply Hall.
Qed.

Lemma sorted_sorted (l : list Z) : StronglySorted Z.le (sorted l).
Proof.
  induction l as [|a l IH]; cbn [sorted fold_right]; [constructor|].
  now apply insert_sorted_sorted.
Qed.

Lemma emitted_stem_id (pq : questions) (k : Z) (q : Collated.t) :
  emitted pq k = Some q -> Collated.stem_id q = k.
Proof.
  unfold emitted. destruct (dict_get k pq) as [qd|]; [|discriminate].
  destruct (truthy (Question.stem_text_only qd) && truthy (final_options qd));
    [|discriminate].
  now intros [= <-].
Qed.

Lemma pass3_fold_ids (pq : questions) (l : list Z) (out : output) :
  StronglySorted Z.le l ->
  StronglySorted Z.lt (output_ids out) ->
  (forall i, i ∈ output_ids out ->
     i ∈ processed_stem_ids out /\ forall k, k ∈ l -> i <= k) ->
  StronglySorted Z.lt (output_ids (fold_left (pass3_step pq) l out)).
Proof.
  revert out. induction l as [|k l IH]; intros out Hl Hout Hinv; cbn [fold_left].
  - exact Hout.
  - inversion Hl as [|? ? Hl' Hall]; subst. rewrite Forall_forall in Hall.
    assert (Hrest : forall i, i ∈ output_ids out ->
              i ∈ processed_stem_ids out /\ forall k', k' ∈ l -> i <= k').
    { intros i Hi. destruct (Hinv i Hi) as [Hp Hle]. split; [exact Hp|].
      intros k' Hk'. apply Hle. now right. }
    rewrite pass3_step_emitted.
    destruct (bool_decide (k ∈ processed_stem_ids out)) eqn:E; [now apply IH|].
    apply bool_decide_eq_false in E.
    destruct (emitted pq k) as [q|] eqn:Eq; [|now apply IH].
    apply emitted_stem_id in Eq.
    apply IH; [exact Hl'| |].
    + unfold output_ids. cbn [final_collated_questions].
      rewrite map_app. cbn [List.map]. rewrite Eq.
      apply StronglySorted_snoc; [exact Hout|].
      intros i Hi. destruct (Hinv i Hi) as [Hp Hle].
      assert (i <= k) by (apply Hle; now left).
      assert (i <> k) by (intros ->; contradiction). lia.
    + unfold output_ids. cbn [final_collated_questions processed_stem_ids].
      rewrite map_app. cbn [List.map]. rewrite Eq.
      intros i Hi. apply elem_of_app in Hi as [Hi|Hi].
      * destruct (Hrest i Hi) as [Hp Hle]. split; [set_solver|exact Hle].
      * apply list_elem_of_singleton in Hi as ->. split; [set_solver|].
        intros k' Hk'. now apply Hall.
Qed.

Lemma pass3_ids_increase (pq : questions) :
  StronglySorted Z.lt (List.map Collated.stem_id (pass3 pq)).
Proof.
  apply (pass3_fold_ids pq (sorted (keys pq)) (mkOutput [] ∅)).
  - apply sorted_sorted.
  - constructor.
  - intros i Hi. inversion Hi.
Qed.

Lemma combine_questions_firsts (all : list Chunked.t) :
  combine_questions all = List.map to_final (firsts chunked_key ∅ all).
Proof.
  unfold combine_questions.
  change combine_step with (keep_step chunked_key to_final).
  now rewrite fold_keep_step.
Qed.

(** C5 (as the code has it): the result of the heuristic grouping holds
    one question per stem id, in increasing order of the ids, and every
    stem of the dictionary whose text and final options are not empty is
    in it, whatever the texts of the other stems; stems are deduplicated
    by their normalised text in the combine step of
    collate_questions_from_transcript only: there no two results have the
    same normalised stem text, each result is the first question with its
    normalised text, with its own options, and every question is
    represented. *)
Theorem stems_deduplicated_by_id_only (token_set_ratio : str -> str -> Z)
    (msgs : list message) (all_collated_questions : list Chunked.t) :
  StronglySorted Z.lt
    (List.map Collated.stem_id (refine_grouping_with_similarity token_set_ratio msgs))
  /\ (forall k qd,
        dict_get k (potential_questions (associate token_set_ratio msgs)) = Some qd ->
        Question.stem_text_only qd <> [] -> final_options qd <> [] ->
        Collated.mk k (Question.stem_text_only qd) (final_options qd)
        ∈ refine_grouping_with_similarity token_set_ratio msgs)
  /\ NoDup (List.map final_key (combine_questions all_collated_questions))
  /\ (forall f, f ∈ combine_questions all_collated_questions ->
        exists pre q post,
          all_collated_questions = pre ++ q :: post
          /\ f = Final.mk (Chunked.stem_text q) (Chunked.options q)
          /\ forall q', q' ∈ pre ->
                norm_stem (Chunked.stem_text q') <> norm_stem (Chunked.stem_text q))
  /\ (forall q, q ∈ all_collated_questions ->
        norm_stem (Chunked.stem_text q)
        ∈ List.map final_key (combine_questions all_collated_questions)).
Proof.
  split; [|split].
  - unfold refine_grouping_with_similarity.
    destruct (truthy msgs); cbn [negb]; [apply pass3_ids_increase|constructor].
  - intros k qd Hq H1 H2. unfold refine_grouping_with_similarity.
    destruct msgs as [|m msgs']; [discriminate|].
    cbn [truthy negb]. apply pass3_elem. exists qd. cbn [Collated.stem_id]. auto.
  - rewrite combine_questions_firsts, map_map.
    change (fun x => final_key (to_final x)) with chunked_key.
    split; [apply firsts_NoDup|]. split.
    + intros f Hf. apply elem_of_map in Hf as (q & -> & Hq).
      destruct (firsts_first_occurrence chunked_key _ _ _ Hq) as (pre & post & Hl & Hpre).
      exists pre, q, post. auto.
    + intros q Hq. apply (firsts_covers chunked_key); [exact Hq|set_solver].
Qed.

(** The claim of C5 fails on the heuristic path: the stem "What is X?"
    asked twice, each time with an answer, is collated twice. *)
Lemma repeated_stem_is_collated_twice :
  pipeline strptime_none (ratio_const 0) repeated_stem_transcript
  = [ Collated.mk 1 (u "What is X?") [u "One"];
      Collated.mk 3 (u "What is X?") [u "Two"] ].
Proof. vm_compute. reflexivity. Qed.

(** ** One stem per option message (C9) *)

Lemma dict_set_keys_elem {V} (d : list (Z * V)) (k x : Z) (v : V) :
  x ∈ keys (dict_set k v d) <-> x = k \/ x ∈ keys d.
Proof.
  induction d as [|[k' v'] d IH]; cbn [dict_set keys List.map fst].
  - set_solver.
  - destruct (Z.eqb_spec k k') as [->|Hne]; cbn [List.map fst].
    + set_solver.
    + fold (keys (dict_set k v d)). fold (keys d).
      rewrite !elem_of_cons, IH. tauto.
Qed.

Lemma dict_set_keys_NoDup {V} (d : list (Z * V)) (k : Z) (v : V) :
  NoDup (keys d) -> NoDup (keys (dict_set k v d)).
Proof.
  induction d as [|[k' v'] d IH]; cbn [dict_set keys List.map fst]; intros Hnd.
  - repeat constructor. intros H. inversion H.
  - apply NoDup_cons in Hnd as [Hk' Hnd].
    destruct (Z.eqb_spec k k') as [->|Hne]; cbn [List.map fst].
    + now apply NoDup_cons.
    + apply NoDup_cons. split; [|now apply IH].
      fold (keys (dict_set k v d)). rewrite dict_set_keys_elem.
      intros [->|H]; [congruence|contradiction].
Qed.

Lemma dict_set_Forall {V} (P : Z * V -> Prop) (d : list (Z * V)) (k : Z) (v : V) :
  Forall P d -> P (k, v) -> Forall P (dict_set k v d).
Proof.
  intros Hd Hv. induction d as [|[k' v'] d IH]; cbn [dict_set].
  - now constructor.
  - apply Forall_cons in Hd as [H1 H2].
    destruct (k =? k'); constructor; auto.
Qed.

Lemma append_block_dict_set (d : questions) (k : Z) (b : option_block)
    (q : Question.t) :
  append_block k b (dict_set k q d) = dict_set k (add_block b q) d.
Proof.
  induction d as [|[k' q'] d IH]; cbn [dict_set append_block].
  - now rewrite Z.eqb_refl.
  - destruct (Z.eqb_spec k k') as [->|Hne]; cbn [append_block].
    + now rewrite Z.eqb_refl.
    + apply Z.eqb_neq in Hne. rewrite Hne. now rewrite IH.
Qed.

Lemma sources_sublist_keys (d : questions) :
  Forall entry_ok d -> sublist (sources d) (keys d).
Proof.
  induction d as [|[k q] d IH]; intros Hd.
  - constructor.
  - apply Forall_cons in Hd as [Hkq Hd]. specialize (IH Hd).
    unfold sources, all_blocks in *. cbn [flat_map keys List.map fst snd] in *.
    rewrite map_app.
    destruct Hkq as [Hq|(texts & Hq)]; cbn [fst snd] in Hq; rewrite Hq.
    + cbn [List.map app]. now apply sublist_cons.
    + cbn [List.map app source_message_id]. now apply sublist_skip.
Qed.

Lemma sources_dict_set (d : questions) (k s : Z) (q : Question.t) :
  s ∈ sources (dict_set k q d) ->
  s ∈ sources d \/ s ∈ List.map source_message_id (Question.options q).
Proof.
  unfold sources, all_blocks.
  induction d as [|[k' q'] d IH]; cbn [dict_set flat_map snd].
  - rewrite app_nil_r. auto.
  - destruct (k =? k'); cbn [flat_map snd]; rewrite !map_app, !elem_of_app.
    + tauto.
    + intros [H|H]; [tauto|]. apply IH in H. tauto.
Qed.

Lemma pass1_step_inv (g : grouping) (msg : message) :
  pass1_inv g -> pass1_inv (pass1_step g msg).
Proof.
  intros (Hnd & Hok & Hsrc). unfold pass1_step.
  destruct (is_potential_stem msg); [|now repeat split].
  destruct (truthy (internal_options (split_stem (original_text msg)))).
  - rewrite append_block_dict_set. unfold pass1_inv.
    cbn [potential_questions associated_option_message_ids add_block
         Question.stem_message Question.stem_text_only Question.options app].
    split; [now apply dict_set_keys_NoDup|]. split.
    + apply dict_set_Forall; [exact Hok|]. right. cbn [fst snd Question.options].
      now eexists.
    + intros s Hs. apply sources_dict_set in Hs as [Hs|Hs].
      * apply Hsrc in Hs. set_solver.
      * cbn in Hs. apply list_elem_of_singleton in Hs as ->. set_solver.
  - unfold pass1_inv. cbn [potential_questions associated_option_message_ids].
    split; [now apply dict_set_keys_NoDup|]. split.
    + apply dict_set_Forall; [exact Hok|]. now left.
    + intros s Hs. apply sources_dict_set in Hs as [Hs|Hs]; [auto|].
      cbn in Hs. inversion Hs.
Qed.

Lemma pass1_has_inv (msgs : list message) : pass1_inv (pass1 msgs).
Proof.
  unfold pass1.
  assert (H0 : pass1_inv (mkGrouping [] ∅)).
  { repeat split; try constructor. intros s Hs. inversion Hs. }
  revert H0. generalize (mkGrouping [] ∅).
  induction msgs as [|m msgs IH]; intros g Hg; cbn [fold_left]; [exact Hg|].
  apply IH. now apply pass1_step_inv.
Qed.

Lemma pass1_inv_sources (g : grouping) : pass1_inv g -> sources_inv g.
Proof.
  intros (Hnd & Hok & Hsrc). split; [|exact Hsrc].
  apply (sublist_NoDup _ (keys (potential_questions g))); [exact Hnd|].
  apply sources_sublist_keys, Hok.
Qed.

Lemma all_blocks_append_block (d : questions) (k : Z) (b : option_block) :
  all_blocks (append_block k b d) ≡ₚ all_blocks d
  \/ all_blocks (append_block k b d) ≡ₚ b :: all_blocks d.
Proof.
  unfold all_blocks. induction d as [|[k' q] d IH]; cbn [append_block flat_map snd].
  - now left.
  - destruct (k =? k'); cbn [flat_map snd add_block Question.options].
    + right. rewrite <- app_assoc. cbn [app]. symmetry. apply Permutation_middle.
    + destruct IH as [IH|IH]; rewrite IH; [now left|right].
      symmetry. apply Permutation_middle.
Qed.

Lemma attach_inv (g : grouping) (k : Z) (b : option_block) :
  sources_inv g ->
  source_message_id b ∉ associated_option_message_ids g ->
  sources_inv (attach g k b).
Proof.
  intros [Hnd Hsrc] Hfresh. unfold sources_inv, attach, sources.
  cbn [potential_questions associated_option_message_ids].
  destruct (all_blocks_append_block (potential_questions g) k b) as [Hp|Hp];
    apply (Permutation_map source_message_id) in Hp.
  - split.
    + rewrite Hp. exact Hnd.
    + intros s Hs. rewrite Hp in Hs. apply Hsrc in Hs. set_solver.
  - cbn [List.map] in Hp. split.
    + rewrite Hp. apply NoDup_cons. split; [|exact Hnd].
      intros Hin. apply Hfresh, Hsrc, Hin.
    + intros s Hs. rewrite Hp in Hs. apply elem_of_cons in Hs as [->|Hs].
      * set_solver.
      * apply Hsrc in Hs. set_solver.
Qed.

Section OneStemPerMessage.

Variable token_set_ratio : str -> str -> Z.

Lemma pass2_step_inv (msgs : list message) (g : grouping) (im : nat * message) :
  sources_inv g -> sources_inv (pass2_step token_set_ratio msgs g im).
Proof.
  intros Hg. destruct im as [i msg]. unfold pass2_step.
  destruct (is_potential_stem msg); cbn [orb]; [exact Hg|].
  destruct (bool_decide (id msg ∈ associated_option_message_ids g)) eqn:E;
    [exact Hg|].
  apply bool_decide_eq_false in E.
  destruct (truthy (extract_options_from_text (original_text msg))); [|exact Hg].
  destruct (adjacent_stem msgs g i) as [prev|].
  - now apply attach_inv.
  - unfold associate_by_similarity.
    destruct (similarity_target token_set_ratio (potential_questions g) msg
                (extract_options_from_text (original_text msg))) as [[b s]|];
      [now apply attach_inv|exact Hg].
Qed.

Lemma pass2_inv (msgs : list message) (g : grouping) :
  sources_inv g -> sources_inv (pass2 token_set_ratio msgs g).
Proof.
  unfold pass2. generalize (enumerate msgs). intros l. revert g.
  induction l as [|im l IH]; intros g Hg; cbn [fold_left]; [exact Hg|].
  apply IH. now apply pass2_step_inv.
Qed.

(** A message whose id is in the associated set is passed over. *)
Lemma associated_message_is_skipped (msgs : list message) (g : grouping)
    (i : nat) (msg : message) :
  id msg ∈ associated_option_message_ids g ->
  pass2_step token_set_ratio msgs g (i, msg) = g.
Proof.
  intros H. unfold pass2_step.
  rewrite (bool_decide_eq_true_2 _ H).
  now rewrite orb_true_r.
Qed.

End OneStemPerMessage.

(** C9: after the two passes the option blocks attached across all stems
    have pairwise distinct [source_message_id]s, each of them in the
    associated set; and a message whose id is in that set is passed over
    by the second loop. *)
Theorem option_blocks_have_distinct_sources (token_set_ratio : str -> str -> Z)
    (msgs : list message) :
  let g := associate token_set_ratio msgs in
  NoDup (List.map source_message_id (all_blocks (potential_questions g)))
  /\ (forall b, b ∈ all_blocks (potential_questions g) ->
                source_message_id b ∈ associated_option_message_ids g)
  /\ (forall g' i msg,
        id msg ∈ associated_option_message_ids g' ->
        pass2_step token_set_ratio msgs g' (i, msg) = g').
Proof.
  cbn zeta. unfold associate.
  destruct (pass2_inv token_set_ratio msgs (pass1 msgs)) as [Hnd Hsrc].
  { apply pass1_inv_sources, pass1_has_inv. }
  split; [exact Hnd|]. split.
  - intros b Hb. apply Hsrc. unfold sources. apply elem_of_map. now exists b.
  - intros g' i msg. apply associated_message_is_skipped.
Qed.

(** ** The stem text of Pass 1 (C10) *)

Lemma dict_get_dict_set {V} (d : list (Z * V)) (k : Z) (v : V) :
  dict_get k (dict_set k v d) = Some v.
Proof.
  induction d as [|[k' v'] d IH]; cbn [dict_set dict_get].
  - now rewrite Z.eqb_refl.
  - destruct (Z.eqb_spec k k') as [->|Hne]; cbn [dict_get].
    + now rewrite Z.eqb_refl.
    + apply Z.eqb_neq in Hne. now rewrite Hne.
Qed.

(** The internal options are lines of the text, stripped, and not empty. *)
Lemma split_step_options (lines : list str) (st : split_state) (line : str) :
  (forall o, o ∈ internal_options st ->
     o <> [] /\ exists l, l ∈ lines /\ o = strip l) ->
  line ∈ lines ->
  forall o, o ∈ internal_options (split_step st line) ->
    o <> [] /\ exists l, l ∈ lines /\ o = strip l.
Proof.
  intros Hst Hline o. unfold split_step.
  destruct (truthy (strip line)) eqn:Et; cbn [negb orb]; [|apply Hst].
  apply truthy_iff in Et.
  assert (Hnew : forall o', o' ∈ internal_options st ++ [strip line] ->
            o' <> [] /\ exists l, l ∈ lines /\ o' = strip l).
  { intros o' Ho'. apply elem_of_app in Ho' as [Ho'|Ho']; [now apply Hst|].
    apply list_elem_of_singleton in Ho' as ->. split; [exact Et|]. now exists line. }
  repeat match goal with
         | |- context [if ?b then _ else _] => destruct b
         end; cbn [internal_options]; auto.
Qed.

Lemma split_fold_options (lines rest : list str) (st : split_state) :
  (forall o, o ∈ internal_options st ->
     o <> [] /\ exists l, l ∈ lines /\ o = strip l) ->
  (forall l, l ∈ rest -> l ∈ lines) ->
  forall o, o ∈ internal_options (fold_left split_step rest st) ->
    o <> [] /\ exists l, l ∈ lines /\ o = strip l.
Proof.
  revert st. induction rest as [|line rest IH]; intros st Hst Hsub; cbn [fold_left].
  - exact Hst.
  - apply IH.
    + apply split_step_options; [exact Hst|]. apply Hsub. now left.
    + intros l Hl. apply Hsub. now right.
Qed.

Lemma split_stem_options (text : str) (o : str) :
  o ∈ internal_options (split_stem text) ->
  o <> [] /\ exists line, line ∈ splitlines text /\ o = strip line.
Proof.
  apply (split_fold_options (splitlines text) (splitlines text)).
  - intros o' Ho'. inversion Ho'.
  - auto.
Qed.




(** A stem whose lines are all option lines: its recorded text is the
    whole message, which its internal block repeats line by line. *)
Example options_only_stem_recorded :
  List.map (fun kq => (Question.stem_text_only (snd kq), Question.options (snd kq)))
           (potential_questions (pass1 [options_only_stem]))
  = [(u "A. Paris" ++ LF ++ u "B. Lyon",
      [mkBlock 1 [u "A. Paris"; u "B. Lyon"] internal])].
Proof. vm_compute. reflexivity. Qed.

(** ** The stem ids of a run
    The ids the similarity search of C6 needs to be positive are so in
    every run of the pipeline. *)

Lemma reader_step_inv strptime (st : reader_state) (line : str) :
  reader_inv st -> reader_inv (reader_step strptime st line).
Proof.
  intros Hinv. pose proof Hinv as (Hc & Hm & Hcur). unfold reader_step.
  destruct (negb (truthy (strip line))); [exact Hinv|].
  assert (Hpush : forall m,
            m ∈ match current_message st with
                | Some cur => messages st ++ [cur]
                | None => messages st
                end -> 0 < id m).
  { intros m. destruct (current_message st) as [cur|]; [|apply Hm].
    intros H. apply elem_of_app in H. destruct H as [H|H]; [now apply Hm|].
    apply list_elem_of_singleton in H. subst m. now apply Hcur. }
  destruct (re_match true line_regex (strip line)) as [m|].
  - destruct (group 1 (caps m)) as [[|c ts]|].
    + destruct (truthy (default [] (group 3 (caps m)))); [|exact Hinv].
      destruct (current_message st) as [cur|] eqn:Ecur; unfold reader_inv;
        cbn [message_id_counter messages current_message].
      * repeat split; auto. intros cur' [= <-]. cbn [append_text id]. now apply Hcur.
      * repeat split; auto; try lia. intros cur' [= <-]. cbn [id]. lia.
    + unfold reader_inv; cbn [message_id_counter messages current_message].
      repeat split; auto; try lia. intros cur' [= <-]. cbn [id]. lia.
    + destruct (truthy (default [] (group 3 (caps m)))); [|exact Hinv].
      destruct (current_message st) as [cur|] eqn:Ecur; unfold reader_inv;
        cbn [message_id_counter messages current_message].
      * repeat split; auto. intros cur' [= <-]. cbn [append_text id]. now apply Hcur.
      * repeat split; auto; try lia. intros cur' [= <-]. cbn [id]. lia.
  - destruct (current_message st) as [cur|] eqn:Ecur; [|exact Hinv].
    destruct (negb (is_system_message (strip line))); [|exact Hinv].
    unfold reader_inv; cbn [message_id_counter messages current_message].
    repeat split; auto. intros cur' [= <-]. cbn [append_text id]. now apply Hcur.
Qed.

Lemma reader_ids_positive strptime (text : str) (m : message) :
  m ∈ preprocess_transcript strptime text -> 0 < id m.
Proof.
  unfold preprocess_transcript.
  destruct (negb (truthy text)); [intros H; inversion H|].
  assert (Hinv : reader_inv (fold_left (reader_step strptime) (splitlines text)
                                       (mkReader [] None 0))).
  { assert (H0 : reader_inv (mkReader [] None 0)).
    { repeat split; cbn; try lia; [intros m' H; inversion H|discriminate]. }
    revert H0. generalize (mkReader [] None 0).
    induction (splitlines text) as [|l ls IH]; intros st Hst; cbn [fold_left]; [exact Hst|].
    apply IH. now apply reader_step_inv. }
  destruct Hinv as (_ & Hm & Hcur).
  destruct (current_message _) as [cur|]; [|apply Hm].
  intros H. apply elem_of_app in H. destruct H as [H|H]; [now apply Hm|].
  apply list_elem_of_singleton in H. subst m. now apply Hcur.
Qed.

Lemma identify_keeps_ids (msgs : list message) (m : message) :
  m ∈ identify_potential_stems msgs -> exists m0, m0 ∈ msgs /\ id m = id m0.
Proof.
  unfold identify_potential_stems. intros H.
  apply elem_of_map in H as (m0 & -> & H0). now exists m0.
Qed.

Lemma append_block_keys (d : questions) (k : Z) (b : option_block) :
  keys (append_block k b d) = keys d.
Proof.
  unfold keys. induction d as [|[k' q] d IH]; cbn [append_block List.map]; [reflexivity|].
  destruct (k =? k'); cbn [List.map fst]; [reflexivity|]. now rewrite IH.
Qed.

Lemma pass1_fold_keys (l : list message) (g : grouping) (k : Z) :
  k ∈ keys (potential_questions (fold_left pass1_step l g)) ->
  k ∈ keys (potential_questions g) \/ exists m, m ∈ l /\ id m = k.
Proof.
  revert g. induction l as [|m l IH]; intros g; cbn [fold_left]; [auto|].
  intros H. apply IH in H. destruct H as [H|(m' & Hm' & <-)].
  - unfold pass1_step in H.
    destruct (is_potential_stem m); [|auto].
    destruct (truthy (internal_options (split_stem (original_text m))));
      cbn [potential_questions] in H;
      rewrite ?append_block_keys, dict_set_keys_elem in H;
      (destruct H as [->|H]; [right; exists m; split; [now left|reflexivity]|auto]).
  - right. exists m'. split; [now right|reflexivity].
Qed.

Lemma pass1_keys (msgs : list message) (k : Z) :
  k ∈ keys (potential_questions (pass1 msgs)) -> exists m, m ∈ msgs /\ id m = k.
Proof.
  intros H. apply pass1_fold_keys in H. destruct H as [H|H]; [inversion H|exact H].
Qed.

Lemma pass2_step_keys ratio (msgs : list message) (g : grouping) (im : nat * message) :
  keys (potential_questions (pass2_step ratio msgs g im)) = keys (potential_questions g).
Proof.
  destruct im as [i msg]. unfold pass2_step.
  destruct (is_potential_stem msg || bool_decide (id msg ∈ associated_option_message_ids g));
    [reflexivity|].
  destruct (truthy (extract_options_from_text (original_text msg))); [|reflexivity].
  destruct (adjacent_stem msgs g i); [apply append_block_keys|].
  unfold associate_by_similarity.
  destruct (similarity_target ratio (potential_questions g) msg _) as [[b s]|];
    [apply append_block_keys|reflexivity].
Qed.

(** In a run of the pipeline the stem ids met by the second loop, at any
    of its turns, are positive. *)
Lemma pipeline_stem_ids_positive strptime ratio (text : str)
    (turns : list (nat * message)) (k : Z) :
  let msgs := identify_potential_stems (preprocess_transcript strptime text) in
  k ∈ keys (potential_questions (fold_left (pass2_step ratio msgs) turns (pass1 msgs))) ->
  0 < k.
Proof.
  intros msgs.
  assert (Hk : keys (potential_questions
                       (fold_left (pass2_step ratio msgs) turns (pass1 msgs)))
               = keys (potential_questions (pass1 msgs))).
  { generalize (pass1 msgs). induction turns as [|im l IH]; intros g; cbn [fold_left];
      [reflexivity|]. now rewrite IH, pass2_step_keys. }
  rewrite Hk. intros H. apply pass1_keys in H as (m & Hm & <-).
  apply identify_keeps_ids in Hm as (m0 & Hm0 & ->).
  eapply reader_ids_positive, Hm0.
Qed.

(** ** The matcher *)

Lemma head_flat_map {A B} (f : A -> list B) (l : list A) (y : B) :
  head (flat_map f l) = Some y -> exists x, x ∈ l /\ head (f x) = Some y.
Proof.
  induction l as [|a l IH]; cbn [flat_map]; [discriminate|].
  destruct (f a) as [|b bs] eqn:E; cbn [app].
  - intros H. destruct (IH H) as (x & Hx & Hy). exists x. split; [now right|exact Hy].
  - intros [= <-]. exists a. split; [now left|]. now rewrite E.
Qed.

Lemma elem_of_flat_map {A B} (f : A -> list B) (l : list A) (y : B) :
  y ∈ flat_map f l <-> exists x, x ∈ l /\ y ∈ f x.
Proof.
  rewrite list_elem_of_In, in_flat_map.
  split; intros (x & H1 & H2); exists x; rewrite ?list_elem_of_In in *; auto.
Qed.

Lemma elem_of_filter' {A} (f : A -> bool) (l : list A) (x : A) :
  x ∈ List.filter f l <-> x ∈ l /\ f x = true.
Proof. now rewrite list_elem_of_In, List.filter_In, <- list_elem_of_In. Qed.

(** A match moves forward: what is left after it is an end of what was
    left before it. *)
Lemma star_iter_suffix greedy (step : pos -> list pos) :
  (forall p q, q ∈ step p -> rest q `suffix_of` rest p) ->
  forall n p q, q ∈ star_iter greedy step n p -> rest q `suffix_of` rest p.
Proof.
  intros Hstep n. induction n as [|n IH]; intros p q; cbn [star_iter].
  - intros H. apply list_elem_of_singleton in H. now subst.
  - assert (Hmore : q ∈ flat_map (star_iter greedy step n)
                          (List.filter (advances p) (step p)) ->
                    rest q `suffix_of` rest p).
    { intros H. apply elem_of_flat_map in H as (x & Hx & Hq).
      apply elem_of_filter' in Hx as [Hx _].
      etrans; [apply IH, Hq|apply Hstep, Hx]. }
    destruct greedy; intros H.
    + apply elem_of_app in H. destruct H as [H|H]; [auto|].
      apply list_elem_of_singleton in H. now subst.
    + apply elem_of_cons in H. destruct H as [->|H]; [reflexivity|auto].
Qed.

Lemma rmatch_suffix m (r : regex) :
  forall p q, q ∈ rmatch m r p -> rest q `suffix_of` rest p.
Proof.
  induction r as [|f|a IHa b IHb|a IHa b IHb|g a IHa|a IHa|i a IHa| | |];
    intros p q; cbn [rmatch].
  - intros H. apply list_elem_of_singleton in H. now subst.
  - destruct (rest p) as [|c s] eqn:E; [intros H; inversion H|].
    destruct (f c); [|intros H; inversion H].
    intros H. apply list_elem_of_singleton in H. subst q. cbn [rest].
    now exists [c].
  - intros H. apply elem_of_flat_map in H as (x & Hx & Hq).
    etrans; [apply IHb, Hq|apply IHa, Hx].
  - intros H. apply elem_of_app in H. destruct H as [H|H]; auto.
  - apply star_iter_suffix. exact IHa.
  - intros H. apply elem_of_app in H. destruct H as [H|H]; [auto|].
    apply list_elem_of_singleton in H. now subst.
  - intros H. apply elem_of_map in H as (x & -> & Hx). unfold set_cap. cbn [rest]. auto.
  - destruct (prev p) as [c|]; [destruct (m && (c =? 10)%N)|];
      intros H; try (inversion H; fail); apply list_elem_of_singleton in H; now subst.
  - assert (Hp : q ∈ [p] -> rest q `suffix_of` rest p).
    { intros H. apply list_elem_of_singleton in H. now subst. }
    destruct (rest p) as [|c [|d s]] eqn:E; try (intros H; inversion H; fail).
    + intros H. now apply Hp.
    + destruct (c =? 10)%N; intros H; [|inversion H].
      now apply Hp.
  - destruct (xorb (word_before p) (word_after p)); intros H; [|inversion H].
    apply list_elem_of_singleton in H. now subst.
Qed.

Lemma no_line_feed_suffix (s t : str) :
  s `suffix_of` t -> no_line_feed t -> no_line_feed s.
Proof. intros (k & ->) H c Hc. apply H. apply elem_of_app. now right. Qed.

Lemma rmatch_dot_cons m (p : pos) (c : char) (s : str) :
  rest p = c :: s -> c <> 10%N -> rmatch m dot p = [mkPos (Some c) s (caps p)].
Proof.
  intros E Hc. unfold dot. cbn [rmatch]. rewrite E.
  apply N.eqb_neq in Hc. now rewrite Hc.
Qed.

Lemma rmatch_dot_nil m (p : pos) : rest p = [] -> rmatch m dot p = [].
Proof. intros E. unfold dot. cbn [rmatch]. now rewrite E. Qed.

Lemma rmatch_plus m (a : regex) (p : pos) :
  rmatch m (plus a) p
  = flat_map (fun x => star_iter true (rmatch m a) (length (rest x)) x)
             (rmatch m a p).
Proof. reflexivity. Qed.

(** The greedy [.*] first reads to the end of a text without line feed. *)
Lemma star_dot_head m (n : nat) (p : pos) :
  no_line_feed (rest p) -> (length (rest p) <= n)%nat ->
  exists q tl, star_iter true (rmatch m dot) n p = q :: tl
               /\ rest q = [] /\ caps q = caps p.
Proof.
  revert p. induction n as [|n IH]; intros p Hnl Hlen; cbn [star_iter].
  - exists p, []. split; [reflexivity|]. split; [|reflexivity].
    destruct (rest p); [reflexivity|cbn in Hlen; lia].
  - destruct (rest p) as [|c s] eqn:E.
    + rewrite (rmatch_dot_nil m p E). cbn. exists p, []. now rewrite E.
    + rewrite (rmatch_dot_cons m p c s E) by (apply Hnl; now left).
      cbn [List.filter]. unfold advances at 1. cbn [rest]. rewrite E. cbn [length].
      replace (length s <? S (length s))%nat with true
        by (symmetry; apply Nat.ltb_lt; lia).
      cbn [flat_map]. rewrite app_nil_r.
      destruct (IH (mkPos (Some c) s (caps p))) as (q & tl & Hq & Hr & Hcaps).
      * cbn [rest]. intros d Hd. apply Hnl. now right.
      * cbn [rest]. cbn in Hlen. lia.
      * rewrite Hq. cbn [app]. exists q, (tl ++ [p]). auto.
Qed.

Lemma plus_dot_head m (p : pos) (q : pos) :
  no_line_feed (rest p) ->
  head (rmatch m (plus dot) p) = Some q ->
  rest p <> [] /\ rest q = [] /\ caps q = caps p.
Proof.
  intros Hnl. rewrite rmatch_plus.
  destruct (rest p) as [|c s] eqn:E.
  - now rewrite (rmatch_dot_nil m p E).
  - rewrite (rmatch_dot_cons m p c s E) by (apply Hnl; now left).
    cbn [flat_map]. rewrite app_nil_r. cbn [rest].
    destruct (star_dot_head m (length s) (mkPos (Some c) s (caps p)))
      as (q' & tl & Hq & Hr & Hcaps).
    + cbn [rest]. intros d Hd. apply Hnl. now right.
    + reflexivity.
    + cbn [rest] in Hq. rewrite Hq. cbn [head]. intros [= <-]. auto.
Qed.

Lemma rmatch_cat m (a b : regex) (p : pos) :
  rmatch m (Cat a b) p = flat_map (rmatch m b) (rmatch m a p).
Proof. reflexivity. Qed.

Lemma rmatch_star m g (a : regex) (p : pos) :
  rmatch m (Star g a) p = star_iter g (rmatch m a) (length (rest p)) p.
Proof. reflexivity. Qed.

Lemma rmatch_grp m i (a : regex) (p : pos) :
  rmatch m (Grp i a) p = List.map (set_cap i p) (rmatch m a p).
Proof. reflexivity. Qed.

Lemma rmatch_opt m (a : regex) (p : pos) :
  rmatch m (Opt a) p = rmatch m a p ++ [p].
Proof. reflexivity. Qed.

Lemma head_map {A B} (f : A -> B) (l : list A) (y : B) :
  head (List.map f l) = Some y -> exists x, head l = Some x /\ y = f x.
Proof. destruct l as [|a l]; cbn; [discriminate|]. intros [= <-]. now exists a. Qed.

(** The first match of [line_regex] on a line without line feed reads
    the whole line, and its third group is the non-empty end of the line
    that follows the prefixes. *)
Lemma line_regex_text (line : str) (m : pos) :
  no_line_feed line ->
  re_match true line_regex line = Some m ->
  rest m = []
  /\ exists text, group 3 (caps m) = Some text /\ text <> []
                  /\ text `suffix_of` line.
Proof.
  intros Hnl. unfold re_match, line_regex.
  rewrite rmatch_cat. intros H.
  apply head_flat_map in H as (x1 & Hx1 & H). apply rmatch_suffix in Hx1.
  rewrite rmatch_cat in H.
  apply head_flat_map in H as (x2 & Hx2 & H). apply rmatch_suffix in Hx2.
  rewrite rmatch_cat in H.
  apply head_flat_map in H as (x3 & Hx3 & H). apply rmatch_suffix in Hx3.
  rewrite rmatch_grp in H. apply head_map in H as (q & Hq & ->).
  assert (Hsuf : rest x3 `suffix_of` line).
  { etrans; [exact Hx3|]. etrans; [exact Hx2|exact Hx1]. }
  apply plus_dot_head in Hq as (Hne & Hr & Hcaps);
    [|eapply no_line_feed_suffix; [exact Hsuf|exact Hnl]].
  unfold set_cap. cbn [rest caps group]. rewrite Hr. split; [reflexivity|].
  exists (rest x3). cbn [length]. rewrite Nat.sub_0_r, firstn_all.
  rewrite Nat.eqb_refl. auto.
Qed.

(** The first match of [explicit_option_keywords] on a line without line
    feed reads the whole line. *)
Lemma keyword_match_reads_line (line : str) (q : pos) :
  no_line_feed line ->
  re_match false explicit_option_keywords line = Some q ->
  rest q = [].
Proof.
  intros Hnl. unfold re_match, explicit_option_keywords.
  rewrite rmatch_cat. intros H.
  apply head_flat_map in H as (x1 & Hx1 & H). apply rmatch_suffix in Hx1.
  rewrite rmatch_cat in H.
  apply head_flat_map in H as (x2 & Hx2 & H). apply rmatch_suffix in Hx2.
  rewrite rmatch_cat in H.
  apply head_flat_map in H as (x3 & Hx3 & H). apply rmatch_suffix in Hx3.
  rewrite rmatch_cat in H.
  apply head_flat_map in H as (x4 & Hx4 & H). apply rmatch_suffix in Hx4.
  assert (Hsuf : rest x4 `suffix_of` line).
  { etrans; [exact Hx4|]. etrans; [exact Hx3|]. etrans; [exact Hx2|exact Hx1]. }
  rewrite rmatch_cat, rmatch_star in H.
  destruct (star_dot_head false (length (rest x4)) x4) as (y & tl & Hy & Hr & _);
    [eapply no_line_feed_suffix; [exact Hsuf|exact Hnl]|reflexivity|].
  rewrite Hy in H. cbn [flat_map] in H.
  rewrite rmatch_cat, rmatch_opt in H.
  assert (E : rmatch false (Chr (one_of ":-")) y = []) by (cbn [rmatch]; now rewrite Hr).
  rewrite E in H. cbn [app flat_map] in H.
  rewrite rmatch_star, Hr in H. cbn in H. now injection H as <-.
Qed.

Lemma keyword_line_leaves_nothing (line : str) :
  no_line_feed line ->
  is_option_keyword line = true ->
  sub_prefix explicit_option_keywords line = [].
Proof.
  intros Hnl. unfold is_option_keyword, sub_prefix.
  destruct (re_match false explicit_option_keywords line) as [q|] eqn:E;
    [|discriminate].
  intros _. eapply keyword_match_reads_line; eauto.
Qed.

Lemma not_blank_strip (s : str) : not_blank s -> strip s <> [].
Proof.
  intros (c & Hc & Hsp) E. destruct (strip_split s) as (a & b & Hs & Ha & Hb).
  rewrite E in Hs. cbn [app] in Hs. rewrite Hs in Hc.
  apply elem_of_app in Hc. destruct Hc as [Hc|Hc]; [apply Ha in Hc|apply Hb in Hc];
    congruence.
Qed.

Lemma strip_not_blank (s : str) : strip s <> [] -> not_blank s.
Proof.
  intros Hne. destruct (strip s) as [|c r] eqn:E; [congruence|].
  pose proof (strip_head _ _ _ E) as Hc.
  destruct (strip_split s) as (a & b & Hs & _).
  exists c. split; [|exact Hc]. rewrite Hs, E.
  apply elem_of_app. right. now left.
Qed.

Lemma suffix_of_stripped_not_blank (line t : str) :
  t <> [] -> t `suffix_of` strip line -> not_blank t.
Proof.
  intros Ht (k & Hk). destruct (exists_last Ht) as (r & c & ->).
  exists c. split; [apply elem_of_app; right; now left|].
  apply (strip_last line (k ++ r) c). now rewrite Hk, app_assoc.
Qed.

Lemma no_line_feed_strip (s : str) : no_line_feed s -> no_line_feed (strip s).
Proof.
  intros H c Hc. apply H. destruct (strip_occurs s) as (a & b & ->).
  apply elem_of_app. right. apply elem_of_app. now left.
Qed.

Lemma reader_step_blank strptime (st : reader_state) (line0 : str) :
  strip line0 = [] -> reader_step strptime st line0 = st.
Proof. intros H. unfold reader_step. now rewrite H. Qed.

Lemma reader_step_move strptime (st : reader_state) (line0 : str) :
  no_line_feed line0 -> strip line0 <> [] ->
  reader_move strptime (strip line0) st (reader_step strptime st line0).
Proof.
  intros Hnl Hne. unfold reader_step.
  apply truthy_iff in Hne as Ht. rewrite Ht. cbn [negb].
  destruct (re_match true line_regex (strip line0)) as [m|] eqn:Em;
    [|now apply stripped_line_always_matches in Hne].
  apply line_regex_text in Em as (_ & text & Hg & Htext & Hsuf);
    [|now apply no_line_feed_strip].
  rewrite Hg. change (default [] (Some text)) with text.
  apply truthy_iff in Htext as Htt.
  pose proof (suffix_of_stripped_not_blank _ _ Htext Hsuf) as Hnb.
  destruct (group 1 (caps m)) as [[|c ts]|].
  - rewrite Htt. destruct (current_message st) as [cur|] eqn:Ecur.
    + now apply move_continue.
    + now apply move_untimed.
  - replace (match current_message st with
             | Some cur => messages st ++ [cur]
             | None => messages st
             end) with (read_so_far st)
      by (unfold read_so_far; destruct (current_message st); [reflexivity|apply app_nil_r]).
    now apply move_timed.
  - rewrite Htt. destruct (current_message st) as [cur|] eqn:Ecur.
    + now apply move_continue.
    + now apply move_untimed.
Qed.

Lemma splitlines_no_linebreak (t : str) (l : str) (c : char) :
  l ∈ splitlines t -> c ∈ l -> is_linebreak c = false.
Proof.
  assert (H : (forall l, l ∈ splitlines t -> forall c, c ∈ l -> is_linebreak c = false)
              /\ (forall l, l ∈ splitlines (tail t) ->
                  forall c, c ∈ l -> is_linebreak c = false)).
  { clear l c. induction t as [|d t [IH1 IH2]]; cbn [tail].
    - split; intros l Hl; inversion Hl.
    - split; [|exact IH1]. intros l. cbn [splitlines].
      destruct (is_linebreak d) eqn:Ed.
      + intros Hl. apply elem_of_cons in Hl. destruct Hl as [->|Hl].
        * intros c Hc. inversion Hc.
        * destruct t as [|e t']; [inversion Hl|].
          destruct ((d =? 13) && (e =? 10))%N; [now apply IH2|now apply IH1].
      + destruct (splitlines t) as [|l0 ls0] eqn:E.
        * intros Hl. apply list_elem_of_singleton in Hl. subst l.
          intros c Hc. apply list_elem_of_singleton in Hc. now subst.
        * intros Hl. apply elem_of_cons in Hl. destruct Hl as [->|Hl].
          -- intros c Hc. apply elem_of_cons in Hc. destruct Hc as [->|Hc]; [exact Ed|].
             apply (IH1 l0); [now left|exact Hc].
          -- apply IH1. now right. }
  destruct H as [H _]. intros Hl Hc. exact (H l Hl c Hc).
Qed.

Lemma splitlines_no_line_feed (t l : str) : l ∈ splitlines t -> no_line_feed l.
Proof.
  intros Hl c Hc ->. pose proof (splitlines_no_linebreak t l 10%N Hl Hc). discriminate.
Qed.

(** An invariant of the reader is a property of its state that the
    blank lines leave alone and the three moves keep. *)
Lemma reader_fold_inv strptime (P : reader_state -> Prop) (lines : list str) :
  (forall l, l ∈ lines -> no_line_feed l) ->
  (forall line st st', P st -> reader_move strptime line st st' -> P st') ->
  forall st, P st -> P (fold_left (reader_step strptime) lines st).
Proof.
  intros Hnl Hmove. induction lines as [|l ls IH]; intros st Hst; cbn [fold_left];
    [exact Hst|].
  apply IH.
  - intros l' Hl'. apply Hnl. now right.
  - destruct (strip l) as [|c r] eqn:E.
    + now rewrite reader_step_blank.
    + eapply Hmove; [exact Hst|]. apply reader_step_move.
      * apply Hnl. now left.
      * rewrite E. discriminate.
Qed.

Lemma preprocess_read_so_far strptime (text : str) :
  preprocess_transcript strptime text
  = read_so_far (fold_left (reader_step strptime) (splitlines text)
                           (mkReader [] None 0)).
Proof.
  unfold preprocess_transcript. destruct text as [|c t].
  - reflexivity.
  - cbn [truthy negb]. unfold read_so_far.
    destruct (current_message _); [reflexivity|now rewrite app_nil_r].
Qed.

(** A property of every message that the reader establishes when it
    creates one and keeps when it extends one holds of its result. *)
Lemma reader_messages_inv strptime (Q : message -> Prop) (text : str) :
  (forall i ts dt user_name t,
      not_blank t ->
      Q (mkMessage i ts dt user_name (strip t) (lower (strip t)) false)) ->
  (forall cur t, Q cur -> not_blank t -> Q (append_text cur t)) ->
  Forall Q (preprocess_transcript strptime text).
Proof.
  intros Hnew Happ. rewrite preprocess_read_so_far.
  apply (reader_fold_inv strptime (fun st => Forall Q (read_so_far st))
                         (splitlines text)).
  - intros l. apply splitlines_no_line_feed.
  - intros line st st' Hst Hmove.
    destruct Hmove as [ts u t Hts Ht Hsuf|cur t Hcur Ht Hsuf|t Hcur Ht Hsuf];
      unfold read_so_far in *; cbn [messages current_message].
    + apply Forall_app. split; [exact Hst|]. constructor; [|constructor].
      now apply Hnew.
    + rewrite Hcur in Hst. apply Forall_app in Hst as [Hm Hc].
      apply Forall_app. split; [exact Hm|]. constructor; [|constructor].
      apply Happ; [|exact Ht]. now inversion Hc.
    + rewrite Hcur in Hst. apply Forall_app in Hst as [Hm _].
      apply Forall_app. split; [exact Hm|]. constructor; [|constructor].
      now apply Hnew.
  - constructor.
Qed.

Lemma not_blank_app_r (a b : str) : not_blank b -> not_blank (a ++ b).
Proof. intros (c & Hc & H). exists c. split; [|exact H]. apply elem_of_app. now right. Qed.

Lemma reader_message_not_blank strptime (text : str) :
  Forall (fun m => not_blank (original_text m)) (preprocess_transcript strptime text).
Proof.
  apply reader_messages_inv.
  - intros i ts dt who t Ht. cbn [original_text].
    apply strip_not_blank. rewrite strip_idem. now apply not_blank_strip.
  - intros cur t _ Ht. cbn [append_text original_text].
    now do 2 apply not_blank_app_r.
Qed.

(** X2: no message that preprocess_transcript returns has an
    original_text that is empty or made of white space only. *)
Theorem reader_text_is_never_blank strptime (text : str) :
  Forall (fun m => strip (original_text m) <> [])
         (preprocess_transcript strptime text).
Proof.
  eapply Forall_impl; [apply reader_message_not_blank|]. cbn beta.
  intros m Hm. now apply not_blank_strip.
Qed.

Lemma numbered_move strptime line (st st' : reader_state) :
  numbered st -> reader_move strptime line st st' -> numbered st'.
Proof.
  intros (Hids & Hc & Hnone) Hmove.
  destruct Hmove as [ts u t Hts Ht Hsuf|cur t Hcur Ht Hsuf|t Hcur Ht Hsuf];
    unfold numbered, read_so_far in *; cbn [messages current_message message_id_counter].
  - split; [|split; [lia|discriminate]].
    rewrite map_app, Hids. cbn [List.map id].
    replace (Z.to_nat (message_id_counter st + 1))
      with (Z.to_nat (message_id_counter st) + 1)%nat by lia.
    rewrite seq_app, map_app. cbn [seq List.map]. do 3 f_equal. lia.
  - split; [|split; [exact Hc|discriminate]].
    rewrite Hcur in Hids. rewrite map_app in *. exact Hids.
  - specialize (Hnone Hcur). rewrite Hnone in *. rewrite Hcur in Hids.
    rewrite app_nil_r in Hids. cbn in Hids.
    destruct (messages st); [|discriminate].
    split; [reflexivity|]. split; [lia|discriminate].
Qed.

Lemma reader_numbered strptime (text : str) :
  numbered (fold_left (reader_step strptime) (splitlines text) (mkReader [] None 0)).
Proof.
  apply (reader_fold_inv strptime numbered).
  - intros l. apply splitlines_no_line_feed.
  - intros line st st'. apply numbered_move.
  - repeat split; cbn; lia.
Qed.

(** X3: the ids of the messages that preprocess_transcript returns are
    1, 2, ..., n in this order, n being the number of messages. *)
Theorem reader_ids_count_from_one strptime (text : str) :
  List.map id (preprocess_transcript strptime text)
  = List.map Z.of_nat (seq 1 (length (preprocess_transcript strptime text))).
Proof.
  rewrite preprocess_read_so_far.
  destruct (reader_numbered strptime text) as (Hids & Hc & _).
  pose proof (f_equal (@length Z) Hids) as Hlen.
  rewrite !length_map, length_seq in Hlen. now rewrite Hlen.
Qed.

Lemma counter_bound strptime (lines : list str) (st : reader_state) :
  (forall l, l ∈ lines -> no_line_feed l) ->
  message_id_counter (fold_left (reader_step strptime) lines st)
  <= message_id_counter st
     + len (List.filter (fun l => truthy (strip l)) lines).
Proof.
  unfold len. revert st. induction lines as [|l ls IH]; intros st Hnl; cbn [fold_left List.filter].
  - cbn. lia.
  - assert (Hls : forall l', l' ∈ ls -> no_line_feed l') by (intros l' H; apply Hnl; now right).
    specialize (IH (reader_step strptime st l) Hls).
    destruct (strip l) as [|c r] eqn:E; cbn [truthy].
    + rewrite (reader_step_blank _ _ _ E) in *. exact IH.
    + assert (Hm : reader_move strptime (strip l) st (reader_step strptime st l)).
      { apply reader_step_move; [apply Hnl; now left|rewrite E; discriminate]. }
      remember (reader_step strptime st l) as st' eqn:Est. clear Est.
      cbn [length]. destruct Hm; cbn [message_id_counter] in IH; lia.
Qed.

(** X4: preprocess_transcript returns at most as many messages as the
    transcript has lines that are not blank. *)
Theorem reader_count_is_bounded_by_lines strptime (text : str) :
  (length (preprocess_transcript strptime text)
   <= length (List.filter (fun l => truthy (strip l)) (splitlines text)))%nat.
Proof.
  rewrite preprocess_read_so_far.
  destruct (reader_numbered strptime text) as (Hids & Hc & _).
  pose proof (f_equal (@length Z) Hids) as Hlen.
  rewrite !length_map, length_seq in Hlen.
  pose proof (counter_bound strptime (splitlines text) (mkReader [] None 0)
                (fun l => splitlines_no_line_feed text l)) as Hb.
  cbn [message_id_counter] in Hb. unfold len in Hb. lia.
Qed.

Lemma untimed_move strptime line (st st' : reader_state) :
  numbered st /\ Forall untimed_is_first (read_so_far st) ->
  reader_move strptime line st st' ->
  numbered st' /\ Forall untimed_is_first (read_so_far st').
Proof.
  intros [Hn Hq] Hmove. split; [eapply numbered_move; eauto|].
  destruct Hn as (_ & _ & Hnone).
  destruct Hmove as [ts u t Hts Ht Hsuf|cur t Hcur Ht Hsuf|t Hcur Ht Hsuf];
    unfold read_so_far in *; cbn [messages current_message].
  - apply Forall_app. split; [exact Hq|]. constructor; [|constructor]. exact Hts.
  - rewrite Hcur in Hq. apply Forall_app in Hq as [Hm Hc].
    apply Forall_app. split; [exact Hm|]. constructor; [|constructor].
    inversion Hc as [|? ? Hcur' _]; subst. exact Hcur'.
  - rewrite Hcur in Hq. apply Forall_app in Hq as [Hm _].
    apply Forall_app. split; [exact Hm|]. constructor; [|constructor].
    unfold untimed_is_first. cbn. rewrite (Hnone Hcur). auto.
Qed.

(** X5: a message that preprocess_transcript returns with timestamp_str
    None has id 1, timestamp None and user Unknown (it is the message
    opened by lines that precede the first timestamp); the timestamp_str
    of every other message is a non-empty text. *)
Theorem reader_untimed_message_is_first strptime (text : str) :
  Forall untimed_is_first (preprocess_transcript strptime text).
Proof.
  rewrite preprocess_read_so_far.
  apply (reader_fold_inv strptime
           (fun st => numbered st /\ Forall untimed_is_first (read_so_far st))
           (splitlines text)).
  - intros l. apply splitlines_no_line_feed.
  - intros line st st'. apply untimed_move.
  - split; [repeat split; cbn; lia|constructor].
Qed.

Lemma fold_keeps_current strptime (lines : list str) (st : reader_state) :
  (forall l, l ∈ lines -> no_line_feed l) ->
  current_message (fold_left (reader_step strptime) lines st) = None ->
  current_message st = None /\ Forall (fun l => strip l = []) lines.
Proof.
  revert st. induction lines as [|l ls IH]; intros st Hnl; cbn [fold_left].
  - intros H. split; [exact H|constructor].
  - intros H. apply IH in H as [Hc Hb]; [|intros l' H'; apply Hnl; now right].
    destruct (strip l) as [|c r] eqn:E.
    + rewrite (reader_step_blank _ _ _ E) in Hc. split; [exact Hc|].
      constructor; [exact E|exact Hb].
    + assert (Hm : reader_move strptime (strip l) st (reader_step strptime st l)).
      { apply reader_step_move; [apply Hnl; now left|rewrite E; discriminate]. }
      remember (reader_step strptime st l) as st' eqn:Est. clear Est.
      destruct Hm; discriminate.
Qed.

(** X6: preprocess_transcript returns the empty list exactly when every
    line of the transcript is blank (the empty transcript included). *)
Theorem reader_result_is_empty_iff_blank strptime (text : str) :
  preprocess_transcript strptime text = []
  <-> Forall (fun l => strip l = []) (splitlines text).
Proof.
  rewrite preprocess_read_so_far. split.
  - intros H. unfold read_so_far in H. apply app_eq_nil in H as [_ H].
    destruct (current_message _) eqn:E; [discriminate|].
    apply fold_keeps_current in E as [_ E]; [exact E|].
    intros l. apply splitlines_no_line_feed.
  - intros H.
    assert (E : fold_left (reader_step strptime) (splitlines text) (mkReader [] None 0)
                = mkReader [] None 0).
    { generalize (mkReader [] None 0). induction H as [|l ls Hl _ IH]; intros st;
        cbn [fold_left]; [reflexivity|].
      now rewrite reader_step_blank by exact Hl. }
    now rewrite E.
Qed.

(** ** The option extractor *)

(** One turn of the extractor's loop adds nothing or the stripped line. *)
Lemma extract_step_adds (st : extract_state) (line : str) :
  no_line_feed line ->
  options (extract_step st line) = options st
  \/ (strip line <> [] /\ options (extract_step st line) = options st ++ [strip line]).
Proof.
  intros Hnl. unfold extract_step.
  destruct (truthy (strip line)) eqn:Et; cbn [negb orb]; [|now left].
  apply truthy_iff in Et.
  destruct (is_only_marker (strip line)); [now left|].
  destruct (is_option_keyword (strip line)) eqn:Ek.
  - rewrite keyword_line_leaves_nothing; [now left| |exact Ek].
    now apply no_line_feed_strip.
  - repeat match goal with
           | |- context [if ?b then _ else _] => destruct b
           end; cbn [options]; auto.
Qed.

Lemma extract_fold_sublist (lines : list str) (st : extract_state) (pre : list str) :
  (forall l, l ∈ lines -> no_line_feed l) ->
  sublist (options st) pre -> Forall (fun o => o <> []) (options st) ->
  sublist (options (fold_left extract_step lines st)) (pre ++ List.map strip lines)
  /\ Forall (fun o => o <> []) (options (fold_left extract_step lines st)).
Proof.
  revert st pre. induction lines as [|l ls IH]; intros st pre Hnl Hsub Hne;
    cbn [fold_left List.map].
  - now rewrite app_nil_r.
  - replace (pre ++ strip l :: List.map strip ls)
      with ((pre ++ [strip l]) ++ List.map strip ls) by now rewrite <- app_assoc.
    apply IH.
    + intros l' H. apply Hnl. now right.
    + destruct (extract_step_adds st l) as [E|[_ E]]; [apply Hnl; now left| |]; rewrite E.
      * now apply sublist_inserts_r.
      * now apply sublist_app.
    + destruct (extract_step_adds st l) as [E|[Hl E]]; [apply Hnl; now left| |]; rewrite E.
      * exact Hne.
      * apply Forall_app. split; [exact Hne|]. now repeat constructor.
Qed.

Lemma map_filter_sublist {A B} (f : A -> B) (p : A -> bool) (l : list A) :
  sublist (List.map f (List.filter p l)) (List.map f l).
Proof.
  induction l as [|a l IH]; cbn [List.filter List.map]; [constructor|].
  destruct (p a); cbn [List.map]; [now apply sublist_skip|now apply sublist_cons].
Qed.

Lemma extract_options_sublist (text : str) :
  sublist (extract_options_from_text text) (List.map strip (splitlines text)).
Proof.
  unfold extract_options_from_text.
  destruct (extract_fold_sublist (splitlines text) (mkExtract [] false) [])
    as [Hsub _]; [apply splitlines_no_line_feed|constructor|constructor|].
  cbn [app] in Hsub.
  set (found := options (fold_left extract_step (splitlines text) (mkExtract [] false))) in *.
  destruct (truthy found) eqn:Ef; cbn [negb andb]; [auto|].
  destruct ((len (splitlines text) <=? MAX_LINES_FOR_HEURISTIC_OPTION_BLOCK)
            && (len text <? MAX_LENGTH_FOR_HEURISTIC_OPTION_BLOCK)); [|auto].
  match goal with |- context [if ?b then _ else _] => destruct b end; [|auto].
  destruct found; [|discriminate]. cbn [app]. apply map_filter_sublist.
Qed.

(** X7: the options that extract_options_from_text returns are stripped
    lines of the text, in the order of the text, a line giving at most
    one option, and none of them is empty. *)
Theorem extracted_options_are_lines_in_order (text : str) :
  sublist (extract_options_from_text text) (List.map strip (splitlines text))
  /\ Forall (fun o => o <> []) (extract_options_from_text text).
Proof.
  split; [apply extract_options_sublist|].
  unfold extract_options_from_text.
  destruct (extract_fold_sublist (splitlines text) (mkExtract [] false) [])
    as [_ Hne]; [apply splitlines_no_line_feed|constructor|constructor|].
  set (found := options (fold_left extract_step (splitlines text) (mkExtract [] false))) in *.
  destruct (truthy found) eqn:Ef; cbn [negb andb]; [auto|].
  destruct ((len (splitlines text) <=? MAX_LINES_FOR_HEURISTIC_OPTION_BLOCK)
            && (len text <? MAX_LENGTH_FOR_HEURISTIC_OPTION_BLOCK)); [|auto].
  match goal with |- context [if ?b then _ else _] => destruct b end; [|auto].
  destruct found; [|discriminate]. cbn [app].
  apply Forall_forall. intros o Ho. apply elem_of_map in Ho as (l & -> & Hl).
  apply elem_of_filter' in Hl as [_ Hl]. now apply truthy_iff.
Qed.

(** A turn of the loop on a line that opens with an option keyword. *)
Lemma keyword_turn (st : extract_state) (line : str) :
  no_line_feed line ->
  is_only_marker (strip line) = false ->
  is_option_keyword (strip line) = true ->
  extract_step st line = mkExtract (options st) true.
Proof.
  intros Hnl Hm Hk. unfold extract_step.
  assert (Ht : truthy (strip line) = true).
  { destruct (strip line); [discriminate Hk|reflexivity]. }
  rewrite Ht, Hm, Hk. cbn [negb orb].
  rewrite keyword_line_leaves_nothing; [reflexivity| |exact Hk].
  now apply no_line_feed_strip.
Qed.

Lemma splitlines_whole (s : str) :
  s <> [] -> (forall c, c ∈ s -> is_linebreak c = false) -> splitlines s = [s].
Proof.
  intros Hne Hs. induction s as [|c s IH]; [congruence|]. cbn [splitlines].
  rewrite (Hs c) by now left.
  destruct s as [|d s']; [reflexivity|].
  rewrite IH; [reflexivity|discriminate|]. intros x Hx. apply Hs. now right.
Qed.

(** X8: for a text of one line, with characters below 128 only, that
    opens with an option keyword and is not a bare marker: the turn of
    the loop on that line adds no option, whatever the state (the pattern
    explicit_option_keywords reads to the end of the line, so
    option_text_on_keyword_line is empty), and the function returns the
    whole stripped line, through the fallback, when it is shorter than 80
    characters and the text shorter than 200, and nothing otherwise: what
    follows the keyword is never returned on its own. *)
Theorem keyword_line_remainder_is_never_extracted (line : str) :
  (forall c, c ∈ line -> (c < 128)%N /\ is_linebreak c = false) ->
  is_only_marker (strip line) = false ->
  is_option_keyword (strip line) = true ->
  (forall st, extract_step st line = mkExtract (options st) true)
  /\ extract_options_from_text line
     = if (len line <? MAX_LENGTH_FOR_HEURISTIC_OPTION_BLOCK)
          && (len (strip line) <? 80)
       then [strip line] else [].
Proof.
  intros Hline Hm Hk.
  assert (Hnl : no_line_feed line).
  { intros c Hc ->. destruct (Hline _ Hc) as [_ H]. discriminate H. }
  assert (Hturn : forall st, extract_step st line = mkExtract (options st) true)
    by (intros st; now apply keyword_turn).
  split; [exact Hturn|].
  assert (Hs : strip line <> []) by (intros E; rewrite E in Hk; discriminate Hk).
  assert (Hne : line <> []) by (intros ->; now apply Hs).
  unfold extract_options_from_text.
  rewrite (splitlines_whole line Hne) by (intros c Hc; now apply Hline).
  cbn [fold_left]. rewrite Hturn. cbn [options truthy negb andb List.filter].
  apply truthy_iff in Hs. rewrite Hs. cbn [List.map List.filter].
  change (len [line] <=? MAX_LINES_FOR_HEURISTIC_OPTION_BLOCK) with true.
  cbn [andb].
  destruct (len line <? MAX_LENGTH_FOR_HEURISTIC_OPTION_BLOCK); [|reflexivity].
  cbn [andb]. destruct (len (strip line) <? 80); reflexivity.
Qed.

Lemma keyword_line_remainder_is_never_extracted_witness :
  (forall c, c ∈ keyword_line -> (c < 128)%N /\ is_linebreak c = false)
  /\ is_only_marker (strip keyword_line) = false
  /\ is_option_keyword (strip keyword_line) = true
  /\ extract_step (mkExtract [] false) keyword_line = mkExtract [] true
  /\ extract_options_from_text keyword_line = [keyword_line].
Proof.
  assert (Hline : forall c, c ∈ keyword_line -> (c < 128)%N /\ is_linebreak c = false).
  { intros c Hc. apply list_elem_of_In in Hc. vm_compute in Hc.
    repeat (destruct Hc as [<-|Hc]; [split; [reflexivity|reflexivity]|]).
    destruct Hc. }
  destruct (keyword_line_remainder_is_never_extracted keyword_line Hline
              eq_refl eq_refl) as [Hturn Hall].
  split; [exact Hline|]. split; [reflexivity|]. split; [reflexivity|].
  split; [apply Hturn|]. rewrite Hall. reflexivity.
Defined.

(** ** Pass 1: the two sections of a stem message *)

Lemma split_step_inv (st : split_state) (line : str) (kept : list str) :
  split_inv st kept ->
  split_inv (split_step st line)
            (kept ++ List.filter kept_line [strip line]).
Proof.
  intros [Hk Hs]. unfold split_step, kept_line. cbn [List.filter].
  destruct (truthy (strip line)); cbn [negb orb andb];
    [|rewrite app_nil_r; now split].
  destruct (is_only_marker (strip line)); cbn [negb];
    [rewrite app_nil_r; now split|].
  assert (Hin : split_inv (mkSplit in_option (stem_lines st)
                                   (internal_options st ++ [strip line]))
                          (kept ++ [strip line])).
  { split; cbn; [now rewrite app_assoc, Hk|discriminate]. }
  destruct (current_section st) eqn:Esec; cbn [is_in_stem negb andb].
  - assert (Hstem : split_inv (mkSplit in_stem (stem_lines st ++ [strip line])
                                       (internal_options st))
                              (kept ++ [strip line])).
    { split; cbn; [|auto]. rewrite (Hs eq_refl) in *. rewrite !app_nil_r in *.
      now rewrite Hk. }
    repeat match goal with
           | |- context [if ?b then _ else _] => destruct b
           end; auto.
  - repeat match goal with
           | |- context [if ?b then _ else _] => destruct b
           end; auto.
Qed.

Lemma filter_app' {A} (p : A -> bool) (l k : list A) :
  List.filter p (l ++ k) = List.filter p l ++ List.filter p k.
Proof. apply List.filter_app. Qed.

(** X9: Pass 1 splits the lines it keeps of a stem message (stripped, not
    empty, not a bare marker) into the stem lines followed by the
    internal options, in the order of the text, and the section is
    still the stem section only when there is no internal option. *)
Theorem stem_message_splits_in_two_sections (text : str) :
  stem_lines (split_stem text) ++ internal_options (split_stem text)
  = kept_lines text
  /\ (current_section (split_stem text) = in_stem ->
      internal_options (split_stem text) = []).
Proof.
  unfold split_stem, kept_lines.
  assert (H : forall lines st kept,
             split_inv st kept ->
             split_inv (fold_left split_step lines st)
                       (kept ++ List.filter kept_line (List.map strip lines))).
  { induction lines as [|l ls IH]; intros st kept Hst; cbn [fold_left List.map].
    - cbn. now rewrite app_nil_r.
    - change (strip l :: List.map strip ls) with ([strip l] ++ List.map strip ls).
      rewrite filter_app', app_assoc. apply IH. now apply split_step_inv. }
  apply (H (splitlines text) (mkSplit in_stem [] []) []).
  split; reflexivity.
Qed.

(** ** The dictionary of stems *)

Lemma append_block_Forall (P : Z * Question.t -> Prop) (d : questions) (k : Z)
    (b : option_block) :
  (forall q, P (k, q) -> P (k, add_block b q)) ->
  Forall P d -> Forall P (append_block k b d).
Proof.
  intros Hadd Hd. induction d as [|[k' q] d IH]; cbn [append_block]; [constructor|].
  apply Forall_cons in Hd as [H1 H2].
  destruct (Z.eqb_spec k k') as [->|Hne]; constructor; auto.
Qed.

Lemma dict_get_Some_elem {V} (d : list (Z * V)) (k : Z) (v : V) :
  dict_get k d = Some v -> (k, v) ∈ d.
Proof.
  induction d as [|[k' v'] d IH]; cbn [dict_get]; [discriminate|].
  destruct (Z.eqb_spec k k') as [->|Hne].
  - intros [= ->]. now left.
  - intros H. right. now apply IH.
Qed.

Lemma pass1_step_entries (msgs : list message) (g : grouping) (msg : message) :
  msg ∈ msgs ->
  Forall (entry_from msgs) (potential_questions g) ->
  Forall (entry_from msgs) (potential_questions (pass1_step g msg)).
Proof.
  intros Hin Hg. unfold pass1_step.
  destruct (is_potential_stem msg) eqn:Es; [|exact Hg].
  assert (Hnew : forall opts,
            entry_from msgs (id msg, Question.mk msg (stem_text_of (original_text msg)) opts)).
  { intros opts. repeat split; auto. }
  destruct (truthy (internal_options (split_stem (original_text msg))));
    cbn [potential_questions]; rewrite ?append_block_dict_set;
    (apply dict_set_Forall; [exact Hg|]);
    cbn [add_block Question.stem_message Question.stem_text_only Question.options];
    apply Hnew.
Qed.

Lemma pass1_entries (msgs : list message) :
  Forall (entry_from msgs) (potential_questions (pass1 msgs)).
Proof.
  unfold pass1.
  assert (H : forall l g, (forall m, m ∈ l -> m ∈ msgs) ->
                          Forall (entry_from msgs) (potential_questions g) ->
                          Forall (entry_from msgs)
                                 (potential_questions (fold_left pass1_step l g))).
  { induction l as [|m l IH]; intros g Hsub Hg; cbn [fold_left]; [exact Hg|].
    apply IH; [intros m' H; apply Hsub; now right|].
    apply pass1_step_entries; [apply Hsub; now left|exact Hg]. }
  apply H; [auto|constructor].
Qed.

Lemma pass2_step_entries ratio (msgs all : list message) (g : grouping)
    (im : nat * message) :
  Forall (entry_from all) (potential_questions g) ->
  Forall (entry_from all) (potential_questions (pass2_step ratio msgs g im)).
Proof.
  intros Hg. destruct im as [i msg]. unfold pass2_step.
  destruct (is_potential_stem msg || bool_decide (id msg ∈ associated_option_message_ids g));
    [exact Hg|].
  destruct (truthy (extract_options_from_text (original_text msg))); [|exact Hg].
  assert (Hatt : forall k b, Forall (entry_from all) (potential_questions (attach g k b))).
  { intros k b. unfold attach. cbn [potential_questions].
    apply append_block_Forall; [|exact Hg]. intros q Hq. exact Hq. }
  destruct (adjacent_stem msgs g i); [apply Hatt|].
  unfold associate_by_similarity.
  destruct (similarity_target ratio (potential_questions g) msg _) as [[b s]|];
    [apply Hatt|exact Hg].
Qed.

Lemma associate_entries ratio (msgs : list message) :
  Forall (entry_from msgs) (potential_questions (associate ratio msgs)).
Proof.
  unfold associate, pass2. generalize (enumerate msgs) at 1. intros l.
  pose proof (pass1_entries msgs) as H. revert H. generalize (pass1 msgs).
  induction l as [|im l IH]; intros g Hg; cbn [fold_left]; [exact Hg|].
  apply IH. now apply pass2_step_entries.
Qed.

Lemma pass1_fold_keys_flagged (l : list message) (g : grouping) (k : Z) :
  k ∈ keys (potential_questions (fold_left pass1_step l g))
  <-> k ∈ keys (potential_questions g)
      \/ exists m, m ∈ l /\ is_potential_stem m = true /\ id m = k.
Proof.
  revert g. induction l as [|m l IH]; intros g; cbn [fold_left].
  - split; [auto|]. intros [H|(m & Hm & _)]; [exact H|inversion Hm].
  - rewrite IH. unfold pass1_step.
    destruct (is_potential_stem m) eqn:Es.
    + assert (Hk : k ∈ keys (potential_questions
                     (if truthy (internal_options (split_stem (original_text m)))
                      then mkGrouping
                             (append_block (id m)
                                (mkBlock (id m) (internal_options (split_stem (original_text m))) internal)
                                (dict_set (id m)
                                   (Question.mk m (stem_text_of (original_text m)) [])
                                   (potential_questions g)))
                             ({[id m]} ∪ associated_option_message_ids g)
                      else mkGrouping
                             (dict_set (id m)
                                (Question.mk m (stem_text_of (original_text m)) [])
                                (potential_questions g))
                             (associated_option_message_ids g)))
                <-> k = id m \/ k ∈ keys (potential_questions g)).
      { destruct (truthy _); cbn [potential_questions];
          rewrite ?append_block_keys; apply dict_set_keys_elem. }
      rewrite Hk. split.
      * intros [[->|H]|(m' & Hm' & Hf & Hid)]; [right; exists m; repeat split; auto; now left|auto|].
        right. exists m'. repeat split; auto. now right.
      * intros [H|(m' & Hm' & Hf & Hid)]; [auto|].
        apply elem_of_cons in Hm'. destruct Hm' as [->|Hm']; [auto|].
        right. exists m'. auto.
    + split.
      * intros [H|(m' & Hm' & Hf & Hid)]; [auto|].
        right. exists m'. repeat split; auto. now right.
      * intros [H|(m' & Hm' & Hf & Hid)]; [auto|].
        apply elem_of_cons in Hm'. destruct Hm' as [->|Hm']; [congruence|].
        right. exists m'. auto.
Qed.

Lemma associate_keys ratio (msgs : list message) :
  keys (potential_questions (associate ratio msgs))
  = keys (potential_questions (pass1 msgs)).
Proof.
  unfold associate, pass2. generalize (enumerate msgs). intros l.
  generalize (pass1 msgs). induction l as [|im l IH]; intros g; cbn [fold_left];
    [reflexivity|]. now rewrite IH, pass2_step_keys.
Qed.

(** X10: after Pass 1 and Pass 2 the keys of potential_questions are the
    ids of the messages flagged as stems, none twice, and each entry
    holds a flagged message of the list under its id, with the stem text
    computed from its original text. *)
Theorem dictionary_keys_are_the_flagged_ids ratio (msgs : list message) :
  NoDup (keys (potential_questions (associate ratio msgs)))
  /\ (forall k, k ∈ keys (potential_questions (associate ratio msgs))
                <-> exists m, m ∈ msgs /\ is_potential_stem m = true /\ id m = k)
  /\ Forall (entry_from msgs) (potential_questions (associate ratio msgs)).
Proof.
  split; [|split].
  - rewrite associate_keys. apply pass1_has_inv.
  - intros k. rewrite associate_keys. unfold pass1.
    rewrite pass1_fold_keys_flagged. cbn [potential_questions keys List.map].
    split; [intros [H|H]; [inversion H|exact H]|auto].
  - apply associate_entries.
Qed.

(** ** The questions and the stems *)

Lemma StronglySorted_lt_NoDup (l : list Z) : StronglySorted Z.lt l -> NoDup l.
Proof.
  induction 1 as [|a l Hs IH Hall]; constructor; [|exact IH].
  intros Hin. rewrite Forall_forall in Hall. specialize (Hall a Hin). lia.
Qed.

Lemma NoDup_subset_length (l k : list Z) :
  NoDup l -> (forall x, x ∈ l -> x ∈ k) -> (length l <= length k)%nat.
Proof.
  intros Hnd Hsub. apply NoDup_incl_length.
  - now apply NoDup_ListNoDup.
  - intros x Hx. apply list_elem_of_In, Hsub, list_elem_of_In, Hx.
Qed.

Lemma dict_set_length {V} (d : list (Z * V)) (k : Z) (v : V) :
  (length (dict_set k v d) <= S (length d))%nat.
Proof.
  induction d as [|[k' v'] d IH]; cbn [dict_set length]; [lia|].
  destruct (k =? k'); cbn [length]; lia.
Qed.

Lemma append_block_length (d : questions) (k : Z) (b : option_block) :
  length (append_block k b d) = length d.
Proof.
  induction d as [|[k' q] d IH]; cbn [append_block length]; [reflexivity|].
  destruct (k =? k'); cbn [length]; lia.
Qed.

Lemma pass1_fold_length (l : list message) (g : grouping) :
  (length (potential_questions (fold_left pass1_step l g))
   <= length (potential_questions g) + length (List.filter is_potential_stem l))%nat.
Proof.
  revert g. induction l as [|m l IH]; intros g; cbn [fold_left List.filter]; [lia|].
  specialize (IH (pass1_step g m)). unfold pass1_step in *.
  destruct (is_potential_stem m); cbn [length]; [|lia].
  destruct (truthy (internal_options (split_stem (original_text m))));
    cbn [potential_questions] in IH; rewrite ?append_block_length in IH;
    pose proof (dict_set_length (potential_questions g) (id m)
                  (Question.mk m (stem_text_of (original_text m)) [])); lia.
Qed.

Lemma refine_questions_flagged ratio (msgs : list message) :
  Forall (fun q => exists m, m ∈ msgs /\ is_potential_stem m = true
                             /\ id m = Collated.stem_id q
                             /\ Collated.stem_text q = stem_text_of (original_text m))
         (refine_grouping_with_similarity ratio msgs).
Proof.
  unfold refine_grouping_with_similarity.
  destruct msgs as [|m0 msgs0] eqn:Em; cbn [truthy negb]; [constructor|].
  rewrite <- Em. clear Em m0 msgs0.
  apply Forall_forall. intros q Hq.
  apply pass3_elem in Hq as (qd & Hget & Heq & _ & _).
  apply dict_get_Some_elem in Hget.
  pose proof (associate_entries ratio msgs) as He.
  rewrite Forall_forall in He. destruct (He _ Hget) as [(Hin & Hf & Hid) Htxt].
  cbn [fst snd] in *. exists (Question.stem_message qd).
  rewrite Heq. cbn [Collated.stem_id Collated.stem_text]. auto.
Qed.

(** X11: every question that refine_grouping_with_similarity returns
    carries the id of a message flagged as a stem and the stem text
    computed from that message, and there are at most as many questions
    as flagged messages. *)
Theorem questions_come_from_flagged_messages ratio (msgs : list message) :
  Forall (fun q => exists m, m ∈ msgs /\ is_potential_stem m = true
                             /\ id m = Collated.stem_id q
                             /\ Collated.stem_text q = stem_text_of (original_text m))
         (refine_grouping_with_similarity ratio msgs)
  /\ (length (refine_grouping_with_similarity ratio msgs)
      <= length (List.filter is_potential_stem msgs))%nat.
Proof.
  split; [apply refine_questions_flagged|].
  unfold refine_grouping_with_similarity.
  destruct msgs as [|m0 msgs0] eqn:Em; cbn [truthy negb]; [cbn; lia|].
  rewrite <- Em. clear Em m0 msgs0.
  set (pq := potential_questions (associate ratio msgs)).
  transitivity (length (keys pq)).
  - rewrite <- (length_map Collated.stem_id).
    apply NoDup_subset_length.
    + apply StronglySorted_lt_NoDup, pass3_ids_increase.
    + intros k Hk. apply elem_of_map in Hk as (q & -> & Hq).
      apply pass3_elem in Hq as (qd & Hget & _).
      eapply dict_get_Some_key, Hget.
  - unfold pq, keys. rewrite length_map.
    assert (E : length (potential_questions (associate ratio msgs))
                = length (potential_questions (pass1 msgs))).
    { pose proof (f_equal (@length Z) (associate_keys ratio msgs)) as H.
      unfold keys in H. now rewrite !length_map in H. }
    rewrite E. unfold pass1.
    pose proof (pass1_fold_length msgs (mkGrouping [] ∅)) as H. cbn in H. exact H.
Qed.

(** ** Where a block comes from *)

Lemma pass1_step_blocks (msgs : list message) (g : grouping) (msg : message) :
  Forall (blocks_ok msgs) (potential_questions g) ->
  Forall (blocks_ok msgs) (potential_questions (pass1_step g msg)).
Proof.
  intros Hg. unfold pass1_step.
  destruct (is_potential_stem msg); [|exact Hg].
  destruct (truthy (internal_options (split_stem (original_text msg)))) eqn:Et;
    cbn [potential_questions]; rewrite ?append_block_dict_set;
    (apply dict_set_Forall; [exact Hg|]); unfold blocks_ok;
    cbn [add_block fst snd Question.options app].
  - constructor; [|constructor]. split; cbn; [now apply truthy_iff|reflexivity].
  - constructor.
Qed.

Lemma attach_blocks (msgs : list message) (g : grouping) (k : Z) (b : option_block) :
  block_ok msgs k b ->
  Forall (blocks_ok msgs) (potential_questions g) ->
  Forall (blocks_ok msgs) (potential_questions (attach g k b)).
Proof.
  intros Hb Hg. unfold attach. cbn [potential_questions].
  apply append_block_Forall; [|exact Hg].
  intros q Hq. unfold blocks_ok in *. cbn [fst snd add_block Question.options] in *.
  apply Forall_app. split; [exact Hq|]. now constructor.
Qed.

Lemma enumerate_from_nth {A} (l : list A) (a i : nat) (x : A) :
  (i, x) ∈ combine (seq a (length l)) l ->
  (a <= i)%nat /\ nth_error l (i - a) = Some x.
Proof.
  revert a. induction l as [|y l IH]; intros a; cbn [length seq combine].
  - intros H. inversion H.
  - intros H. apply elem_of_cons in H. destruct H as [[= -> ->]|H].
    + split; [lia|]. now rewrite Nat.sub_diag.
    + apply IH in H as [Hle Hn]. split; [lia|].
      replace (i - a)%nat with (S (i - S a)) by lia. exact Hn.
Qed.

Lemma enumerate_nth {A} (l : list A) (i : nat) (x : A) :
  (i, x) ∈ enumerate l -> nth_error l i = Some x.
Proof.
  intros H. apply enumerate_from_nth in H as [_ H]. now rewrite Nat.sub_0_r in H.
Qed.

Section Provenance.

Variable token_set_ratio : str -> str -> Z.

Lemma similarity_target_Some (pq : questions) (msg : message) (opts : list str)
    (b s : Z) :
  similarity_target token_set_ratio pq msg opts = Some (b, s) ->
  SIMILARITY_THRESHOLD <= s /\ b <> 0
  /\ Z.max 0 (id msg - 16) <= b < id msg.
Proof.
  unfold similarity_target.
  destruct (truthy (candidate_stem_ids pq msg)); [|discriminate].
  pose proof (best_match_spec token_set_ratio pq (options_preview opts)
                (candidate_stem_ids pq msg)) as Hspec. cbn zeta in Hspec.
  set (r := best_match token_set_ratio pq (options_preview opts)
              (candidate_stem_ids pq msg)) in *.
  unfold accepted.
  destruct (fst r) as [b'|] eqn:Eb; [|discriminate].
  destruct (b' =? 0) eqn:E0; cbn [negb andb]; [discriminate|].
  destruct (Z.leb_spec SIMILARITY_THRESHOLD (snd r)) as [Hle|Hlt]; [|discriminate].
  intros [= <- <-]. split; [exact Hle|]. split; [now apply Z.eqb_neq|].
  destruct Hspec as [(Hn & _)|(b0 & pre & post & Hb0 & Hl & _)]; [congruence|].
  assert (b0 = b') by congruence. subst b0.
  assert (Hin : b' ∈ candidate_stem_ids pq msg) by (rewrite Hl; set_solver).
  unfold candidate_stem_ids in Hin.
  assert (Hw : b' ∈ window_candidates pq (id msg)).
  { destruct (min_timestamp msg); [|exact Hin].
    now apply elem_of_filter' in Hin as [Hin _]. }
  now apply window_candidates_iff in Hw as [_ Hw].
Qed.

Lemma pass2_step_blocks (msgs : list message) (g : grouping) (im : nat * message) :
  nth_error msgs (fst im) = Some (snd im) ->
  Forall (blocks_ok msgs) (potential_questions g) ->
  Forall (blocks_ok msgs)
         (potential_questions (pass2_step token_set_ratio msgs g im)).
Proof.
  destruct im as [i msg]. cbn [fst snd]. intros Hnth Hg. unfold pass2_step.
  destruct (is_potential_stem msg) eqn:Es; cbn [orb]; [exact Hg|].
  destruct (bool_decide (id msg ∈ associated_option_message_ids g)); [exact Hg|].
  destruct (truthy (extract_options_from_text (original_text msg))) eqn:Et; [|exact Hg].
  apply truthy_iff in Et.
  assert (Hmsg : msg ∈ msgs).
  { apply list_elem_of_In. eapply nth_error_In, Hnth. }
  destruct (adjacent_stem msgs g i) as [k|] eqn:Ea.
  - apply attach_blocks; [|exact Hg]. split; [exact Et|]. cbn.
    unfold adjacent_stem in Ea. destruct i as [|i']; [discriminate|].
    destruct (nth_error msgs i') as [prev|] eqn:Ep; [|discriminate].
    destruct (dict_has (id prev) (potential_questions g)); [|discriminate].
    injection Ea as <-. exists i', prev, msg. auto.
  - unfold associate_by_similarity.
    destruct (similarity_target token_set_ratio (potential_questions g) msg _)
      as [[b s]|] eqn:E; [|exact Hg].
    apply similarity_target_Some in E as (Hs & Hb & Hw).
    apply attach_blocks; [|exact Hg]. split; [exact Et|]. cbn.
    repeat split; try lia. exists msg. auto.
Qed.

End Provenance.

(** X12: after Pass 1 and Pass 2 every option block holds at least one
    option text and its method tells where it comes from: an internal
    block comes from the stem message itself; an adjacent block from a
    message that is not a stem and follows, in the list, a message whose
    id is the stem id; a similarity block from a message that is not a
    stem, with a score of 65 or more and a stem id that is not 0 and lies
    at most 16 ids before the id of the source message. *)
Theorem attached_blocks_match_their_method ratio (msgs : list message) :
  Forall (blocks_ok msgs) (potential_questions (associate ratio msgs)).
Proof.
  unfold associate, pass2.
  assert (H1 : Forall (blocks_ok msgs) (potential_questions (pass1 msgs))).
  { unfold pass1. generalize msgs at 2. intros l.
    assert (H0 : Forall (blocks_ok msgs) (potential_questions (mkGrouping [] ∅)))
      by constructor.
    revert H0. generalize (mkGrouping [] ∅).
    induction l as [|m l IH]; intros g Hg; cbn [fold_left]; [exact Hg|].
    apply IH. now apply pass1_step_blocks. }
  assert (Hnth : forall im, im ∈ enumerate msgs -> nth_error msgs (fst im) = Some (snd im)).
  { intros [i m] H. now apply enumerate_nth. }
  revert Hnth H1. generalize (enumerate msgs) (pass1 msgs). intros l.
  induction l as [|im l IH]; intros g Hnth Hg; cbn [fold_left]; [exact Hg|].
  apply IH; [intros im' H; apply Hnth; now right|].
  apply pass2_step_blocks; [apply Hnth; now left|exact Hg].
Qed.

(** ** Removing duplicates twice *)

Lemma firsts_of_distinct {A} (key : A -> str) (l : list A) (seen : gset str) :
  NoDup (List.map key l) -> (forall x, x ∈ l -> key x ∉ seen) ->
  firsts key seen l = l.
Proof.
  revert seen. induction l as [|a l IH]; intros seen Hnd Hfresh; cbn [firsts];
    [reflexivity|].
  cbn [List.map] in Hnd. apply NoDup_cons in Hnd as [Ha Hnd].
  rewrite bool_decide_eq_false_2 by (apply Hfresh; now left).
  f_equal. apply IH; [exact Hnd|].
  intros x Hx Hin. apply elem_of_union in Hin. destruct Hin as [Hin|Hin].
  - apply elem_of_singleton in Hin. apply Ha. rewrite <- Hin.
    apply elem_of_map. now exists x.
  - eapply Hfresh; [right; exact Hx|exact Hin].
Qed.

(** X13: removing the duplicate options of Pass 3 a second time changes
    nothing. *)
Theorem unique_options_is_idempotent (cleaned : list str) :
  unique_options (unique_options cleaned) = unique_options cleaned.
Proof.
  rewrite !unique_options_firsts. apply firsts_of_distinct.
  - apply firsts_NoDup.
  - intros x _. set_solver.
Qed.

(** ** The chunker *)

Lemma enumerate_snoc {A} (l : list A) (x : A) :
  enumerate (l ++ [x]) = enumerate l ++ [(length l, x)].
Proof.
  unfold enumerate. rewrite length_app. cbn [length].
  rewrite Nat.add_1_r, seq_S.
  change (length l, x) with ((0 + length l)%nat, x).
  generalize 0%nat. induction l as [|y l IH]; intros k; cbn.
  - now rewrite Nat.add_0_r.
  - f_equal. rewrite <- Nat.add_succ_comm. apply IH.
Qed.

Lemma firstn_snoc {A} (l : list A) (i : nat) (x : A) :
  nth_error l i = Some x -> firstn (S i) l = firstn i l ++ [x].
Proof.
  revert i. induction l as [|y l IH]; intros [|i]; cbn; try discriminate.
  - now intros [= ->].
  - intros H. now rewrite <- (IH i H).
Qed.

Lemma length_slice {A} (a b : nat) (l : list A) :
  (b <= length l)%nat -> length (slice a b l) = (b - a)%nat.
Proof. intros H. unfold slice. rewrite length_skipn, length_firstn. lia. Qed.

Lemma slice_snoc {A} (l : list A) (a i : nat) (x : A) :
  (a <= i)%nat -> nth_error l i = Some x ->
  slice a (S i) l = slice a i l ++ [x].
Proof.
  intros Ha Hx. unfold slice. rewrite (firstn_snoc l i x Hx).
  assert (Hlen : length (firstn i l) = i).
  { assert (i < length l)%nat by (apply nth_error_Some; congruence).
    rewrite length_firstn. lia. }
  rewrite skipn_app, Hlen.
  replace (a - i)%nat with 0%nat by lia. reflexivity.
Qed.

Lemma elem_of_slice {A} (l : list A) (a b j : nat) (x : A) :
  (a <= j < b)%nat -> nth_error l j = Some x -> x ∈ slice a b l.
Proof.
  intros Hj Hx. unfold slice. apply list_elem_of_In.
  apply (nth_error_In _ (j - a)).
  rewrite nth_error_skipn.
  replace (a + (j - a))%nat with j by lia.
  rewrite nth_error_firstn.
  destruct (Nat.ltb_spec j b); [exact Hx|lia].
Qed.

Lemma truthy_slice {A} (l : list A) (a b : nat) :
  (b <= length l)%nat -> truthy (slice a b l) = true -> (a < b)%nat.
Proof.
  intros Hb Ht. pose proof (length_slice a b l Hb) as Hlen.
  destruct (slice a b l); [discriminate|]. cbn in Hlen. lia.
Qed.

Lemma covered_more (lines : list str) (j : nat) (cs : list str) (c : str) :
  covered lines j cs -> covered lines j (cs ++ [c]).
Proof.
  intros (a & b & Hj & Hb & Hin). exists a, b. repeat split; auto; try lia.
  apply elem_of_app. now left.
Qed.

Section Chunker.

Variable lines : list str.
Variables target_size overlap_lines : Z.
Hypothesis overlap_positive : 1 <= overlap_lines.

(** A turn that is not the last one. *)
Lemma chunk_step_inner (i : nat) (x : str) (st : chunker) :
  (S i < length lines)%nat -> nth_error lines i = Some x ->
  chunk_inv lines i st -> chunk_inv lines (S i) (chunk_step lines target_size overlap_lines st (i, x)).
Proof.
  intros Hi Hx (Hs & Hcur & Hpos & Hruns & Hcov).
  unfold chunk_step, len.
  replace (Z.of_nat i =? Z.of_nat (length lines) - 1) with false
    by (symmetry; apply Z.eqb_neq; lia).
  replace (Z.of_nat i <? Z.of_nat (length lines) - 1) with true
    by (symmetry; apply Z.ltb_lt; lia).
  rewrite orb_false_r.
  destruct ((target_size <? current_char_count st + (Z.of_nat (length x) + 1))
            && truthy (current_chunk_lines st)) eqn:Eflush.
  - apply andb_true_iff in Eflush as [_ Ht]. rewrite Hcur in Ht.
    apply truthy_slice in Ht; [|lia].
    set (s' := Z.to_nat (Z.max (Z.of_nat (start_index st))
                               (Z.of_nat i - overlap_lines + 1))).
    assert (Hs1 : (start_index st <= s')%nat) by (unfold s'; lia).
    assert (Hs2 : (s' <= i)%nat) by (unfold s'; lia).
    unfold chunk_inv.
    cbn [start_index current_chunk_lines chunks].
    replace (i + 1)%nat with (S i) by lia.
    split; [lia|]. split; [reflexivity|]. split; [lia|]. split.
    + apply Forall_app. split; [exact Hruns|]. constructor; [|constructor].
      exists (start_index st), i. split; [lia|]. now rewrite Hcur.
    + intros j Hj. destruct (Nat.lt_ge_cases j (start_index st)) as [Hlt|Hge].
      * apply covered_more. now apply Hcov.
      * exists (start_index st), i. split; [lia|]. split; [lia|].
        apply elem_of_app. right. rewrite Hcur. now left.
  - unfold chunk_inv. cbn [start_index current_chunk_lines chunks].
    assert (Hgrow : current_chunk_lines st ++ [x] = slice (start_index st) (S i) lines).
    { rewrite Hcur. symmetry. now apply slice_snoc. }
    assert (Hstart : (if Z.of_nat (length (current_chunk_lines st ++ [x])) =? 1
                      then i else start_index st) = start_index st).
    { destruct (Z.eqb_spec (Z.of_nat (length (current_chunk_lines st ++ [x]))) 1)
        as [E|E]; [|reflexivity].
      rewrite Hgrow, length_slice in E by lia. lia. }
    rewrite Hstart. split; [lia|]. split; [exact Hgrow|]. split; [|auto].
    intros _. destruct i as [|i']; [lia|]. specialize (Hpos ltac:(lia)). lia.
Qed.

(** The last turn. *)
Lemma chunk_step_last (i : nat) (x : str) (st : chunker) :
  S i = length lines -> nth_error lines i = Some x ->
  chunk_inv lines i st ->
  current_chunk_lines (chunk_step lines target_size overlap_lines st (i, x)) = []
  /\ Forall (is_run lines) (chunks (chunk_step lines target_size overlap_lines st (i, x)))
  /\ forall j, (j < length lines)%nat -> covered lines j (chunks (chunk_step lines target_size overlap_lines st (i, x))).
Proof.
  intros Hi Hx (Hs & Hcur & Hpos & Hruns & Hcov).
  unfold chunk_step, len.
  replace (Z.of_nat i =? Z.of_nat (length lines) - 1) with true
    by (symmetry; apply Z.eqb_eq; lia).
  replace (Z.of_nat i <? Z.of_nat (length lines) - 1) with false
    by (symmetry; apply Z.ltb_ge; lia).
  rewrite orb_true_r. cbn [current_chunk_lines chunks].
  assert (Hlast : current_chunk_lines st ++ [x] = slice (start_index st) (S i) lines).
  { rewrite Hcur. symmetry. now apply slice_snoc. }
  rewrite Hlast. split; [reflexivity|]. split.
  - apply Forall_app. split; [exact Hruns|]. constructor; [|constructor].
    exists (start_index st), (S i). split; [lia|reflexivity].
  - intros j Hj. destruct (Nat.lt_ge_cases j (start_index st)) as [Hlt|Hge].
    + apply covered_more. now apply Hcov.
    + exists (start_index st), (S i). split; [lia|]. split; [lia|].
      apply elem_of_app. right. now left.
Qed.

Lemma chunk_prefix_inv (p : list str) :
  (exists q, q <> [] /\ lines = p ++ q) ->
  chunk_inv lines (length p) (fold_left (chunk_step lines target_size overlap_lines) (enumerate p) (mkChunker [] [] 0 0)).
Proof.
  induction p as [|x p IH] using rev_ind; intros (q & Hq & Hl).
  - unfold chunk_inv. cbn. split; [lia|]. split; [reflexivity|].
    split; [lia|]. split; [constructor|]. intros j Hj. lia.
  - rewrite enumerate_snoc, fold_left_app. cbn [fold_left].
    rewrite length_app. cbn [length]. rewrite Nat.add_1_r.
    assert (Hx : nth_error lines (length p) = Some x).
    { rewrite Hl, <- app_assoc. rewrite nth_error_app2 by lia.
      now rewrite Nat.sub_diag. }
    apply chunk_step_inner; [|exact Hx|].
    + rewrite Hl, !length_app. cbn [length]. destruct q; [congruence|cbn; lia].
    + apply IH. exists ([x] ++ q). split; [discriminate|]. now rewrite Hl, <- app_assoc.
Qed.

(** The loop on a transcript with at least one line. *)
Lemma chunk_loop_spec :
  lines <> [] ->
  current_chunk_lines (chunk_loop lines target_size overlap_lines) = []
  /\ Forall (is_run lines) (chunks (chunk_loop lines target_size overlap_lines))
  /\ forall j, (j < length lines)%nat ->
                covered lines j (chunks (chunk_loop lines target_size overlap_lines)).
Proof.
  intros Hne. destruct (exists_last Hne) as (p & x & Hl).
  assert (Henum : enumerate lines = enumerate p ++ [(length p, x)]).
  { rewrite Hl. apply enumerate_snoc. }
  unfold chunk_loop. rewrite Henum, fold_left_app. cbn [fold_left].
  apply chunk_step_last.
  - rewrite Hl, length_app. cbn. lia.
  - rewrite Hl, nth_error_app2 by lia. now rewrite Nat.sub_diag.
  - apply chunk_prefix_inv. exists [x]. split; [discriminate|exact Hl].
Qed.

End Chunker.

(** The last turn leaves no pending line, whatever the state. *)
Lemma chunk_step_last_current (lines : list str) (target_size overlap_lines : Z)
    (st : chunker) (i : nat) (x : str) :
  S i = length lines ->
  current_chunk_lines (chunk_step lines target_size overlap_lines st (i, x)) = [].
Proof.
  intros Hi. unfold chunk_step, len.
  replace (Z.of_nat i =? Z.of_nat (length lines) - 1) with true
    by (symmetry; apply Z.eqb_eq; lia).
  replace (Z.of_nat i <? Z.of_nat (length lines) - 1) with false
    by (symmetry; apply Z.ltb_ge; lia).
  rewrite orb_true_r. reflexivity.
Qed.

Lemma chunk_loop_current (lines : list str) (target_size overlap_lines : Z) :
  current_chunk_lines (chunk_loop lines target_size overlap_lines) = [].
Proof.
  destruct lines as [|l0 ls] eqn:E; [reflexivity|]. rewrite <- E.
  assert (Hne : lines <> []) by (rewrite E; discriminate).
  destruct (exists_last Hne) as (p & x & Hl).
  assert (Henum : enumerate lines = enumerate p ++ [(length p, x)]).
  { rewrite Hl. apply enumerate_snoc. }
  unfold chunk_loop. rewrite Henum, fold_left_app. cbn [fold_left].
  apply chunk_step_last_current. rewrite Hl, length_app. cbn. lia.
Qed.

Lemma chunk_step_count (lines : list str) (target_size overlap_lines : Z)
    (st : chunker) (il : nat * str) :
  (length (chunks (chunk_step lines target_size overlap_lines st il))
   <= S (length (chunks st)))%nat.
Proof.
  destruct il as [i line]. unfold chunk_step.
  destruct ((target_size <? current_char_count st + (len line + 1))
            && truthy (current_chunk_lines st)
            || (Z.of_nat i =? len lines - 1)).
  - destruct (Z.of_nat i <? len lines - 1); cbn [chunks];
      rewrite length_app; cbn; lia.
  - cbn [chunks]. lia.
Qed.

Lemma chunk_fold_count (lines : list str) (target_size overlap_lines : Z)
    (l : list (nat * str)) (st : chunker) :
  (length (chunks (fold_left (chunk_step lines target_size overlap_lines) l st))
   <= length (chunks st) + length l)%nat.
Proof.
  revert st. induction l as [|il l IH]; intros st; cbn [fold_left length]; [lia|].
  specialize (IH (chunk_step lines target_size overlap_lines st il)).
  pose proof (chunk_step_count lines target_size overlap_lines st il). lia.
Qed.

Lemma length_enumerate {A} (l : list A) : length (enumerate l) = length l.
Proof. unfold enumerate. rewrite length_combine, length_seq. lia. Qed.

(** X14: the loop of create_transcript_chunks always ends with
    current_chunk_lines empty, so the chunk appended after the loop is
    never added: the result is the chunks closed inside the loop, the
    blank ones left out. *)
Theorem trailing_chunk_is_never_added (text : str) (target_size overlap_lines : Z) :
  create_transcript_chunks text target_size overlap_lines
  = List.filter (fun chunk => truthy (strip chunk))
      (chunks (chunk_loop (splitlines text) target_size overlap_lines)).
Proof.
  unfold create_transcript_chunks. rewrite chunk_loop_current. cbn [truthy].
  destruct (splitlines text); reflexivity.
Qed.

Lemma length_filter_le {A} (p : A -> bool) (l : list A) :
  (length (List.filter p l) <= length l)%nat.
Proof. induction l as [|x l IH]; cbn; [lia|]. destruct (p x); cbn; lia. Qed.

(** X15: create_transcript_chunks returns at most as many chunks as the
    transcript has lines. *)
Theorem chunk_count_is_bounded_by_lines (text : str) (target_size overlap_lines : Z) :
  (length (create_transcript_chunks text target_size overlap_lines)
   <= length (splitlines text))%nat.
Proof.
  unfold create_transcript_chunks. rewrite chunk_loop_current. cbn [truthy].
  destruct (splitlines text) as [|l0 ls] eqn:E; [cbn; lia|]. cbn [negb truthy].
  rewrite <- E. etransitivity; [apply length_filter_le|].
  unfold chunk_loop.
  pose proof (chunk_fold_count (splitlines text) target_size overlap_lines
                (enumerate (splitlines text)) (mkChunker [] [] 0 0)) as H.
  rewrite length_enumerate in H. cbn in H. exact H.
Qed.

Lemma elem_of_join (sep : str) (ls : list str) (line : str) (c : char) :
  line ∈ ls -> c ∈ line -> c ∈ join sep ls.
Proof.
  intros Hl Hc. induction ls as [|l ls IH]; [inversion Hl|].
  apply elem_of_cons in Hl as [->|Hl].
  - destruct ls; cbn [join]; [exact Hc|]. apply elem_of_app. now left.
  - destruct ls as [|l' ls']; [inversion Hl|].
    change (join sep (l :: l' :: ls')) with (l ++ sep ++ join sep (l' :: ls')).
    apply elem_of_app. right. apply elem_of_app. right. now apply IH.
Qed.

Lemma join_not_blank (ls : list str) (line : str) :
  line ∈ ls -> strip line <> [] -> strip (join LF ls) <> [].
Proof.
  intros Hl Hne. apply not_blank_strip.
  destruct (strip_not_blank line Hne) as (c & Hc & Hs).
  exists c. split; [|exact Hs]. now apply (elem_of_join LF ls line).
Qed.

(** X16: with an overlap of one line or more, every line of the
    transcript that is not blank is a line of some returned chunk: no
    line is lost between two chunks. *)
Theorem every_line_is_in_a_chunk (text : str) (target_size overlap_lines : Z) :
  1 <= overlap_lines ->
  Forall (fun line =>
            strip line <> [] ->
            exists a b,
              line ∈ slice a b (splitlines text)
              /\ join LF (slice a b (splitlines text))
                 ∈ create_transcript_chunks text target_size overlap_lines)
         (splitlines text).
Proof.
  intros Hov. apply Forall_forall. intros line Hin Hne.
  unfold create_transcript_chunks. rewrite chunk_loop_current. cbn [truthy].
  destruct (splitlines text) as [|l0 ls] eqn:E; [inversion Hin|].
  cbn [negb truthy]. rewrite <- E in *.
  assert (Hlines : splitlines text <> []) by (rewrite E; discriminate).
  destruct (chunk_loop_spec (splitlines text) target_size overlap_lines Hov Hlines)
    as (_ & _ & Hcov).
  apply list_elem_of_In, In_nth_error in Hin as (j & Hj).
  assert (Hlt : (j < length (splitlines text))%nat)
    by (apply nth_error_Some; congruence).
  destruct (Hcov j Hlt) as (a & b & Hab & Hb & Hc).
  exists a, b.
  assert (Hline : line ∈ slice a b (splitlines text))
    by (now apply (elem_of_slice _ a b j)).
  split; [exact Hline|].
  apply list_elem_of_In, filter_In. split; [now apply list_elem_of_In|].
  apply truthy_iff. now apply (join_not_blank _ line).
Qed.

(** X17: with an overlap of one line or more, every returned chunk is a
    non-empty run of consecutive lines of the transcript joined by line
    feeds. *)
Theorem chunks_are_runs_of_lines (text : str) (target_size overlap_lines : Z) :
  1 <= overlap_lines ->
  Forall (is_run (splitlines text))
         (create_transcript_chunks text target_size overlap_lines).
Proof.
  intros Hov. unfold create_transcript_chunks. rewrite chunk_loop_current.
  cbn [truthy].
  destruct (splitlines text) as [|l0 ls] eqn:E; [constructor|].
  cbn [negb truthy]. rewrite <- E in *.
  assert (Hlines : splitlines text <> []) by (rewrite E; discriminate).
  destruct (chunk_loop_spec (splitlines text) target_size overlap_lines Hov Hlines)
    as (_ & Hruns & _).
  apply Forall_forall. intros c Hc.
  apply list_elem_of_In, filter_In in Hc as [Hc _].
  rewrite Forall_forall in Hruns. apply Hruns. now apply list_elem_of_In.
Qed.

Lemma chars_of_app (a b : list str) : chars_of (a ++ b) = chars_of a + chars_of b.
Proof.
  unfold chars_of. induction a as [|l a IH]; cbn [app fold_right]; [reflexivity|].
  rewrite IH. lia.
Qed.

Lemma chars_of_nonneg (a : list str) : 0 <= chars_of a.
Proof.
  unfold chars_of. induction a as [|l a IH]; cbn [fold_right]; [lia|].
  unfold len in *. lia.
Qed.

Section SmallTranscript.

Variable lines : list str.
Variables target_size overlap_lines : Z.
Hypothesis fits : chars_of lines <= target_size.

Lemma small_prefix (p : list str) :
  (exists q, q <> [] /\ lines = p ++ q) ->
  let st := fold_left (chunk_step lines target_size overlap_lines) (enumerate p)
                      (mkChunker [] [] 0 0) in
  chunks st = [] /\ current_chunk_lines st = p /\ current_char_count st = chars_of p.
Proof.
  induction p as [|x p IH] using rev_ind; intros (q & Hq & Hl); cbn zeta.
  - cbn. auto.
  - rewrite enumerate_snoc, fold_left_app. cbn [fold_left].
    destruct IH as (Hc & Hcur & Hcount).
    { exists ([x] ++ q). split; [discriminate|]. now rewrite Hl, <- app_assoc. }
    cbn zeta in Hc, Hcur, Hcount.
    set (st := fold_left _ (enumerate p) _) in *.
    assert (Hlen : (S (length p) < length lines)%nat).
    { rewrite Hl, !length_app. cbn [length]. destruct q; [congruence|cbn; lia]. }
    assert (Hfit : chars_of (p ++ [x]) <= target_size).
    { rewrite Hl, chars_of_app in fits. pose proof (chars_of_nonneg q). lia. }
    rewrite chars_of_app in Hfit. cbn [chars_of fold_right] in Hfit.
    unfold chunk_step, len.
    replace (Z.of_nat (length p) =? Z.of_nat (length lines) - 1) with false
      by (symmetry; apply Z.eqb_neq; lia).
    replace (target_size <? current_char_count st + (Z.of_nat (length x) + 1))
      with false by (symmetry; apply Z.ltb_ge; rewrite Hcount; unfold len in Hfit; lia).
    cbn [andb orb chunks current_chunk_lines current_char_count].
    rewrite Hc, Hcur, Hcount, chars_of_app. cbn [chars_of fold_right]. unfold len.
    split; [reflexivity|]. split; [reflexivity|]. lia.
Qed.

Lemma small_loop : lines <> [] ->
  chunks (chunk_loop lines target_size overlap_lines) = [join LF lines].
Proof.
  intros Hne. destruct (exists_last Hne) as (p & x & Hl).
  assert (Henum : enumerate lines = enumerate p ++ [(length p, x)]).
  { rewrite Hl. apply enumerate_snoc. }
  unfold chunk_loop. rewrite Henum, fold_left_app. cbn [fold_left].
  destruct (small_prefix p) as (Hc & Hcur & _).
  { exists [x]. split; [discriminate|exact Hl]. }
  cbn zeta in Hc, Hcur.
  set (st := fold_left _ (enumerate p) _) in *.
  unfold chunk_step, len.
  replace (Z.of_nat (length p) =? Z.of_nat (length lines) - 1) with true
    by (symmetry; apply Z.eqb_eq; rewrite Hl, length_app; cbn; lia).
  replace (Z.of_nat (length p) <? Z.of_nat (length lines) - 1) with false
    by (symmetry; apply Z.ltb_ge; rewrite Hl, length_app; cbn; lia).
  rewrite orb_true_r. cbn [chunks]. rewrite Hc, Hcur, <- Hl. reflexivity.
Qed.

End SmallTranscript.

(** X18: a transcript whose lines, each counted with one more character,
    fit in target_size gives one chunk, the lines joined by line feeds
    (or no chunk when that text is blank). *)
Theorem small_transcript_is_one_chunk (text : str) (target_size overlap_lines : Z) :
  chars_of (splitlines text) <= target_size ->
  create_transcript_chunks text target_size overlap_lines
  = List.filter (fun chunk => truthy (strip chunk)) [join LF (splitlines text)].
Proof.
  intros Hfit. unfold create_transcript_chunks. rewrite chunk_loop_current.
  cbn [truthy].
  destruct (splitlines text) as [|l0 ls] eqn:E; [reflexivity|].
  cbn [negb truthy]. rewrite <- E in *.
  rewrite small_loop; [reflexivity|exact Hfit|rewrite E; discriminate].
Qed.

Lemma every_line_is_in_a_chunk_witness :
  1 <= 2
  /\ Forall (fun line =>
               strip line <> [] ->
               exists a b,
                 line ∈ slice a b (splitlines five_lines)
                 /\ join LF (slice a b (splitlines five_lines))
                    ∈ create_transcript_chunks five_lines 6 2)
            (splitlines five_lines).
Proof. split; [lia|]. apply (every_line_is_in_a_chunk five_lines 6 2). lia. Defined.

Lemma chunks_are_runs_of_lines_witness :
  1 <= 2
  /\ Forall (is_run (splitlines five_lines)) (create_transcript_chunks five_lines 6 2).
Proof. split; [lia|]. apply (chunks_are_runs_of_lines five_lines 6 2). lia. Defined.

Lemma small_transcript_is_one_chunk_witness :
  chars_of (splitlines five_lines) <= 100
  /\ create_transcript_chunks five_lines 100 10 = [five_lines].
Proof.
  split; [vm_compute; discriminate|].
  rewrite (small_transcript_is_one_chunk five_lines 100 10); [reflexivity|].
  vm_compute. discriminate.
Defined.

(** ** Where the option texts come from *)

Lemma pass1_step_from (msgs : list message) (g : grouping) (msg : message) :
  msg ∈ msgs ->
  Forall (blocks_from msgs) (potential_questions g) ->
  Forall (blocks_from msgs) (potential_questions (pass1_step g msg)).
Proof.
  intros Hin Hg. unfold pass1_step.
  destruct (is_potential_stem msg); [|exact Hg].
  destruct (truthy (internal_options (split_stem (original_text msg)))) eqn:Et;
    cbn [potential_questions]; rewrite ?append_block_dict_set;
    (apply dict_set_Forall; [exact Hg|]); unfold blocks_from;
    cbn [add_block fst snd Question.options app].
  - constructor; [|constructor]. exists msg. split; [exact Hin|].
    split; [reflexivity|]. cbn [option_texts].
    apply Forall_forall. intros o Ho. now apply split_stem_options in Ho as [_ Ho].
  - constructor.
Qed.

Lemma attach_from (msgs : list message) (g : grouping) (k : Z) (b : option_block) :
  block_from msgs b ->
  Forall (blocks_from msgs) (potential_questions g) ->
  Forall (blocks_from msgs) (potential_questions (attach g k b)).
Proof.
  intros Hb Hg. unfold attach. cbn [potential_questions].
  apply append_block_Forall; [|exact Hg].
  intros q Hq. unfold blocks_from in *. cbn [fst snd add_block Question.options] in *.
  apply Forall_app. split; [exact Hq|]. now constructor.
Qed.

Lemma extracted_block_from (msgs : list message) (msg : message) (how : method) :
  msg ∈ msgs ->
  block_from msgs (mkBlock (id msg) (extract_options_from_text (original_text msg)) how).
Proof.
  intros Hin. exists msg. split; [exact Hin|]. split; [reflexivity|].
  cbn [option_texts]. apply Forall_forall. intros o Ho.
  pose proof (extract_options_sublist (original_text msg)) as Hsub.
  eapply elem_of_sublist in Ho; [|exact Hsub].
  apply elem_of_map in Ho as (line & -> & Hl). now exists line.
Qed.

Lemma pass2_step_from ratio (msgs all : list message) (g : grouping)
    (im : nat * message) :
  snd im ∈ all ->
  Forall (blocks_from all) (potential_questions g) ->
  Forall (blocks_from all) (potential_questions (pass2_step ratio msgs g im)).
Proof.
  destruct im as [i msg]. cbn [snd]. intros Hin Hg. unfold pass2_step.
  destruct (is_potential_stem msg || bool_decide (id msg ∈ associated_option_message_ids g));
    [exact Hg|].
  destruct (truthy (extract_options_from_text (original_text msg))); [|exact Hg].
  destruct (adjacent_stem msgs g i).
  - apply attach_from; [now apply extracted_block_from|exact Hg].
  - unfold associate_by_similarity.
    destruct (similarity_target ratio (potential_questions g) msg _) as [[b s]|];
      [|exact Hg].
    apply attach_from; [now apply extracted_block_from|exact Hg].
Qed.

Lemma associate_from ratio (msgs : list message) :
  Forall (blocks_from msgs) (potential_questions (associate ratio msgs)).
Proof.
  unfold associate, pass2.
  assert (H1 : Forall (blocks_from msgs) (potential_questions (pass1 msgs))).
  { unfold pass1.
    assert (H : forall l g, (forall m, m ∈ l -> m ∈ msgs) ->
                            Forall (blocks_from msgs) (potential_questions g) ->
                            Forall (blocks_from msgs)
                                   (potential_questions (fold_left pass1_step l g))).
    { induction l as [|m l IH]; intros g Hsub Hg; cbn [fold_left]; [exact Hg|].
      apply IH; [intros m' H; apply Hsub; now right|].
      apply pass1_step_from; [apply Hsub; now left|exact Hg]. }
    apply H; [auto|constructor]. }
  assert (Hin : forall im, im ∈ enumerate msgs -> snd im ∈ msgs).
  { intros [i m] H. apply enumerate_nth in H. cbn [snd].
    apply list_elem_of_In. eapply nth_error_In, H. }
  assert (H2 : forall l g, (forall im, im ∈ l -> snd im ∈ msgs) ->
                           Forall (blocks_from msgs) (potential_questions g) ->
                           Forall (blocks_from msgs)
                                  (potential_questions
                                     (fold_left (pass2_step ratio msgs) l g))).
  { induction l as [|im l IH]; intros g Hl Hg; cbn [fold_left]; [exact Hg|].
    apply IH; [intros im' H; apply Hl; now right|].
    apply pass2_step_from; [apply Hl; now left|exact Hg]. }
  now apply H2.
Qed.

Lemma sub_prefix_occurs (r : regex) (s : str) : occurs_in (sub_prefix r s) s.
Proof.
  unfold sub_prefix, re_match.
  destruct (head (rmatch false r _)) as [q|] eqn:E.
  - assert (Hq : q ∈ rmatch false r (mkPos None s [])).
    { destruct (rmatch false r _) as [|q' l]; [discriminate|].
      injection E as ->. now left. }
    apply rmatch_suffix in Hq as (k & Hk). cbn [rest] in Hk.
    exists k, []. now rewrite app_nil_r.
  - exists [], []. now rewrite app_nil_r.
Qed.

Lemma refine_option_origin ratio (msgs : list message) (q : Collated.t) (o : str) :
  q ∈ refine_grouping_with_similarity ratio msgs -> o ∈ Collated.options q ->
  o <> []
  /\ exists msg line,
       msg ∈ msgs /\ line ∈ splitlines (original_text msg) /\ occurs_in o line.
Proof.
  unfold refine_grouping_with_similarity.
  destruct (negb (truthy msgs)); [intros H; inversion H|].
  intros Hq Ho.
  apply pass3_elem in Hq as (qd & Hget & Heq & _ & _).
  rewrite Heq in Ho. cbn [Collated.options] in Ho.
  unfold final_options in Ho. rewrite unique_options_firsts in Ho.
  eapply elem_of_sublist in Ho; [|apply firsts_sublist].
  apply cleaned_options_iff in Ho as (Hne & t & Ht & ->).
  split; [exact Hne|].
  unfold all_option_texts in Ht. apply elem_of_flat_map in Ht as (b & Hb & Ht).
  apply dict_get_Some_elem in Hget.
  pose proof (associate_from ratio msgs) as Hfrom.
  rewrite Forall_forall in Hfrom. specialize (Hfrom _ Hget).
  unfold blocks_from in Hfrom. cbn [snd] in Hfrom.
  rewrite Forall_forall in Hfrom. destruct (Hfrom b Hb) as (msg & Hmsg & _ & Hall).
  rewrite Forall_forall in Hall. destruct (Hall t Ht) as (line & Hline & ->).
  exists msg, line. split; [exact Hmsg|]. split; [exact Hline|].
  eapply occurs_in_trans; [apply strip_occurs|].
  eapply occurs_in_trans; [apply sub_prefix_occurs|apply strip_occurs].
Qed.

(** X19: every option of every question that
    refine_grouping_with_similarity returns is not empty and is a run of
    consecutive characters of a line of the original text of a message of
    the list: the grouping invents no option text. *)
Theorem emitted_options_are_taken_from_messages ratio (msgs : list message) :
  Forall (fun q =>
            Forall (fun o =>
                      o <> []
                      /\ exists msg line,
                           msg ∈ msgs /\ line ∈ splitlines (original_text msg)
                           /\ occurs_in o line)
                   (Collated.options q))
         (refine_grouping_with_similarity ratio msgs).
Proof.
  apply Forall_forall. intros q Hq. apply Forall_forall. intros o Ho.
  now apply (refine_option_origin ratio msgs q).
Qed.

(** ** The stem of a question in a run of the pipeline *)

(** ** The stem of a question in a run of the pipeline *)

Lemma nth_of_map_seq (l : list message) (i : nat) (m : message) :
  List.map id l = List.map Z.of_nat (seq 1 (length l)) ->
  nth_error l i = Some m -> id m = Z.of_nat (S i).
Proof.
  intros Hids Hn.
  assert (Hlt : (i < length l)%nat) by (apply nth_error_Some; congruence).
  pose proof (map_nth_error id i l Hn) as H1. rewrite Hids in H1.
  assert (H2 : nth_error (seq 1 (length l)) i = Some (S i)).
  { rewrite (nth_error_nth' _ 0%nat) by (rewrite length_seq; exact Hlt).
    now rewrite seq_nth. }
  rewrite (map_nth_error Z.of_nat i _ H2) in H1. now injection H1 as ->.
Qed.

(** X20: in a run of the pipeline (reader, classifier, grouping) the stem
    id of a returned question is the position, counted from 1, of a
    message in what the reader returns; the classifier flags that message
    and the stem text of the question is computed from its original text. *)
Theorem pipeline_stem_is_a_read_message strptime ratio (text : str) :
  let msgs := preprocess_transcript strptime text in
  Forall (fun q =>
            exists m,
              nth_error msgs (Z.to_nat (Collated.stem_id q) - 1) = Some m
              /\ 1 <= Collated.stem_id q <= len msgs
              /\ id m = Collated.stem_id q
              /\ classify_text (cleaned_text m) = true
              /\ Collated.stem_text q = stem_text_of (original_text m))
         (pipeline strptime ratio text).
Proof.
  intros msgs. unfold pipeline. fold msgs.
  pose proof (refine_questions_flagged ratio (identify_potential_stems msgs)) as H.
  eapply Forall_impl; [exact H|]. clear H. cbn beta.
  intros q (m' & Hm' & Hflag & Hid & Htxt).
  unfold identify_potential_stems in Hm'.
  apply elem_of_map in Hm' as (m & -> & Hm).
  cbn [set_stem is_potential_stem id original_text] in *.
  apply list_elem_of_In, In_nth_error in Hm as (i & Hi).
  assert (Hids : List.map id msgs = List.map Z.of_nat (seq 1 (length msgs))).
  { unfold msgs. rewrite preprocess_read_so_far.
    destruct (reader_numbered strptime text) as (Hids & _ & _).
    pose proof (f_equal (@length Z) Hids) as Hlen.
    rewrite !length_map, length_seq in Hlen. now rewrite Hlen. }
  pose proof (nth_of_map_seq msgs i m Hids Hi) as Hidm.
  assert (Hlt : (i < length msgs)%nat) by (apply nth_error_Some; congruence).
  exists m. rewrite <- Hid, Hidm.
  replace (Z.to_nat (Z.of_nat (S i)) - 1)%nat with i by lia.
  unfold len. repeat split; auto; lia.
Qed.

(** ** app.py: the date range of a transcript *)

Lemma is_digit_not_space (c : char) : is_digit c = true -> isspace c = false.
Proof.
  unfold is_digit, in_range. intros H.
  apply andb_true_iff in H as [H1 H2].
  apply N.leb_le in H1, H2.
  unfold isspace, in_range.
  repeat match goal with
         | |- context [(?a <=? ?b)%N] =>
             destruct (N.leb_spec a b); try lia
         | |- context [(?a =? ?b)%N] =>
             destruct (N.eqb_spec a b); try lia
         end; reflexivity.
Qed.

(** A line that opens with a timestamp is not blank. *)
Lemma timestamp_line_not_blank (line : str) (m : pos) :
  re_match false TIMESTAMP_LINE_REGEX line = Some m -> strip line <> [].
Proof.
  unfold re_match, TIMESTAMP_LINE_REGEX. rewrite rmatch_cat. intros H.
  apply head_flat_map in H as (x1 & Hx1 & H). apply rmatch_suffix in Hx1.
  rewrite rmatch_cat in H.
  apply head_flat_map in H as (x2 & Hx2 & H). apply rmatch_suffix in Hx2.
  rewrite rmatch_cat in H.
  apply head_flat_map in H as (x3 & Hx3 & H). apply rmatch_suffix in Hx3.
  rewrite rmatch_cat in H.
  apply head_flat_map in H as (x4 & Hx4 & _).
  rewrite rmatch_grp in Hx4. apply elem_of_map in Hx4 as (y & _ & Hy).
  rewrite rmatch_cat in Hy. apply elem_of_flat_map in Hy as (z & Hz & _).
  cbn [rep] in Hz. rewrite rmatch_cat in Hz.
  apply elem_of_flat_map in Hz as (w & Hw & _).
  unfold digit in Hw. cbn [rmatch] in Hw.
  assert (Hsuf : rest x3 `suffix_of` line).
  { etrans; [exact Hx3|]. etrans; [exact Hx2|exact Hx1]. }
  destruct (rest x3) as [|c r] eqn:E; [inversion Hw|].
  destruct (is_digit c) eqn:Ec; [|inversion Hw].
  apply not_blank_strip. exists c. split; [|now apply is_digit_not_space].
  destruct Hsuf as (k & ->). apply elem_of_app. right. now left.
Qed.

Section AppProperties.

Variable strptime : str -> str -> option datetime.

Lemma analyze_step_timestamp (st : analysis) (line : str) :
  analyze_step strptime st line
  = match line_timestamp strptime line with
    | Some parsed_dt =>
        mkAnalysis
          (match min_date st with
           | None => Some parsed_dt
           | Some d => if parsed_dt <? d then Some parsed_dt else Some d
           end)
          (match max_date st with
           | None => Some parsed_dt
           | Some d => if d <? parsed_dt then Some parsed_dt else Some d
           end)
          (line_count st + 1) (timestamp_count st + 1)
          (if first_timestamp_line st =? -1 then line_count st + 1
           else first_timestamp_line st)
          (line_count st + 1)
    | None =>
        mkAnalysis (min_date st) (max_date st) (line_count st + 1)
                   (timestamp_count st) (first_timestamp_line st)
                   (last_timestamp_line st)
    end.
Proof.
  unfold analyze_step, line_timestamp.
  destruct (re_match false TIMESTAMP_LINE_REGEX line) as [m|] eqn:Em.
  - apply timestamp_line_not_blank, truthy_iff in Em. now rewrite Em.
  - now destruct (negb (truthy (strip line))).
Qed.

Lemma analyze_step_inv (st : analysis) (line : str) (ds : list datetime) :
  analysis_inv st ds ->
  analysis_inv (analyze_step strptime st line)
               (ds ++ timestamps_of strptime [line]).
Proof.
  intros [Hn Hd]. rewrite analyze_step_timestamp.
  unfold timestamps_of. cbn [omap list_omap].
  destruct (line_timestamp strptime line) as [t|].
  - split.
    + cbn [timestamp_count]. unfold len in *. rewrite length_app. cbn [length]. lia.
    + right. cbn [min_date max_date].
      destruct Hd as [(-> & -> & ->)|(lo & hi & -> & -> & Hlo & Hhi & Hall)].
      * exists t, t. cbn [app]. repeat split; try (now left).
        constructor; [lia|constructor].
      * assert (Hle : lo <= hi).
        { rewrite Forall_forall in Hall. specialize (Hall lo Hlo). lia. }
        exists (if t <? lo then t else lo), (if hi <? t then t else hi).
        split; [now destruct (t <? lo)|]. split; [now destruct (hi <? t)|].
        destruct (Z.ltb_spec t lo), (Z.ltb_spec hi t);
          (split; [apply elem_of_app; try (right; now left); try (now left)|]);
          (split; [apply elem_of_app; try (right; now left); try (now left)|]);
          (apply Forall_app; split;
           [eapply Forall_impl; [exact Hall|]; cbn beta; intros; lia
           |constructor; [lia|constructor]]).
  - rewrite app_nil_r. split; [exact Hn|]. exact Hd.
Qed.

Lemma analyze_loop_inv (lines : list str) :
  analysis_inv (analyze_loop strptime lines) (timestamps_of strptime lines).
Proof.
  unfold analyze_loop.
  assert (H : forall ls st ds,
             analysis_inv st ds ->
             analysis_inv (fold_left (analyze_step strptime) ls st)
                          (ds ++ timestamps_of strptime ls)).
  { induction ls as [|l ls IH]; intros st ds Hst; cbn [fold_left].
    - unfold timestamps_of. cbn. now rewrite app_nil_r.
    - replace (ds ++ timestamps_of strptime (l :: ls))
        with ((ds ++ timestamps_of strptime [l]) ++ timestamps_of strptime ls).
      + apply IH. now apply analyze_step_inv.
      + rewrite <- app_assoc. f_equal. unfold timestamps_of. cbn [omap list_omap].
        now destruct (line_timestamp strptime l). }
  apply (H lines _ []). split; [reflexivity|]. left. auto.
Qed.

(** X21: analyze_transcript answers with a date range when a line
    carries a timestamp that can be parsed, and then the two dates are
    the earliest and the latest of the timestamps of the lines and the
    count is their number; with no such line it answers that no valid
    timestamp was found; the answer for a single date (the branch
    elif timestamp_count > 0) is never given. *)
Theorem analyze_reports_the_extremes (lines : list str) :
  match analyze_transcript strptime lines with
  | date_range lo hi n =>
      lo ∈ timestamps_of strptime lines /\ hi ∈ timestamps_of strptime lines
      /\ Forall (fun d => lo <= d <= hi) (timestamps_of strptime lines)
      /\ n = len (timestamps_of strptime lines)
  | single_date _ _ => False
  | no_valid_timestamps => timestamps_of strptime lines = []
  end.
Proof.
  unfold analyze_transcript.
  destruct (analyze_loop_inv lines) as [Hn Hd].
  destruct Hd as [(Hds & -> & ->)|(lo & hi & -> & -> & Hlo & Hhi & Hall)].
  - rewrite Hn, Hds. reflexivity.
  - auto.
Qed.

Lemma filtered_lines_filter (range : option (datetime * datetime)) (lines : list str) :
  filtered_lines strptime range lines
  = List.filter (include_line strptime range) lines.
Proof.
  unfold filtered_lines.
  assert (H : forall ls acc,
             fold_left (filter_step strptime range) ls acc
             = acc ++ List.filter (include_line strptime range) ls).
  { induction ls as [|l ls IH]; intros acc; cbn [fold_left List.filter].
    - now rewrite app_nil_r.
    - rewrite IH. unfold filter_step.
      destruct (include_line strptime range l); [|reflexivity].
      now rewrite <- app_assoc. }
  apply H.
Qed.

Lemma include_line_timestamp (start_dt end_dt : datetime) (line : str) :
  start_dt <= end_dt ->
  include_line strptime (Some (start_dt, end_dt)) line
  = match re_match false TIMESTAMP_LINE_REGEX line with
    | Some _ =>
        match line_timestamp strptime line with
        | Some d => (start_dt <=? d) && (d <=? end_dt)
        | None => false
        end
    | None => true
    end.
Proof.
  intros Hle. unfold include_line, filtering_active, line_timestamp.
  apply Z.leb_le in Hle. rewrite Hle. cbn [negb].
  now destruct (re_match false TIMESTAMP_LINE_REGEX line).
Qed.

(** X22: when upload_transcript filters with a range that contains the
    range analyze_transcript reports for the same lines, the lines it
    leaves out are exactly those that open with a timestamp that cannot
    be parsed. *)
Theorem analysed_range_drops_only_unparsed_lines (lines : list str)
    (start_dt end_dt lo hi n : Z) :
  analyze_transcript strptime lines = date_range lo hi n ->
  start_dt <= lo -> hi <= end_dt ->
  filtered_lines strptime (Some (start_dt, end_dt)) lines
  = List.filter (fun line => negb (unparsed_timestamp_line strptime line)) lines.
Proof.
  intros Ha Hs He. unfold analyze_transcript in Ha.
  destruct (analyze_loop_inv lines) as [Hn Hd].
  destruct Hd as [(Hds & Hmin & Hmax)|(lo' & hi' & Hmin & Hmax & Hlo & Hhi & Hall)];
    rewrite Hmin, Hmax in Ha.
  { destruct (0 <? timestamp_count (analyze_loop strptime lines)); discriminate. }
  injection Ha as -> -> _.
  rewrite Forall_forall in Hall.
  assert (Hle : start_dt <= end_dt) by (specialize (Hall lo Hlo); lia).
  rewrite filtered_lines_filter. apply filter_ext_in. intros line Hin.
  rewrite include_line_timestamp by exact Hle.
  unfold unparsed_timestamp_line.
  destruct (line_timestamp strptime line) as [d|] eqn:Et.
  - assert (Hd : d ∈ timestamps_of strptime lines).
    { apply list_elem_of_omap. exists line. split; [now apply list_elem_of_In|exact Et]. }
    specialize (Hall d Hd).
    replace (start_dt <=? d) with true by (symmetry; apply Z.leb_le; lia).
    replace (d <=? end_dt) with true by (symmetry; apply Z.leb_le; lia).
    rewrite bool_decide_eq_true_2 by (now exists d).
    now destruct (re_match false TIMESTAMP_LINE_REGEX line).
  - rewrite bool_decide_eq_false_2 by (intros [x Hx]; discriminate).
    now destruct (re_match false TIMESTAMP_LINE_REGEX line).
Qed.

(** X23: under an active date filter (start_dt <= end_dt) every
    timestamp carried by a line that upload_transcript keeps lies in the
    range, and every line that does not open with a timestamp is kept. *)
Theorem filtered_timestamps_are_in_range (lines : list str) (start_dt end_dt : Z) :
  start_dt <= end_dt ->
  Forall (fun d => start_dt <= d <= end_dt)
         (timestamps_of strptime (filtered_lines strptime (Some (start_dt, end_dt)) lines))
  /\ Forall (fun line => re_match false TIMESTAMP_LINE_REGEX line = None
                         -> line ∈ filtered_lines strptime (Some (start_dt, end_dt)) lines)
            lines.
Proof.
  intros Hle. rewrite filtered_lines_filter. split.
  - apply Forall_forall. intros d Hd.
    apply list_elem_of_omap in Hd as (line & Hin & Et).
    apply elem_of_filter' in Hin as [_ Hinc].
    rewrite include_line_timestamp in Hinc by exact Hle. rewrite Et in Hinc.
    destruct (re_match false TIMESTAMP_LINE_REGEX line) eqn:Em.
    + apply andb_true_iff in Hinc as [H1 H2].
      apply Z.leb_le in H1, H2. lia.
    + unfold line_timestamp in Et. rewrite Em in Et. discriminate.
  - apply Forall_forall. intros line Hin Hm.
    apply elem_of_filter'. split; [exact Hin|].
    rewrite include_line_timestamp by exact Hle. now rewrite Hm.
Qed.

End AppProperties.

Lemma analysed_range_drops_only_unparsed_lines_witness :
  analyze_transcript strptime_length three_lines = date_range 15 18 2
  /\ 0 <= 15 /\ 18 <= 100
  /\ filtered_lines strptime_length (Some (0, 100)) three_lines = three_lines.
Proof.
  assert (Ha : analyze_transcript strptime_length three_lines = date_range 15 18 2)
    by (vm_compute; reflexivity).
  split; [exact Ha|]. split; [lia|]. split; [lia|].
  rewrite (analysed_range_drops_only_unparsed_lines strptime_length three_lines
             0 100 15 18 2 Ha); [vm_compute; reflexivity|lia|lia].
Defined.

Lemma filtered_timestamps_are_in_range_witness :
  16 <= 100
  /\ Forall (fun d => 16 <= d <= 100)
            (timestamps_of strptime_length
               (filtered_lines strptime_length (Some (16, 100)) three_lines))
  /\ Forall (fun line => re_match false TIMESTAMP_LINE_REGEX line = None
                         -> line ∈ filtered_lines strptime_length (Some (16, 100))
                                                  three_lines)
            three_lines.
Proof.
  split; [lia|].
  apply (filtered_timestamps_are_in_range strptime_length three_lines 16 100). lia.
Defined.

(** ** component_3_option_identification_grouping.py *)

Lemma basic_stored_ok (messages : list message) (st : Basic.state) :
  basic_inv messages st -> Forall (basic_group_ok messages) (Basic.stored st).
Proof.
  intros [Hpq Hcur]. unfold Basic.stored.
  destruct (Basic.current_stem_message st) as [[stem text]|]; [|exact Hpq].
  destruct (truthy (Basic.current_options_list st)) eqn:Et; [|exact Hpq].
  apply Forall_app. split; [exact Hpq|]. constructor; [|constructor].
  split; [exact Hcur|]. cbn. now apply truthy_iff.
Qed.

Lemma basic_step_inv (messages : list message) (st : Basic.state) (msg : message) :
  msg ∈ messages -> basic_inv messages st ->
  basic_inv messages (Basic.group_step st msg).
Proof.
  intros Hin Hinv. pose proof (basic_stored_ok messages st Hinv) as Hst.
  destruct Hinv as [Hpq Hcur]. unfold Basic.group_step.
  destruct (is_potential_stem msg) eqn:Es.
  - destruct (Basic.split_stem_message (splitlines (original_text msg)))
      as [stem_lines option_lines] eqn:Esplit.
    split; [exact Hst|]. cbn [Basic.current_stem_message Basic.current_options_list].
    assert (Hold : match Basic.current_stem_message st with
                   | Some _ => if truthy (Basic.current_options_list st) then []
                               else Basic.current_options_list st
                   | None => Basic.current_options_list st
                   end = []).
    { destruct (Basic.current_stem_message st) as [[stem text]|]; [|exact Hcur].
      now destruct (Basic.current_options_list st). }
    rewrite Hold. split; [exact Hin|]. split; [exact Es|]. split.
    + now rewrite Esplit.
    + destruct (truthy option_lines) eqn:Eo; [|constructor].
      constructor; [|constructor].
      unfold basic_block_ok. cbn. repeat split; auto. now apply truthy_iff.
  - destruct (Basic.current_stem_message st) as [[stem text]|] eqn:Ecur.
    + destruct (negb (truthy (Basic.non_empty_lines (splitlines (original_text msg))))).
      { split; [exact Hpq|]. now rewrite Ecur. }
      assert (Hclosed : basic_inv messages (Basic.mkState (Basic.stored st) None []))
        by (split; [exact Hst|reflexivity]).
      destruct (Basic.likely_options msg (splitlines (original_text msg)))
        as [found|]; [|exact Hclosed].
      destruct (Z.eqb_spec (id msg) (id stem + 1)) as [Hid|Hid]; [|exact Hclosed].
      split; [exact Hpq|]. cbn [Basic.current_stem_message Basic.current_options_list].
      destruct Hcur as (H1 & H2 & H3 & H4). repeat split; auto.
      apply Forall_app. split; [exact H4|]. constructor; [|constructor]. exact Hid.
    + split; [exact Hpq|reflexivity].
Qed.

Lemma basic_loop_inv (messages : list message) :
  basic_inv messages (fold_left Basic.group_step messages (Basic.mkState [] None [])).
Proof.
  assert (H : forall l st, (forall m, m ∈ l -> m ∈ messages) ->
                           basic_inv messages st ->
                           basic_inv messages (fold_left Basic.group_step l st)).
  { induction l as [|m l IH]; intros st Hsub Hst; cbn [fold_left]; [exact Hst|].
    apply IH; [intros m' H; apply Hsub; now right|].
    apply basic_step_inv; [apply Hsub; now left|exact Hst]. }
  apply H; [auto|]. split; [constructor|reflexivity].
Qed.

(** X24: every group that identify_options_and_group returns has a stem
    that is a flagged message of the list, the stem text computed from
    the lines of that message, and at least one option block; a block
    internal to the stem message carries its id, user and timestamp and
    at least one option line, and a block of a separate message carries
    the id that follows the id of the stem. *)
Theorem basic_groups_are_well_formed (messages : list message) :
  Forall (basic_group_ok messages) (Basic.identify_options_and_group messages).
Proof.
  unfold Basic.identify_options_and_group.
  destruct (negb (truthy messages)); [constructor|].
  apply basic_stored_ok, basic_loop_inv.
Qed.

Lemma basic_stored_stems (st : Basic.state) :
  sublist (List.map Basic.Group.stem_message (Basic.stored st)) (basic_stems st).
Proof.
  unfold Basic.stored, basic_stems.
  destruct (Basic.current_stem_message st) as [[stem text]|];
    [|now rewrite app_nil_r].
  destruct (truthy (Basic.current_options_list st)).
  - now rewrite map_app.
  - now apply sublist_inserts_r.
Qed.

Lemma basic_step_stems (st : Basic.state) (msg : message) (l : list message) :
  sublist (basic_stems st) l ->
  sublist (basic_stems (Basic.group_step st msg))
          (l ++ List.filter is_potential_stem [msg]).
Proof.
  intros Hsub. pose proof (basic_stored_stems st) as Hst.
  unfold Basic.group_step. cbn [List.filter].
  destruct (is_potential_stem msg) eqn:Es.
  - destruct (Basic.split_stem_message (splitlines (original_text msg)))
      as [stem_lines option_lines].
    unfold basic_stems at 1.
    cbn [Basic.potential_questions Basic.current_stem_message].
    apply sublist_app; [|reflexivity]. now transitivity (basic_stems st).
  - rewrite app_nil_r.
    assert (Hclosed : sublist (basic_stems (Basic.mkState (Basic.stored st) None [])) l).
    { unfold basic_stems at 1. cbn [Basic.potential_questions Basic.current_stem_message].
      rewrite app_nil_r. now transitivity (basic_stems st). }
    destruct (Basic.current_stem_message st) as [[stem text]|] eqn:Ecur.
    + destruct (negb (truthy (Basic.non_empty_lines (splitlines (original_text msg)))));
        [exact Hsub|].
      destruct (Basic.likely_options msg (splitlines (original_text msg)))
        as [found|]; [|exact Hclosed].
      destruct (id msg =? id stem + 1); [|exact Hclosed].
      unfold basic_stems in *. cbn [Basic.potential_questions Basic.current_stem_message].
      now rewrite Ecur in Hsub.
    + unfold basic_stems in *. cbn [Basic.potential_questions Basic.current_stem_message].
      now rewrite Ecur in Hsub.
Qed.

(** X25: the stems of the groups that identify_options_and_group returns
    are flagged messages of the list in the order of the list, a flagged
    message giving one group at most. *)
Theorem basic_groups_follow_the_stems (messages : list message) :
  sublist (List.map Basic.Group.stem_message (Basic.identify_options_and_group messages))
          (List.filter is_potential_stem messages).
Proof.
  unfold Basic.identify_options_and_group.
  destruct (negb (truthy messages)); [apply sublist_nil_l|].
  etransitivity; [apply basic_stored_stems|].
  assert (H : forall ms st l,
             sublist (basic_stems st) l ->
             sublist (basic_stems (fold_left Basic.group_step ms st))
                     (l ++ List.filter is_potential_stem ms)).
  { induction ms as [|m ms IH]; intros st l Hst; cbn [fold_left].
    - cbn. now rewrite app_nil_r.
    - change (m :: ms) with ([m] ++ ms). rewrite List.filter_app, app_assoc.
      apply IH. now apply basic_step_stems. }
  apply (H messages _ []). constructor.
Qed.

Lemma stem_line_step_cases (s o : list str) (line : str) :
  (kept_line (strip line) = false /\ Basic.stem_line_step (s, o) line = (s, o))
  \/ (kept_line (strip line) = true
      /\ ((Basic.stem_line_step (s, o) line = (s ++ [strip line], o)
           /\ is_option_marker (strip line) = false)
          \/ Basic.stem_line_step (s, o) line = (s, o ++ [strip line]))).
Proof.
  unfold Basic.stem_line_step, kept_line.
  destruct (truthy (strip line)); cbn [negb orb andb]; [|now left].
  destruct (is_only_marker (strip line)); cbn [negb]; [now left|]. right.
  split; [reflexivity|].
  destruct (is_option_marker (strip line)) eqn:Em; cbn [negb orb andb]; [now right|].
  repeat match goal with
         | |- context [if ?b then _ else _] => destruct b
         end; auto.
Qed.

(** X26: the basic grouping splits the lines it keeps of a stem message
    (stripped, not empty, not a bare marker) into stem lines and option
    lines: no line is lost or repeated, each part is in the order of the
    text, and every line that opens with an option marker is an option
    line. *)
Theorem basic_stem_message_is_split (lines : list str) :
  let kept := List.filter kept_line (List.map strip lines) in
  let stem_lines := fst (Basic.split_stem_message lines) in
  let option_lines := snd (Basic.split_stem_message lines) in
  stem_lines ++ option_lines ≡ₚ kept
  /\ sublist stem_lines kept /\ sublist option_lines kept
  /\ Forall (fun l => is_option_marker l = true -> l ∈ option_lines) kept.
Proof.
  cbn zeta. unfold Basic.split_stem_message.
  assert (H : forall ls s o kept,
             (s ++ o ≡ₚ kept /\ sublist s kept /\ sublist o kept
              /\ Forall (fun l => is_option_marker l = true -> l ∈ o) kept) ->
             let r := fold_left Basic.stem_line_step ls (s, o) in
             let kept' := kept ++ List.filter kept_line (List.map strip ls) in
             fst r ++ snd r ≡ₚ kept' /\ sublist (fst r) kept' /\ sublist (snd r) kept'
             /\ Forall (fun l => is_option_marker l = true -> l ∈ snd r) kept').
  { induction ls as [|l ls IH]; intros s o kept Hinv; cbn zeta; cbn [fold_left List.map].
    - cbn [List.filter fst snd]. now rewrite app_nil_r.
    - change (strip l :: List.map strip ls) with ([strip l] ++ List.map strip ls).
      rewrite List.filter_app, app_assoc. cbn [List.filter].
      destruct Hinv as (Hp & Hs & Ho & Hm).
      destruct (stem_line_step_cases s o l) as [[Hk ->]|[Hk [[-> Hnm]| ->]]];
        rewrite Hk; apply IH.
      + now rewrite app_nil_r.
      + repeat split.
        * rewrite <- Hp. rewrite <- !app_assoc. apply Permutation_app_head.
          apply Permutation_app_comm.
        * now apply sublist_app.
        * now apply sublist_inserts_r.
        * apply Forall_app. split; [exact Hm|]. constructor; [|constructor].
          congruence.
      + repeat split.
        * now rewrite app_assoc, Hp.
        * now apply sublist_inserts_r.
        * now apply sublist_app.
        * apply Forall_app. split.
          -- eapply Forall_impl; [exact Hm|]. cbn beta. intros x Hx Hmx.
             apply elem_of_app. left. now apply Hx.
          -- constructor; [|constructor]. intros _. apply elem_of_app. right. now left. }
  apply (H lines [] [] []). repeat split; constructor.
Qed.

(** ** The text of a message and the lines of the transcript *)

Lemma reader_fold_inv_in strptime (P : reader_state -> Prop) (lines ls : list str) :
  (forall l, l ∈ lines -> no_line_feed l) ->
  (forall l, l ∈ ls -> l ∈ lines) ->
  (forall l st st', l ∈ lines -> P st ->
                    reader_move strptime (strip l) st st' -> P st') ->
  forall st, P st -> P (fold_left (reader_step strptime) ls st).
Proof.
  intros Hnl Hsub Hmove. induction ls as [|l ls IH]; intros st Hst; cbn [fold_left];
    [exact Hst|].
  apply IH.
  - intros l' Hl'. apply Hsub. now right.
  - assert (Hl : l ∈ lines) by (apply Hsub; now left).
    destruct (strip l) as [|c r] eqn:E.
    + now rewrite reader_step_blank.
    + apply (Hmove l st); [exact Hl|exact Hst|].
      apply reader_step_move; [now apply Hnl|rewrite E; discriminate].
Qed.

Lemma join_snoc (sep : str) (pieces : list str) (t : str) :
  pieces <> [] -> join sep (pieces ++ [t]) = join sep pieces ++ sep ++ t.
Proof.
  induction pieces as [|p ps IH]; [congruence|]. intros _.
  destruct ps as [|p' ps']; [reflexivity|].
  change (join sep ((p :: p' :: ps') ++ [t]))
    with (p ++ sep ++ join sep ((p' :: ps') ++ [t])).
  rewrite IH by discriminate.
  change (join sep (p :: p' :: ps')) with (p ++ sep ++ join sep (p' :: ps')).
  now rewrite <- !app_assoc.
Qed.

Lemma suffix_occurs (t s : str) : t `suffix_of` s -> occurs_in t s.
Proof. intros (k & ->). exists k, []. now rewrite app_nil_r. Qed.

Lemma occurs_in_elem (o t : str) (c : char) : occurs_in o t -> c ∈ o -> c ∈ t.
Proof.
  intros (a & b & ->) Hc. apply elem_of_app. right. apply elem_of_app. now left.
Qed.

Lemma piece_from_line (text l t : str) :
  l ∈ splitlines text -> occurs_in t l -> from_lines (splitlines text) t.
Proof.
  intros Hl Ho. split.
  - intros c Hc. apply (splitlines_no_linebreak text l c Hl).
    eapply occurs_in_elem; eauto.
  - now exists l.
Qed.

Lemma reader_made_of strptime (text : str) :
  Forall (made_of (splitlines text)) (preprocess_transcript strptime text).
Proof.
  rewrite preprocess_read_so_far.
  apply (reader_fold_inv_in strptime
           (fun st => Forall (made_of (splitlines text)) (read_so_far st))
           (splitlines text) (splitlines text)).
  - intros l. apply splitlines_no_line_feed.
  - auto.
  - intros l st st' Hl Hst Hmove.
    assert (Hpiece : forall t, t `suffix_of` strip l ->
                               from_lines (splitlines text) t
                               /\ from_lines (splitlines text) (strip t)).
    { intros t Ht.
      assert (Ho : occurs_in t l).
      { eapply occurs_in_trans; [apply suffix_occurs, Ht|apply strip_occurs]. }
      split; [now apply (piece_from_line text l)|].
      apply (piece_from_line text l); [exact Hl|].
      eapply occurs_in_trans; [apply strip_occurs|exact Ho]. }
    assert (Hnew : forall i ts dt who t,
               t `suffix_of` strip l ->
               made_of (splitlines text)
                       (mkMessage i ts dt who (strip t) (lower (strip t)) false)).
    { intros i ts dt who t Ht. exists [strip t]. split; [discriminate|].
      split; [reflexivity|]. constructor; [|constructor]. now apply Hpiece. }
    destruct Hmove as [ts who t Hts Ht Hsuf|cur t Hcur Ht Hsuf|t Hcur Ht Hsuf];
      unfold read_so_far in *; cbn [messages current_message].
    + apply Forall_app. split; [exact Hst|]. constructor; [|constructor].
      now apply Hnew.
    + rewrite Hcur in Hst. apply Forall_app in Hst as [Hm Hc].
      apply Forall_app. split; [exact Hm|]. constructor; [|constructor].
      apply Forall_cons in Hc as [(pieces & Hne & Hj & Hall) _].
      exists (pieces ++ [t]). split; [now destruct pieces|]. split.
      * cbn [append_text original_text]. rewrite Hj. symmetry. now apply join_snoc.
      * apply Forall_app. split; [exact Hall|]. constructor; [|constructor].
        now apply Hpiece.
    + rewrite Hcur in Hst. apply Forall_app in Hst as [Hm _].
      apply Forall_app. split; [exact Hm|]. constructor; [|constructor].
      now apply Hnew.
  - constructor.
Qed.

(** X1: in every message that preprocess_transcript returns,
    original_text is made of pieces that hold no line boundary (the text
    of the line that opens the message, then that of each continuation
    line) joined by line feeds, and cleaned_text is made of the same
    pieces, each put in lower case on its own, joined in the same way. *)
Theorem reader_cleaned_text_is_lowered strptime (text : str) :
  Forall (fun m =>
            exists pieces,
              pieces <> []
              /\ Forall (fun p => forall c, c ∈ p -> is_linebreak c = false) pieces
              /\ original_text m = join LF pieces
              /\ cleaned_text m = join LF (List.map lower pieces))
         (preprocess_transcript strptime text).
Proof.
  rewrite preprocess_read_so_far.
  apply (reader_fold_inv_in strptime
           (fun st => Forall (fun m =>
                                exists pieces,
                                  pieces <> []
                                  /\ Forall (fun p => forall c, c ∈ p ->
                                                                is_linebreak c = false)
                                            pieces
                                  /\ original_text m = join LF pieces
                                  /\ cleaned_text m = join LF (List.map lower pieces))
                             (read_so_far st))
           (splitlines text) (splitlines text)).
  - intros l. apply splitlines_no_line_feed.
  - auto.
  - intros l st st' Hl Hst Hmove.
    assert (Hpiece : forall t, t `suffix_of` strip l ->
                               (forall c, c ∈ t -> is_linebreak c = false)
                               /\ (forall c, c ∈ strip t -> is_linebreak c = false)).
    { intros t Ht.
      assert (Ho : occurs_in t l).
      { eapply occurs_in_trans; [apply suffix_occurs, Ht|apply strip_occurs]. }
      split; intros c Hc; apply (splitlines_no_linebreak text l c Hl).
      - eapply occurs_in_elem; eauto.
      - eapply occurs_in_elem; [exact Ho|].
        eapply occurs_in_elem; [apply strip_occurs|exact Hc]. }
    assert (Hnew : forall i ts dt who t,
               t `suffix_of` strip l ->
               exists pieces,
                 pieces <> []
                 /\ Forall (fun p => forall c, c ∈ p -> is_linebreak c = false) pieces
                 /\ original_text (mkMessage i ts dt who (strip t) (lower (strip t)) false)
                    = join LF pieces
                 /\ cleaned_text (mkMessage i ts dt who (strip t) (lower (strip t)) false)
                    = join LF (List.map lower pieces)).
    { intros i ts dt who t Ht. exists [strip t]. split; [discriminate|].
      split; [|split; reflexivity]. constructor; [|constructor]. now apply Hpiece. }
    destruct Hmove as [ts who t Hts Ht Hsuf|cur t Hcur Ht Hsuf|t Hcur Ht Hsuf];
      unfold read_so_far in *; cbn [messages current_message].
    + apply Forall_app. split; [exact Hst|]. constructor; [|constructor].
      now apply Hnew.
    + rewrite Hcur in Hst. apply Forall_app in Hst as [Hm Hc].
      apply Forall_app. split; [exact Hm|]. constructor; [|constructor].
      apply Forall_cons in Hc as [(pieces & Hne & Hall & Ho & Hcl) _].
      exists (pieces ++ [t]). split; [now destruct pieces|]. split; [|split].
      * apply Forall_app. split; [exact Hall|]. constructor; [|constructor].
        now apply Hpiece.
      * cbn [append_text original_text]. rewrite Ho. symmetry. now apply join_snoc.
      * cbn [append_text cleaned_text]. rewrite Hcl, map_app. cbn [List.map].
        symmetry. apply join_snoc. now destruct pieces.
    + rewrite Hcur in Hst. apply Forall_app in Hst as [Hm _].
      apply Forall_app. split; [exact Hm|]. constructor; [|constructor].
      now apply Hnew.
  - constructor.
Qed.

Lemma splitlines_line_lf (p t : str) :
  (forall c, c ∈ p -> is_linebreak c = false) ->
  splitlines (p ++ 10%N :: t) = p :: splitlines t.
Proof.
  intros Hp. induction p as [|c p IH]; cbn [app splitlines].
  - change (is_linebreak 10) with true. cbn match.
    destruct t as [|d t']; [reflexivity|]. reflexivity.
  - rewrite (Hp c) by now left. rewrite IH; [reflexivity|].
    intros d Hd. apply Hp. now right.
Qed.

Lemma splitlines_one_line (p : str) :
  (forall c, c ∈ p -> is_linebreak c = false) ->
  splitlines p = match p with [] => [] | _ => [p] end.
Proof.
  intros Hp. induction p as [|c p IH]; [reflexivity|]. cbn [splitlines].
  rewrite (Hp c) by now left. rewrite IH by (intros d Hd; apply Hp; now right).
  now destruct p.
Qed.

Lemma splitlines_join (pieces : list str) (x : str) :
  Forall (fun p => forall c, c ∈ p -> is_linebreak c = false) pieces ->
  x ∈ splitlines (join LF pieces) -> x ∈ pieces.
Proof.
  induction 1 as [|p ps Hp Hps IH]; [intros H; inversion H|].
  destruct ps as [|p' ps'].
  - cbn [join]. rewrite splitlines_one_line by exact Hp.
    destruct p; [intros H; inversion H|]. intros H.
    apply list_elem_of_singleton in H. subst. now left.
  - change (join LF (p :: p' :: ps')) with (p ++ 10%N :: join LF (p' :: ps')).
    rewrite splitlines_line_lf by exact Hp. intros H.
    apply elem_of_cons in H as [->|H]; [now left|]. right. now apply IH.
Qed.

Lemma made_of_lines (lines : list str) (m : message) (x : str) :
  made_of lines m -> x ∈ splitlines (original_text m) ->
  exists l, l ∈ lines /\ occurs_in x l.
Proof.
  intros (pieces & _ & Hj & Hall) Hx. rewrite Hj in Hx.
  apply splitlines_join in Hx.
  - rewrite Forall_forall in Hall. now destruct (Hall x Hx) as [_ H].
  - eapply Forall_impl; [exact Hall|]. now intros p [H _].
Qed.

(** X27: every line of the original_text of a message that
    preprocess_transcript returns is a run of consecutive characters of
    a line of the transcript: the reader adds no text of its own. *)
Theorem reader_lines_come_from_the_transcript strptime (text : str) :
  Forall (fun m =>
            Forall (fun x => exists l, l ∈ splitlines text /\ occurs_in x l)
                   (splitlines (original_text m)))
         (preprocess_transcript strptime text).
Proof.
  eapply Forall_impl; [apply reader_made_of|]. cbn beta. intros m Hm.
  apply Forall_forall. intros x Hx. now apply (made_of_lines _ m).
Qed.

(** X28: every option of every question that a run of the pipeline
    (reader, classifier, grouping) returns is not empty and is a run of
    consecutive characters of a line of the transcript. *)
Theorem pipeline_options_occur_in_the_transcript strptime ratio (text : str) :
  Forall (fun q =>
            Forall (fun o => o <> []
                             /\ exists l, l ∈ splitlines text /\ occurs_in o l)
                   (Collated.options q))
         (pipeline strptime ratio text).
Proof.
  apply Forall_forall. intros q Hq. apply Forall_forall. intros o Ho.
  unfold pipeline in Hq.
  destruct (refine_option_origin ratio _ q o Hq Ho) as (Hne & msg & line & Hmsg & Hl & Hocc).
  split; [exact Hne|].
  unfold identify_potential_stems in Hmsg.
  apply elem_of_map in Hmsg as (m & -> & Hm).
  cbn [set_stem original_text] in Hl.
  pose proof (reader_made_of strptime text) as Hall.
  rewrite Forall_forall in Hall.
  destruct (made_of_lines _ m line (Hall m Hm) Hl) as (l & Hin & Holine).
  exists l. split; [exact Hin|]. eapply occurs_in_trans; eauto.
Qed.

(** ** The stem text of a stem of the dictionary (C10) *)




